(** * scale_and_slide: image pyramid and sliding-window crops

    A shallow embedding of [src/scale_and_slide.py]: [get_scaled_images],
    [sliding_window] and [get_image_chunks].  Python integers are [Z];
    a raised exception is a value of [result]; the imaging library and the
    arithmetic on the scale factor are interfaces ([ImageLib], [Arith]),
    the latter with its binary64 instance.  The [print] calls are left
    out. *)

From Stdlib Require Import ZArith List Lia Bool QArith Qround Qpower SpecFloat.
From Stdlib Require Import Lqa.
Import ListNotations.
Open Scope Z_scope.

(** ** Exceptions *)

(** The exceptions that can leave the three functions: the [ValueError]
    of [sliding_window], whose message is built from [window_dim] and
    [image.size]; the one of [range] when its step is zero; the one of
    [Image.resize] when a side of the requested size is below 1; and
    those of the arithmetic on a float ([OverflowError] of [**], of an
    integer too large for a float and of [int] of an infinity,
    [ValueError] of [int] of a NaN, [ZeroDivisionError] of zero to a
    negative power). *)
Inductive exn : Type :=
| ValueError_window (window_dim : Z * Z) (size : Z * Z)
| ValueError_range_step
| ValueError_resize
| OverflowError
| ValueError_nan
| ZeroDivisionError_pow.

Inductive result (A : Type) : Type :=
| Ok (a : A)
| Raise (e : exn).

Arguments Ok {A} a.
Arguments Raise {A} e.

Definition bind {A B : Type} (r : result A) (k : A -> result B) : result B :=
  match r with
  | Ok a => k a
  | Raise e => Raise e
  end.

Notation "x <- r ;; k" := (bind r (fun x => k))
  (at level 61, r at next level, right associativity).

(** ** Python's [range] *)

(** Number of items of [range(start, stop, step)] for a non-zero step. *)
Definition range_length (start stop step : Z) : Z :=
  if 0 <? step
  then (if start <? stop then (stop - start - 1) / step + 1 else 0)
  else (if stop <? start then (start - stop - 1) / (- step) + 1 else 0).

Definition range_items (start stop step : Z) : list Z :=
  map (fun i => start + Z.of_nat i * step)
      (seq 0 (Z.to_nat (range_length start stop step))).

(** [range(start, stop, step)]: a zero step raises [ValueError]. *)
Definition py_range (start stop step : Z) : result (list Z) :=
  if step =? 0 then Raise ValueError_range_step
  else Ok (range_items start stop step).

(** [range(stop)] *)
Definition py_range1 (stop : Z) : list Z := range_items 0 stop 1.

(** ** The imaging library *)

(** A crop box [left, upper, right, lower]. *)
Definition Box : Type := (Z * Z * Z * Z)%type.

Definition box_right (b : Box) : Z := let '(_, _, r, _) := b in r.

(** What the module uses of [PIL.Image.Image]: the two size attributes,
    [resize] and [crop].  The resampling itself is the library's; its
    contract here is on sizes only: sizes are never negative; on an
    image with no empty side, [resize] raises [ValueError] when a side
    of the requested size is below 1 and otherwise returns an image of
    the requested size (nothing is said of [resize] on an image with an
    empty side, which [resize] copies when asked for its own size); a
    crop has the size of its box. *)
Class ImageLib (Image : Type) : Type := {
  width : Image -> Z;
  height : Image -> Z;
  resize : Image -> Z * Z -> result Image;
  crop : Image -> Box -> Image;
  width_nonneg : forall im, 0 <= width im;
  height_nonneg : forall im, 0 <= height im;
  resize_raises : forall im w h, 1 <= width im -> 1 <= height im ->
    w < 1 \/ h < 1 -> resize im (w, h) = Raise ValueError_resize;
  resize_size : forall im w h, 1 <= width im -> 1 <= height im ->
    1 <= w -> 1 <= h ->
    exists im', resize im (w, h) = Ok im' /\
                width im' = w /\ height im' = h;
  crop_size : forall im l u r b, l <= r -> u <= b ->
    width (crop im (l, u, r, b)) = r - l /\
    height (crop im (l, u, r, b)) = b - u
}.

Definition size {Image : Type} `{ImageLib Image} (im : Image) : Z * Z :=
  (width im, height im).

(** ** Arithmetic on the scale factor *)

(** The three operations [get_scaled_images] applies to [increment]:
    [increment ** n], [n * x] for an integer [n], and [int(x)].  Each
    can raise. *)
Class Arith (F : Type) : Type := {
  pow : F -> Z -> result F;
  times : Z -> F -> result F;
  int_ : F -> result Z
}.

(** *** Python floats *)

(** A Python float is an IEEE 754 binary64 number; its operations round
    to nearest, ties to even. *)
Definition float : Type := spec_float.

Definition float_prec : Z := 53.
Definition float_emax : Z := 1024.

(** [float(n)] for an integer [n]: the nearest double, or
    [OverflowError]. *)
Definition float_of_int (n : Z) : result float :=
  match binary_normalize float_prec float_emax n 0 false with
  | S754_infinity _ => Raise OverflowError
  | x => Ok x
  end.

(** The double a decimal literal denotes, for the ratio of two integers
    below 2^53: the one nearest to the ratio. *)
Definition float_literal (num den : Z) : float :=
  SFdiv float_prec float_emax
    (binary_normalize float_prec float_emax num 0 false)
    (binary_normalize float_prec float_emax den 0 false).

(** The real number a double stands for (0 for an infinity or a NaN). *)
Definition float_value (x : float) : Q :=
  match x with
  | S754_finite s m e =>
      ((if s then inject_Z (Zneg m) else inject_Z (Zpos m)) * 2 ^ e)%Q
  | _ => 0%Q
  end.

(** [n * x]: the integer is converted, then the product is rounded. *)
Definition float_times (n : Z) (x : float) : result float :=
  y <- float_of_int n ;;
  Ok (SFmul float_prec float_emax y x).

(** [int(x)]: truncation toward zero. *)
Definition float_int (x : float) : result Z :=
  match x with
  | S754_zero _ => Ok 0
  | S754_infinity _ => Raise OverflowError
  | S754_nan => Raise ValueError_nan
  | S754_finite s m e =>
      let a := if 0 <=? e then Zpos m * 2 ^ e else Zpos m / 2 ^ (- e) in
      Ok (if s then - a else a)
  end.

(** [x ** n] for an integer [n]: the special cases of [float_pow], then
    the C library's [pow], taken as correctly rounded (as it is whenever
    the power is itself a double, and for [n = 1]); an overflow is
    [OverflowError].  The module only raises to powers of at least 1. *)
Definition float_pow (x : float) (n : Z) : result float :=
  match n with
  | Z0 => Ok (S754_finite false 4503599627370496 (-52))
  | Zpos p =>
      match x with
      | S754_nan => Ok S754_nan
      | S754_infinity s => Ok (S754_infinity (s && Z.odd n))
      | S754_zero s => Ok (S754_zero (s && Z.odd n))
      | S754_finite s m e =>
          match binary_normalize float_prec float_emax
                  (if s && Z.odd n then Zneg (m ^ p) else Zpos (m ^ p))
                  (e * n) false with
          | S754_infinity _ => Raise OverflowError
          | y => Ok y
          end
      end
  | Zneg p =>
      match x with
      | S754_nan => Ok S754_nan
      | S754_infinity s => Ok (S754_zero (s && Z.odd n))
      | S754_zero _ => Raise ZeroDivisionError_pow
      | S754_finite s m e =>
          let d := Zpos (m ^ p) in
          let k := Z.log2 d + 65 in
          let q := 2 ^ k / d in
          let r := 2 ^ k mod d in
          let l := if r =? 0 then loc_Exact
                   else loc_Inexact (Z.compare (2 * r) d) in
          match binary_round_aux float_prec float_emax (s && Z.odd n)
                  q (- (e * Zpos p) - k) l with
          | S754_infinity _ => Raise OverflowError
          | y => Ok y
          end
      end
  end.

#[export] Instance Arith_float : Arith float := {
  pow := float_pow;
  times := float_times;
  int_ := float_int
}.

(** *** Rounding, on the rationals

    What the statements on the rounding of floats are written with. *)

(** [m / 2^k] rounded to the nearest integer, ties to even: what the
    shifts of [binary_round_aux] compute. *)
Definition rnd (m k : Z) : Z :=
  let q := m / 2 ^ k in
  match 2 * (m mod 2 ^ k) ?= 2 ^ k with
  | Lt => q
  | Eq => if Z.even q then q else q + 1
  | Gt => q + 1
  end.

(** The exponent of the doubles of magnitude [e]. *)
Definition float_fexp (e : Z) : Z := fexp float_prec float_emax e.

(** A rational rounded to the nearest integer, ties to even. *)
Definition rneQ (x : Q) : Z :=
  let f := Qfloor x in
  match (x - inject_Z f ?= 1 # 2)%Q with
  | Lt => f
  | Eq => if Z.even f then f else f + 1
  | Gt => f + 1
  end.

(** The rational [m * 2^e]. *)
Definition dyadic (m e : Z) : Q := (inject_Z m * 2 ^ e)%Q.

(** A rational [v] with [2^(mag-1) <= v < 2^mag], rounded to the nearest
    double, ties to even (overflow aside). *)
Definition round_float (v : Q) (mag : Z) : Q :=
  (inject_Z (rneQ (v * 2 ^ (- float_fexp mag))) * 2 ^ float_fexp mag)%Q.

(** The magnitude of a positive rational [v]: the [mag] with
    [2^(mag-1) <= v < 2^mag]. *)
Definition Qmag (v : Q) : Z :=
  let p := Qnum v in
  let q := Zpos (Qden v) in
  let d := Z.log2 p - Z.log2 q in
  if (if 0 <=? d then q * 2 ^ d <=? p else q <=? p * 2 ^ (- d))
  then d + 1 else d.

(** A positive rational rounded to the nearest double, ties to even. *)
Definition round_double (v : Q) : Q := round_float v (Qmag v).

(** The side [int(n * increment ** k)] as binary64 computes it, on the
    rationals: the power rounded to the nearest double, the product
    rounded to the nearest double, then the floor. *)
Definition scaled_side (n : Z) (increment : float) (k : Z) : Z :=
  Qfloor (round_double
            (inject_Z n * round_double (float_value increment ^ k))).

(** The doubles the scale factors and the scaled sides are: zero or a
    positive finite number. *)
Definition float_finite_nonneg (x : float) : Prop :=
  match x with
  | S754_zero false | S754_finite false _ _ => True
  | _ => False
  end.

Section Program.

Context {Image : Type} `{ImageLib Image}.

(** ** get_scaled_images *)

Section Scaled.

Context {F : Type} `{Arith F}.

Definition new_dims (img : Image) (count : Z) (increment : F) (i : Z)
  : result (Z * Z) :=
  resize_amount <- pow increment (count - 1 - i) ;;
  scaled_width <- times (width img) resize_amount ;;
  new_width <- int_ scaled_width ;;
  scaled_height <- times (height img) resize_amount ;;
  new_height <- int_ scaled_height ;;
  Ok (new_width, new_height).

(** The loop [for i in range(count - 1)], threading [imgs]. *)
Fixpoint scale_loop (img : Image) (count : Z) (increment : F)
    (indices : list Z) (imgs : list Image) : result (list Image) :=
  match indices with
  | [] => Ok imgs
  | i :: rest =>
      dims <- new_dims img count increment i ;;
      resized <- resize img dims ;;
      scale_loop img count increment rest (imgs ++ [resized])
  end.

Definition get_scaled_images (img : Image) (count : Z) (increment : F)
  : result (list Image) :=
  imgs <- scale_loop img count increment (py_range1 (count - 1)) [] ;;
  Ok (imgs ++ [img]).

End Scaled.

(** ** sliding_window *)

(** The bounds of the crop at grid position [(x, y)], after the two
    overflow adjustments. *)
Definition crop_bounds_at (image : Image) (window_dim : Z * Z) (x y : Z)
  : Box :=
  let left_bound := x in
  let right_bound := left_bound + fst window_dim in
  let upper_bound := y in
  let lower_bound := upper_bound + snd window_dim in
  let '(upper_bound, lower_bound) :=
    if height image <? lower_bound
    then (height image - snd window_dim, height image)
    else (upper_bound, lower_bound) in
  let '(left_bound, right_bound) :=
    if width image <? right_bound
    then (width image - fst window_dim, width image)
    else (left_bound, right_bound) in
  (left_bound, upper_bound, right_bound, lower_bound).

(** The local state of [sliding_window]. *)
Record sw_state : Type := {
  pictures : list (Image * Box);
  tally : Z
}.

(** The inner loop [for x in range(0, image.width, stride)] with its
    [break]. *)
Fixpoint row_loop (image : Image) (window_dim : Z * Z) (y : Z)
    (xs : list Z) (st : sw_state) : sw_state :=
  match xs with
  | [] => st
  | x :: rest =>
      let crop_bounds := crop_bounds_at image window_dim x y in
      let pict := (crop image crop_bounds, crop_bounds) in
      let st' := {| pictures := pictures st ++ [pict];
                    tally := tally st + 1 |} in
      if box_right crop_bounds =? width image then st'
      else row_loop image window_dim y rest st'
  end.

(** The outer loop [for y in range(0, image.height, stride)]. *)
Fixpoint rows_loop (image : Image) (window_dim : Z * Z) (stride : Z)
    (ys : list Z) (st : sw_state) : result sw_state :=
  match ys with
  | [] => Ok st
  | y :: rest =>
      xs <- py_range 0 (width image) stride ;;
      rows_loop image window_dim stride rest
        (row_loop image window_dim y xs st)
  end.

(** [sliding_window] up to its [return]: the final [pictures] and
    [tally]. *)
Definition sliding_window_state (image : Image) (window_dim : Z * Z)
    (stride : Z) : result sw_state :=
  if (fst window_dim >? width image) || (snd window_dim >? height image)
  then Raise (ValueError_window window_dim (size image))
  else
    ys <- py_range 0 (height image) stride ;;
    rows_loop image window_dim stride ys {| pictures := []; tally := 0 |}.

Definition sliding_window (image : Image) (window_dim : Z * Z) (stride : Z)
  : result (list Image) :=
  st <- sliding_window_state image window_dim stride ;;
  Ok (map fst (pictures st)).

(** ** get_image_chunks *)

(** The loop [for im in scaled_images], threading [crops]. *)
Fixpoint chunks_loop (window_dim : Z * Z) (stride : Z)
    (scaled_images : list Image) (crops : list (list Image))
  : result (list (list Image)) :=
  match scaled_images with
  | [] => Ok crops
  | im :: rest =>
      c <- sliding_window im window_dim stride ;;
      chunks_loop window_dim stride rest (crops ++ [c])
  end.

Definition get_image_chunks {F : Type} `{Arith F} (img : Image)
    (window_dim : Z * Z) (stride : Z) (num_rescales : Z)
    (rescale_increment : F) : result (list (list Image)) :=
  scaled_images <-
    get_scaled_images img num_rescales rescale_increment ;;
  chunks_loop window_dim stride scaled_images [].

End Program.

(** ** The levels, one at a time *)

(** A raising function run over a list, from left to right. *)
Fixpoint mapM {A B : Type} (f : A -> result B) (l : list A)
  : result (list B) :=
  match l with
  | [] => Ok []
  | a :: rest =>
      b <- f a ;;
      bs <- mapM f rest ;;
      Ok (b :: bs)
  end.

(** One turn of the loop of [get_scaled_images]: the resized level of
    index [i]. *)
Definition level_at {Image : Type} `{ImageLib Image} {F : Type} `{Arith F}
    (img : Image) (count : Z) (increment : F) (i : Z) : result Image :=
  dims <- new_dims img count increment i ;;
  resize img dims.

(** ** The traversal as the specification words it *)

(** The items of [l] up to and including the first that satisfies [p]. *)
Fixpoint take_through {A : Type} (p : A -> bool) (l : list A) : list A :=
  match l with
  | [] => []
  | a :: rest => if p a then [a] else a :: take_through p rest
  end.

Section Traversal.

Context {Image : Type} `{ImageLib Image}.

(** The crop taken at grid position [(x, y)], with its box. *)
Definition pict_at (image : Image) (window_dim : Z * Z) (y x : Z)
  : Image * Box :=
  let b := crop_bounds_at image window_dim x y in (crop image b, b).

(** Whether a crop reaches the right edge of the image. *)
Definition at_right_edge (image : Image) (p : Image * Box) : bool :=
  box_right (snd p) =? width image.

(** One row: left positions [0, stride, 2*stride, ...] below
    [image.width], stopping after the first crop whose right bound is
    [image.width]. *)
Definition spec_row (image : Image) (window_dim : Z * Z) (stride : Z)
    (y : Z) : list (Image * Box) :=
  take_through (at_right_edge image)
    (map (pict_at image window_dim y) (range_items 0 (width image) stride)).

(** All rows: one for every top value [0, stride, 2*stride, ...] below
    [image.height]. *)
Definition spec_pictures (image : Image) (window_dim : Z * Z) (stride : Z)
  : list (Image * Box) :=
  flat_map (spec_row image window_dim stride)
    (range_items 0 (height image) stride).

End Traversal.

(** ** A symbolic imaging library *)

(** Images as terms that record how they were derived: an opened file of
    a given size, a resized copy, a crop.  Sizes follow the library's
    contract; no resampling is fixed. *)
Inductive SImage : Type :=
| Opened (w h : N)
| Resized (src : SImage) (dims : Z * Z)
| Cropped (src : SImage) (box : Box).

Definition s_width (im : SImage) : Z :=
  match im with
  | Opened w _ => Z.of_N w
  | Resized _ (w, _) => Z.max 0 w
  | Cropped _ (l, _, r, _) => Z.max 0 (r - l)
  end.

Definition s_height (im : SImage) : Z :=
  match im with
  | Opened _ h => Z.of_N h
  | Resized _ (_, h) => Z.max 0 h
  | Cropped _ (_, u, _, b) => Z.max 0 (b - u)
  end.

Definition s_resize (im : SImage) (dims : Z * Z) : result SImage :=
  if (fst dims <? 1) || (snd dims <? 1) then Raise ValueError_resize
  else Ok (Resized im dims).

#[export] Instance ImageLib_SImage : ImageLib SImage.
Proof.
  refine {| width := s_width; height := s_height;
            resize := s_resize; crop := Cropped |}.
  - intros [w h | src [w h] | src [[[l u] r] b]]; simpl; lia.
  - intros [w h | src [w h] | src [[[l u] r] b]]; simpl; lia.
  - intros im w h _ _ Hsmall. unfold s_resize. cbn [fst snd].
    destruct (w <? 1) eqn:Ew; [reflexivity |].
    destruct (h <? 1) eqn:Eh; [reflexivity |].
    apply Z.ltb_ge in Ew, Eh. lia.
  - intros im w h _ _ Hw Hh. exists (Resized im (w, h)). unfold s_resize.
    cbn [fst snd].
    destruct (w <? 1) eqn:Ew; [apply Z.ltb_lt in Ew; lia |].
    destruct (h <? 1) eqn:Eh; [apply Z.ltb_lt in Eh; lia |].
    simpl. repeat split; lia.
  - intros im l u r b Hlr Hub; simpl; lia.
Defined.

(** ** The grid of crops *)

(** The ceiling of [a / b], as [math.ceil(a / b)] computes it for
    integers that a double holds exactly (image sizes are far below
    2^53): the quotient is correctly rounded and no neighbouring integer
    is closer to it than its own ceiling. *)
Definition ceil_div (a b : Z) : Z := - ((- a) / b).

(** Number of rows [sliding_window] emits: one for each top value. *)
Definition row_count {Image : Type} `{ImageLib Image} (image : Image)
    (stride : Z) : Z :=
  ceil_div (height image) stride.

(** Number of crops in each row: the left positions below the width, cut
    after the first crop that reaches the right edge. *)
Definition col_count {Image : Type} `{ImageLib Image} (image : Image)
    (window_dim : Z * Z) (stride : Z) : Z :=
  Z.min (ceil_div (width image) stride)
        (1 + ceil_div (width image - fst window_dim) stride).

(** ** display_crops and simple_display_image *)

(** The calls into matplotlib, in the order they are made. *)
Inductive plt_call (Image : Type) : Type :=
| plt_figure (figsize : option (Z * Z))
| plt_imshow (img : Image)
| fig_add_subplot (rows columns index : Z)
| plt_axis_off
| plt_show.

Arguments plt_figure {Image} figsize.
Arguments plt_imshow {Image} img.
Arguments fig_add_subplot {Image} rows columns index.
Arguments plt_axis_off {Image}.
Arguments plt_show {Image}.

(** The exceptions of [display_crops]: a zero stride in the division, and
    [crops[i]] past the end of [crops]. *)
Inductive display_exn : Type :=
| ZeroDivisionError
| IndexError.

(** [l[i]]: a negative index counts from the end; out of range is
    [IndexError]. *)
Definition py_getitem {A : Type} (l : list A) (i : Z) : option A :=
  if 0 <=? i then nth_error l (Z.to_nat i)
  else if 0 <=? Z.of_nat (length l) + i
       then nth_error l (Z.to_nat (Z.of_nat (length l) + i))
       else None.

Section Display.

Context {Image : Type} `{ImageLib Image}.

Definition simple_display_image (img : Image) : list (plt_call Image) :=
  [plt_figure None; plt_imshow img; plt_show].

(** The loop [for i in range(0, columns * rows)] of [display_crops],
    threading the calls made so far; it stops at the first exception. *)
Fixpoint subplot_loop (rows columns : Z) (crops : list Image)
    (indices : list Z) (calls : list (plt_call Image))
  : list (plt_call Image) * option display_exn :=
  match indices with
  | [] => (calls, None)
  | i :: rest =>
      let calls := calls ++ [fig_add_subplot rows columns (i + 1)] in
      match py_getitem crops i with
      | None => (calls, Some IndexError)
      | Some c =>
          subplot_loop rows columns crops rest
            (calls ++ [plt_imshow c; plt_axis_off])
      end
  end.

(** [display_crops]: the calls made, and the exception that ended them if
    there is one. *)
Definition display_crops (img : Image) (crops : list Image)
    (window_dimensions : Z * Z) (stride : Z)
  : list (plt_call Image) * option display_exn :=
  if stride =? 0 then ([], Some ZeroDivisionError)
  else
    let rows := 1 + ceil_div (height img - snd window_dimensions) stride in
    let columns := 1 + ceil_div (width img - fst window_dimensions) stride in
    let figsize := (10 * columns, 10 * rows) in
    let calls := [plt_figure (Some figsize)] in
    match subplot_loop rows columns crops
            (range_items 0 (columns * rows) 1) calls with
    | (calls, Some e) => (calls, Some e)
    | (calls, None) => (calls ++ [plt_show], None)
    end.

(** The crops a list of calls shows, in order. *)
Definition shown (calls : list (plt_call Image)) : list Image :=
  flat_map (fun c => match c with plt_imshow im => [im] | _ => [] end) calls.

End Display.

(** ** test *)

(** The exceptions that can end [test]: those of [get_image_chunks] and
    [get_scaled_images], and those of the display. *)
Inductive test_exn : Type :=
| test_chunks_exn (e : exn)
| test_display_exn (e : display_exn).

Section Test.

Context {Image : Type} `{ImageLib Image}.

(** The loop [for i in range(num_rescales)] of [test]. *)
Fixpoint test_loop (rescaled_images : list Image)
    (crops : list (list Image)) (window_dimensions : Z * Z) (stride : Z)
    (indices : list Z) (calls : list (plt_call Image))
  : list (plt_call Image) * option display_exn :=
  match indices with
  | [] => (calls, None)
  | i :: rest =>
      match py_getitem rescaled_images i with
      | None => (calls, Some IndexError)
      | Some im =>
          match py_getitem crops i with
          | None => (calls, Some IndexError)
          | Some cs =>
              match display_crops im cs window_dimensions stride with
              | (made, Some e) => (calls ++ made, Some e)
              | (made, None) =>
                  test_loop rescaled_images crops window_dimensions stride
                    rest (calls ++ made)
              end
          end
      end
  end.

(** [test], from the image that [Image.open] returned. *)
Definition test (img : Image)
  : list (plt_call Image) * option test_exn :=
  let window_dimensions := (75, 100) in
  let stride := 50 in
  let num_rescales := 3 in
  let rescale_increment := float_literal 5 10 in
  match get_image_chunks img window_dimensions stride num_rescales
          rescale_increment with
  | Raise e => ([], Some (test_chunks_exn e))
  | Ok crops =>
      match get_scaled_images img num_rescales rescale_increment with
      | Raise e => ([], Some (test_chunks_exn e))
      | Ok rescaled_images =>
          let calls := simple_display_image img in
          match test_loop rescaled_images crops window_dimensions stride
                  (py_range1 num_rescales) calls with
          | (calls, Some e) => (calls, Some (test_display_exn e))
          | (calls, None) => (calls, None)
          end
      end
  end.

End Test.

(** * Properties *)

(** ** [range] *)

Lemma range_length_pos (stop step : Z) :
  0 < step -> range_length 0 stop step = if 0 <? stop then (stop - 1) / step + 1 else 0.
Proof.
  intros Hs. unfold range_length.
  destruct (0 <? step) eqn:E; [| apply Z.ltb_ge in E; lia].
  destruct (0 <? stop); [f_equal; f_equal; lia | reflexivity].
Qed.

Lemma range_items_In (stop step x : Z) :
  0 < step ->
  In x (range_items 0 stop step) <->
  exists k, 0 <= k /\ x = k * step /\ x < stop.
Proof.
  intros Hs. unfold range_items. rewrite in_map_iff, range_length_pos by assumption.
  split.
  - intros [i [Hx Hi]]. apply in_seq in Hi. exists (Z.of_nat i).
    destruct (0 <? stop) eqn:E; [| simpl in Hi; lia].
    apply Z.ltb_lt in E.
    assert (Hq : Z.of_nat i <= (stop - 1) / step) by lia.
    assert (Hd : step * ((stop - 1) / step) <= stop - 1)
      by (apply Z.mul_div_le; lia).
    split; [lia |]. split; [lia |]. subst x. nia.
  - intros [k [Hk [Hx Hlt]]]. exists (Z.to_nat k).
    split; [lia |]. apply in_seq.
    destruct (0 <? stop) eqn:E; [| apply Z.ltb_ge in E; nia].
    assert (Hq : k <= (stop - 1) / step)
      by (apply Z.div_le_lower_bound; lia).
    lia.
Qed.

Lemma range_items_backwards (stop step : Z) :
  step < 0 -> 0 <= stop -> range_items 0 stop step = [].
Proof.
  intros Hs Hstop. unfold range_items, range_length.
  destruct (0 <? step) eqn:E; [apply Z.ltb_lt in E; lia |].
  destruct (stop <? 0) eqn:E'; [apply Z.ltb_lt in E'; lia | reflexivity].
Qed.

Lemma py_range_ok (start stop step : Z) :
  step <> 0 -> py_range start stop step = Ok (range_items start stop step).
Proof.
  intros Hs. unfold py_range.
  destruct (step =? 0) eqn:E; [apply Z.eqb_eq in E; contradiction | reflexivity].
Qed.

(** ** [take_through] *)

Lemma take_through_incl {A : Type} (p : A -> bool) (l : list A) (a : A) :
  In a (take_through p l) -> In a l.
Proof.
  induction l as [| b l IH]; simpl; [tauto |].
  destruct (p b); simpl; intuition.
Qed.

(** Only the last item of [take_through p l] can satisfy [p]. *)
Lemma take_through_stops {A : Type} (p : A -> bool) (l pre post : list A)
    (a : A) :
  take_through p l = pre ++ a :: post -> post <> [] -> p a = false.
Proof.
  revert pre. induction l as [| b l IH]; intros pre Heq Hpost; simpl in Heq.
  - destruct pre; discriminate.
  - destruct (p b) eqn:E.
    + destruct pre as [| c pre]; simpl in Heq.
      * injection Heq as _ Hnil. subst post. contradiction.
      * injection Heq as _ Hnil. destruct pre; discriminate.
    + destruct pre as [| c pre]; simpl in Heq.
      * injection Heq as Hb _. subst b. exact E.
      * injection Heq as _ Hrest. eapply IH; eassumption.
Qed.

(** [take_through p l] is all of [l] unless some item satisfies [p]; then
    it ends with the first such item. *)
Lemma take_through_cases {A : Type} (p : A -> bool) (l : list A) :
  (take_through p l = l /\ forall a, In a (removelast l) -> p a = false) \/
  (exists pre a post, l = pre ++ a :: post /\ p a = true /\
     (forall b, In b pre -> p b = false) /\ take_through p l = pre ++ [a]).
Proof.
  induction l as [| b l IH]; simpl.
  - left. split; [reflexivity | intros a []].
  - destruct (p b) eqn:E.
    + right. exists [], b, l. simpl. repeat split; auto. intros c [].
    + destruct IH as [[Heq Hall] | [pre [a [post [Hl [Ha [Hpre Heq]]]]]]].
      * left. split; [now rewrite Heq |].
        intros a Ha. destruct l as [| c l]; [destruct Ha |].
        destruct Ha as [Ha | Ha]; [now subst a | now apply Hall].
      * right. exists (b :: pre), a, post. simpl.
        repeat split; [now rewrite Hl | assumption | | now rewrite Heq].
        intros c [Hc | Hc]; [now subst c | now apply Hpre].
Qed.

(** ** [sliding_window] *)

Section SlidingWindowFacts.

Context {Image : Type} `{ImageLib Image}.

Lemma row_loop_spec (image : Image) (window_dim : Z * Z) (y : Z)
    (xs : list Z) (st : sw_state) :
  row_loop image window_dim y xs st =
  {| pictures :=
       pictures st ++
       take_through (at_right_edge image) (map (pict_at image window_dim y) xs);
     tally :=
       tally st +
       Z.of_nat (length (take_through (at_right_edge image)
                           (map (pict_at image window_dim y) xs))) |}.
Proof.
  revert st. induction xs as [| x xs IH]; intros st.
  - destruct st; simpl. now rewrite app_nil_r, Z.add_0_r.
  - cbn [row_loop map take_through].
    change (crop image (crop_bounds_at image window_dim x y),
            crop_bounds_at image window_dim x y)
      with (pict_at image window_dim y x).
    change (box_right (crop_bounds_at image window_dim x y) =? width image)
      with (at_right_edge image (pict_at image window_dim y x)).
    destruct (at_right_edge image (pict_at image window_dim y x)).
    + reflexivity.
    + rewrite IH. cbn [pictures tally length].
      rewrite <- app_assoc. simpl app. f_equal. lia.
Qed.

Lemma rows_loop_spec (image : Image) (window_dim : Z * Z) (stride : Z)
    (ys : list Z) (st : sw_state) :
  stride <> 0 ->
  rows_loop image window_dim stride ys st =
  Ok {| pictures :=
          pictures st ++ flat_map (spec_row image window_dim stride) ys;
        tally :=
          tally st +
          Z.of_nat (length (flat_map (spec_row image window_dim stride) ys)) |}.
Proof.
  intros Hs. revert st. induction ys as [| y ys IH]; intros st.
  - destruct st; simpl. now rewrite app_nil_r, Z.add_0_r.
  - cbn [rows_loop flat_map]. rewrite py_range_ok by assumption.
    cbn [bind]. rewrite IH, row_loop_spec. cbn [pictures tally].
    fold (spec_row image window_dim stride y).
    rewrite <- app_assoc, length_app. do 2 f_equal. lia.
Qed.

Lemma window_check_false (image : Image) (window_dim : Z * Z) :
  fst window_dim <= width image -> snd window_dim <= height image ->
  (fst window_dim >? width image) || (snd window_dim >? height image) = false.
Proof.
  intros Hw Hh. apply orb_false_iff. split; rewrite Z.gtb_ltb; apply Z.ltb_ge; lia.
Qed.

Lemma window_check_true (image : Image) (window_dim : Z * Z) :
  fst window_dim > width image \/ snd window_dim > height image ->
  (fst window_dim >? width image) || (snd window_dim >? height image) = true.
Proof.
  intros Hbig. apply orb_true_iff. rewrite !Z.gtb_ltb, !Z.ltb_lt. lia.
Qed.

(** With a window that fits and a non-zero stride, the function returns,
    and [pictures] is the traversal of the specification. *)
Lemma sliding_window_state_ok (image : Image) (window_dim : Z * Z)
    (stride : Z) :
  fst window_dim <= width image -> snd window_dim <= height image ->
  stride <> 0 ->
  sliding_window_state image window_dim stride =
  Ok {| pictures := spec_pictures image window_dim stride;
        tally := Z.of_nat (length (spec_pictures image window_dim stride)) |}.
Proof.
  intros Hw Hh Hs. unfold sliding_window_state.
  rewrite window_check_false, py_range_ok by assumption. simpl.
  now rewrite rows_loop_spec by assumption.
Qed.

Lemma sliding_window_ok (image : Image) (window_dim : Z * Z) (stride : Z) :
  fst window_dim <= width image -> snd window_dim <= height image ->
  stride <> 0 ->
  sliding_window image window_dim stride =
  Ok (map fst (spec_pictures image window_dim stride)).
Proof.
  intros Hw Hh Hs. unfold sliding_window.
  now rewrite sliding_window_state_ok by assumption.
Qed.

(** The box at a grid position with non-negative coordinates has the
    window's size and lies inside the image. *)
Lemma crop_bounds_at_inside (image : Image) (window_dim : Z * Z) (x y : Z) :
  fst window_dim <= width image -> snd window_dim <= height image ->
  0 <= x -> 0 <= y ->
  let '(l, u, r, b) := crop_bounds_at image window_dim x y in
  0 <= l /\ r = l + fst window_dim /\ r <= width image /\
  0 <= u /\ b = u + snd window_dim /\ b <= height image.
Proof.
  intros Hw Hh Hx Hy. unfold crop_bounds_at.
  destruct (height image <? y + snd window_dim) eqn:Ev;
    destruct (width image <? x + fst window_dim) eqn:Eh;
    rewrite ?Z.ltb_lt, ?Z.ltb_ge in *; lia.
Qed.

(** A row whose crop overflows the bottom edge does not depend on its
    top value. *)
Lemma spec_row_clamped (image : Image) (window_dim : Z * Z) (stride : Z)
    (y1 y2 : Z) :
  height image < y1 + snd window_dim -> height image < y2 + snd window_dim ->
  spec_row image window_dim stride y1 = spec_row image window_dim stride y2.
Proof.
  intros H1 H2. unfold spec_row. f_equal. apply map_ext. intros x.
  unfold pict_at, crop_bounds_at.
  apply Z.ltb_lt in H1, H2. now rewrite H1, H2.
Qed.

Lemma In_spec_pictures (image : Image) (window_dim : Z * Z) (stride : Z)
    (p : Image * Box) :
  0 < stride -> In p (spec_pictures image window_dim stride) ->
  exists x y, 0 <= x /\ 0 <= y /\ p = pict_at image window_dim y x.
Proof.
  intros Hs Hin. unfold spec_pictures in Hin.
  apply in_flat_map in Hin. destruct Hin as [y [Hy Hin]].
  apply take_through_incl, in_map_iff in Hin. destruct Hin as [x [Hp Hx]].
  apply range_items_In in Hy, Hx; try assumption.
  destruct Hy as [ky [? [? ?]]], Hx as [kx [? [? ?]]].
  exists x, y. repeat split; [nia | nia | now symmetry].
Qed.

End SlidingWindowFacts.

Lemma take_through_prefix {A : Type} (p : A -> bool) (l : list A) :
  exists rest, l = take_through p l ++ rest.
Proof.
  induction l as [| a l [rest IH]]; simpl.
  - now exists [].
  - destruct (p a); [now exists l |].
    exists rest. simpl. now rewrite <- IH.
Qed.

Lemma range_items_nth (start stop step : Z) (k : nat) (x : Z) :
  nth_error (range_items start stop step) k = Some x ->
  x = start + Z.of_nat k * step.
Proof.
  unfold range_items. intros Hk.
  rewrite nth_error_map in Hk.
  destruct (nth_error (seq 0 (Z.to_nat (range_length start stop step))) k)
    as [i |] eqn:Hi; [| discriminate].
  injection Hk as Hx.
  pose proof (nth_error_nth _ _ 0%nat Hi) as Hnth.
  assert (Hlt : (k < Z.to_nat (range_length start stop step))%nat).
  { rewrite <- (length_seq (Z.to_nat (range_length start stop step)) 0).
    apply nth_error_Some. congruence. }
  rewrite seq_nth in Hnth by assumption.
  simpl in Hnth. subst x i. reflexivity.
Qed.

Section SlidingWindowClaims.

Context {Image : Type} `{ImageLib Image}.

Lemma spec_row_nth (image : Image) (window_dim : Z * Z) (stride y : Z)
    (k : nat) (p : Image * Box) :
  nth_error (spec_row image window_dim stride y) k = Some p ->
  p = pict_at image window_dim y (Z.of_nat k * stride).
Proof.
  unfold spec_row. intros Hk.
  destruct (take_through_prefix (at_right_edge image)
              (map (pict_at image window_dim y)
                   (range_items 0 (width image) stride))) as [rest Hrest].
  assert (Hfull : nth_error (map (pict_at image window_dim y)
                    (range_items 0 (width image) stride)) k = Some p).
  { rewrite Hrest, nth_error_app1; [assumption |].
    apply nth_error_Some. congruence. }
  rewrite nth_error_map in Hfull.
  destruct (nth_error (range_items 0 (width image) stride) k)
    as [x |] eqn:Hx; [| discriminate].
  injection Hfull as Hp. apply range_items_nth in Hx. subst x. now symmetry.
Qed.

(** C1: with a window that fits the image and a stride of at least 1,
    [sliding_window] returns, every crop is cut at its recorded box, has
    exactly the window's size, and its box satisfies
    [0 <= left], [right = left + window width <= image width],
    [0 <= top], [bottom = top + window height <= image height]. *)
Theorem sliding_window_crops_inside (image : Image) (window_dim : Z * Z)
    (stride : Z) :
  0 <= fst window_dim <= width image ->
  0 <= snd window_dim <= height image ->
  1 <= stride ->
  exists st,
    sliding_window_state image window_dim stride = Ok st /\
    sliding_window image window_dim stride = Ok (map fst (pictures st)) /\
    Forall (fun p : Image * Box =>
              let '(l, u, r, b) := snd p in
              fst p = crop image (l, u, r, b) /\
              size (fst p) = window_dim /\
              0 <= l /\ r = l + fst window_dim /\ r <= width image /\
              0 <= u /\ b = u + snd window_dim /\ b <= height image)
           (pictures st).
Proof.
  intros [Hw0 Hw] [Hh0 Hh] Hs.
  eexists. split; [apply sliding_window_state_ok; lia |].
  split; [apply sliding_window_ok; lia |].
  cbn [pictures]. apply Forall_forall. intros p Hin.
  apply In_spec_pictures in Hin; [| lia].
  destruct Hin as [x [y [Hx [Hy Hp]]]]. subst p. unfold pict_at. cbn [fst snd].
  pose proof (crop_bounds_at_inside image window_dim x y Hw Hh Hx Hy) as Hin.
  destruct (crop_bounds_at image window_dim x y) as [[[l u] r] b].
  destruct Hin as (Hl & Hr & Hrw & Hu & Hb & Hbh).
  split; [reflexivity |]. split; [| tauto].
  unfold size. destruct (crop_size image l u r b) as [Ew Eh]; [lia | lia |].
  rewrite Ew, Eh. destruct window_dim as [ww wh]. simpl in *. f_equal; lia.
Qed.

(** C4: [sliding_window] raises its size-mismatch [ValueError] exactly
    when the window is wider or higher than the image; the error carries
    the window dimensions and the image size, and is raised before any
    crop is taken; with a window that fits and a stride of at least 1 no
    error is raised and the crops are returned. *)
Theorem sliding_window_error_iff (image : Image) (window_dim : Z * Z)
    (stride : Z) :
  ((exists w s, sliding_window image window_dim stride =
                Raise (ValueError_window w s)) <->
   (fst window_dim > width image \/ snd window_dim > height image)) /\
  ((fst window_dim > width image \/ snd window_dim > height image) ->
   sliding_window_state image window_dim stride =
     Raise (ValueError_window window_dim (size image)) /\
   sliding_window image window_dim stride =
     Raise (ValueError_window window_dim (size image))) /\
  (fst window_dim <= width image -> snd window_dim <= height image ->
   1 <= stride ->
   exists crops, sliding_window image window_dim stride = Ok crops).
Proof.
  assert (Hraise :
    (fst window_dim > width image \/ snd window_dim > height image) ->
    sliding_window_state image window_dim stride =
      Raise (ValueError_window window_dim (size image)) /\
    sliding_window image window_dim stride =
      Raise (ValueError_window window_dim (size image))).
  { intros Hbig. unfold sliding_window, sliding_window_state.
    now rewrite window_check_true by assumption. }
  split; [| split].
  - split.
    + intros [w [s Herr]].
      destruct (Z_le_gt_dec (fst window_dim) (width image)) as [Hw | Hw];
        [| now left].
      destruct (Z_le_gt_dec (snd window_dim) (height image)) as [Hh | Hh];
        [| now right].
      destruct (Z.eq_dec stride 0) as [Hs | Hs].
      * subst stride. unfold sliding_window, sliding_window_state in Herr.
        rewrite window_check_false in Herr by assumption. discriminate.
      * rewrite sliding_window_ok in Herr by assumption. discriminate.
    + intros Hbig. exists window_dim, (size image). now apply Hraise.
  - exact Hraise.
  - intros Hw Hh Hs. eexists. apply sliding_window_ok; lia.
Qed.

(** C6: on a 150x150 image with a 100x100 window and stride 100,
    [sliding_window] returns exactly four crops, in this order, cut at the
    boxes (0,0,100,100), (50,0,150,100), (0,50,100,150),
    (50,50,150,150). *)
Theorem sliding_window_150 (image : Image) :
  width image = 150 -> height image = 150 ->
  sliding_window_state image (100, 100) 100 =
    Ok {| pictures := [ (crop image (0, 0, 100, 100), (0, 0, 100, 100));
                        (crop image (50, 0, 150, 100), (50, 0, 150, 100));
                        (crop image (0, 50, 100, 150), (0, 50, 100, 150));
                        (crop image (50, 50, 150, 150), (50, 50, 150, 150)) ];
          tally := 4 |} /\
  sliding_window image (100, 100) 100 =
    Ok [ crop image (0, 0, 100, 100); crop image (50, 0, 150, 100);
         crop image (0, 50, 100, 150); crop image (50, 50, 150, 150) ].
Proof.
  intros Hw Hh.
  rewrite sliding_window_ok, sliding_window_state_ok
    by (cbn [fst snd]; lia).
  unfold spec_pictures, spec_row. rewrite Hw, Hh.
  change (range_items 0 150 100) with [0; 100].
  cbn [flat_map map]. unfold pict_at, crop_bounds_at, at_right_edge.
  cbn [fst snd]. rewrite Hw, Hh. simpl. split; reflexivity.
Qed.

(** C10: with a window that fits and a negative stride,
    [sliding_window] raises nothing and returns the empty list of crops:
    [range] from 0 with a negative step has no item. *)
Theorem sliding_window_negative_stride (image : Image)
    (window_dim : Z * Z) (stride : Z) :
  fst window_dim <= width image -> snd window_dim <= height image ->
  stride < 0 ->
  sliding_window_state image window_dim stride =
    Ok {| pictures := []; tally := 0 |} /\
  sliding_window image window_dim stride = Ok [].
Proof.
  intros Hw Hh Hs. unfold sliding_window, sliding_window_state.
  rewrite window_check_false, py_range_ok by (assumption || lia).
  rewrite range_items_backwards by (assumption || apply height_nonneg).
  split; reflexivity.
Qed.

End SlidingWindowClaims.

(** ** [get_scaled_images] *)

Lemma py_range1_items (stop : Z) :
  py_range1 stop = map Z.of_nat (seq 0 (Z.to_nat stop)).
Proof.
  unfold py_range1, range_items. rewrite range_length_pos by lia.
  replace (Z.to_nat (if 0 <? stop then (stop - 1) / 1 + 1 else 0))
    with (Z.to_nat stop).
  - apply map_ext. intros i. lia.
  - destruct (0 <? stop) eqn:E.
    + rewrite Z.div_1_r. f_equal. lia.
    + apply Z.ltb_ge in E. lia.
Qed.

(** ** The error monad *)

Lemma bind_ok_inv {A B : Type} (r : result A) (k : A -> result B) (b : B) :
  (x <- r ;; k x) = Ok b -> exists a, r = Ok a /\ k a = Ok b.
Proof.
  destruct r as [a | e]; simpl; [| discriminate]. intros Hk. now exists a.
Qed.

Lemma mapM_ok_iff {A B : Type} (f : A -> result B) (l : list A)
    (bs : list B) :
  mapM f l = Ok bs <-> Forall2 (fun a b => f a = Ok b) l bs.
Proof.
  revert bs. induction l as [| a l IH]; intros bs; simpl.
  - split.
    + intros [= <-]. constructor.
    + intros Hall. inversion Hall. reflexivity.
  - split.
    + intros Hok. apply bind_ok_inv in Hok. destruct Hok as [b [Hb Hok]].
      apply bind_ok_inv in Hok. destruct Hok as [bs' [Hbs [= <-]]].
      constructor; [assumption | now apply IH].
    + intros Hall. inversion Hall as [| ? b ? bs' Hb Hrest]; subst.
      rewrite Hb. simpl. apply IH in Hrest. rewrite Hrest. reflexivity.
Qed.

Lemma mapM_ok_all {A B : Type} (f : A -> result B) (l : list A) :
  (forall a, In a l -> exists b, f a = Ok b) -> exists bs, mapM f l = Ok bs.
Proof.
  induction l as [| a l IH]; intros Hall; simpl.
  - now exists [].
  - destruct (Hall a) as [b Hb]; [now left |].
    destruct IH as [bs Hbs]; [intros a' Ha'; apply Hall; now right |].
    exists (b :: bs). now rewrite Hb, Hbs.
Qed.

Lemma mapM_ext {A B : Type} (f g : A -> result B) (l : list A) :
  (forall a, f a = g a) -> mapM f l = mapM g l.
Proof.
  intros Hfg. induction l as [| a l IH]; simpl; [reflexivity |].
  now rewrite Hfg, IH.
Qed.

Lemma mapM_map {A B C : Type} (f : B -> result C) (g : A -> B) (l : list A) :
  mapM f (map g l) = mapM (fun a => f (g a)) l.
Proof.
  induction l as [| a l IH]; simpl; [reflexivity |]. now rewrite IH.
Qed.

Lemma Forall2_nth_left {A B : Type} (R : A -> B -> Prop) (l : list A)
    (bs : list B) (k : nat) (a : A) :
  Forall2 R l bs -> nth_error l k = Some a ->
  exists b, nth_error bs k = Some b /\ R a b.
Proof.
  intros Hall. revert k. induction Hall as [| x y l bs Hxy _ IH]; intros k Hk.
  - destruct k; discriminate.
  - destruct k as [| k]; simpl in *.
    + injection Hk as <-. now exists y.
    + now apply IH.
Qed.

Lemma Forall2_length_eq {A B : Type} (R : A -> B -> Prop) (l : list A)
    (bs : list B) :
  Forall2 R l bs -> length l = length bs.
Proof.
  induction 1; simpl; congruence.
Qed.

Section ScaledFacts.

Context {Image : Type} `{ImageLib Image} {F : Type} `{Arith F}.

Lemma scale_loop_mapM (img : Image) (count : Z) (increment : F)
    (indices : list Z) (imgs : list Image) :
  scale_loop img count increment indices imgs =
  (resized <- mapM (level_at img count increment) indices ;;
   Ok (imgs ++ resized)).
Proof.
  revert imgs. induction indices as [| i rest IH]; intros imgs; simpl.
  - now rewrite app_nil_r.
  - unfold level_at at 1.
    destruct (new_dims img count increment i) as [dims | e]; simpl;
      [| reflexivity].
    destruct (resize img dims) as [resized | e]; simpl; [| reflexivity].
    rewrite IH.
    destruct (mapM (level_at img count increment) rest) as [ls | e]; simpl;
      [| reflexivity].
    now rewrite <- app_assoc.
Qed.

(** The resized levels, in the order of the loop, then the original. *)
Lemma get_scaled_images_ok_iff (img : Image) (count : Z) (increment : F)
    (levels : list Image) :
  get_scaled_images img count increment = Ok levels <->
  exists resized,
    Forall2 (fun i level => level_at img count increment (Z.of_nat i) = Ok level)
            (seq 0 (Z.to_nat (count - 1))) resized /\
    levels = resized ++ [img].
Proof.
  unfold get_scaled_images. rewrite scale_loop_mapM, py_range1_items, mapM_map.
  split.
  - intros Hok. apply bind_ok_inv in Hok. destruct Hok as [imgs [Hloop Hok]].
    apply bind_ok_inv in Hloop. destruct Hloop as [resized [Hm [= <-]]].
    injection Hok as <-. exists resized. split; [| reflexivity].
    now apply mapM_ok_iff in Hm.
  - intros [resized [Hall ->]]. apply mapM_ok_iff in Hall.
    rewrite Hall. reflexivity.
Qed.

(** A level of an image with no empty side is returned exactly when its
    sides are computed and are at least 1. *)
Lemma level_at_ok_iff (img : Image) (count : Z) (increment : F) (i : Z)
    (level : Image) :
  1 <= width img -> 1 <= height img ->
  level_at img count increment i = Ok level <->
  exists w h, new_dims img count increment i = Ok (w, h) /\
              1 <= w /\ 1 <= h /\ resize img (w, h) = Ok level.
Proof.
  intros Hwi Hhi. unfold level_at. split.
  - intros Hok. apply bind_ok_inv in Hok.
    destruct Hok as [[w h] [Hdims Hresize]]. exists w, h.
    split; [assumption |].
    destruct (Z_lt_le_dec w 1) as [Hw | Hw];
      [rewrite resize_raises in Hresize by (assumption || lia);
       discriminate |].
    destruct (Z_lt_le_dec h 1) as [Hh | Hh];
      [rewrite resize_raises in Hresize by (assumption || lia);
       discriminate |].
    auto.
  - intros [w [h [Hdims [_ [_ Hresize]]]]]. now rewrite Hdims.
Qed.

(** A level that is returned is a result of [resize]. *)
Lemma level_at_ok_resize (img : Image) (count : Z) (increment : F) (i : Z)
    (level : Image) :
  level_at img count increment i = Ok level ->
  exists dims, new_dims img count increment i = Ok dims /\
               resize img dims = Ok level.
Proof.
  unfold level_at. intros Hok. apply bind_ok_inv in Hok.
  destruct Hok as [dims [Hdims Hresize]]. now exists dims.
Qed.

(** What [new_dims] computed when it returns. *)
Lemma new_dims_ok_inv (img : Image) (count : Z) (increment : F) (i w h : Z) :
  new_dims img count increment i = Ok (w, h) ->
  exists resize_amount scaled_width scaled_height,
    pow increment (count - 1 - i) = Ok resize_amount /\
    times (width img) resize_amount = Ok scaled_width /\
    int_ scaled_width = Ok w /\
    times (height img) resize_amount = Ok scaled_height /\
    int_ scaled_height = Ok h.
Proof.
  unfold new_dims. intros Hok.
  apply bind_ok_inv in Hok. destruct Hok as [ra [Hra Hok]].
  apply bind_ok_inv in Hok. destruct Hok as [sw [Hsw Hok]].
  apply bind_ok_inv in Hok. destruct Hok as [nw [Hnw Hok]].
  apply bind_ok_inv in Hok. destruct Hok as [sh [Hsh Hok]].
  apply bind_ok_inv in Hok. destruct Hok as [nh [Hnh [= <- <-]]].
  exists ra, sw, sh. auto.
Qed.

Lemma get_scaled_images_length (img : Image) (count : Z) (increment : F)
    (levels : list Image) :
  get_scaled_images img count increment = Ok levels ->
  length levels = S (Z.to_nat (count - 1)).
Proof.
  intros Hok. apply get_scaled_images_ok_iff in Hok.
  destruct Hok as [resized [Hall ->]].
  apply Forall2_length_eq in Hall. rewrite length_seq in Hall.
  rewrite length_app. simpl. lia.
Qed.

Lemma get_scaled_images_nth (img : Image) (count : Z) (increment : F)
    (levels : list Image) (i : nat) :
  get_scaled_images img count increment = Ok levels ->
  (i < Z.to_nat (count - 1))%nat ->
  exists level, nth_error levels i = Some level /\
                level_at img count increment (Z.of_nat i) = Ok level.
Proof.
  intros Hok Hi. apply get_scaled_images_ok_iff in Hok.
  destruct Hok as [resized [Hall ->]].
  destruct (Forall2_nth_left _ _ _ i i Hall) as [level [Hnth Hlevel]].
  - rewrite nth_error_seq.
    destruct (Nat.ltb_spec i (Z.to_nat (count - 1))); [reflexivity | lia].
  - exists level. split; [| assumption].
    rewrite nth_error_app1; [assumption |].
    apply nth_error_Some. congruence.
Qed.

(** C2: for a count of at least 1 and an image with no empty side,
    [get_scaled_images] returns exactly when every resized level has its
    sides computed and at least 1 (else [resize], or the arithmetic,
    raises); what it returns, for any image, has exactly [count] images,
    the last one is the image it was given, unchanged, and every image
    before it is a result of [resize], so the original is in the list
    once, as its last element; for a count of 1 it always returns the
    one-element list of the original. *)
Theorem get_scaled_images_original_last (img : Image) (count : Z)
    (increment : F) :
  1 <= count ->
  (1 <= width img -> 1 <= height img ->
   ((exists levels, get_scaled_images img count increment = Ok levels) <->
    (forall i, 0 <= i < count - 1 ->
       exists w h, new_dims img count increment i = Ok (w, h) /\
                   1 <= w /\ 1 <= h))) /\
  (forall levels, get_scaled_images img count increment = Ok levels ->
     length levels = Z.to_nat count /\
     nth_error levels (Z.to_nat count - 1) = Some img /\
     exists resized,
       levels = resized ++ [img] /\
       length resized = (Z.to_nat count - 1)%nat /\
       Forall (fun level => exists dims, resize img dims = Ok level) resized) /\
  (count = 1 -> get_scaled_images img count increment = Ok [img]).
Proof.
  intros Hc. split; [| split].
  - intros Hwi Hhi. split.
    + intros [levels Hok] i Hi.
      destruct (get_scaled_images_nth img count increment levels (Z.to_nat i)
                  Hok ltac:(lia)) as [level [_ Hlevel]].
      rewrite Z2Nat.id in Hlevel by lia.
      apply level_at_ok_iff in Hlevel; [| assumption | assumption].
      destruct Hlevel as [w [h [Hdims [Hw [Hh _]]]]]. now exists w, h.
    + intros Hdims.
      destruct (mapM_ok_all (level_at img count increment)
                  (py_range1 (count - 1))) as [resized Hm].
      * intros i Hi. rewrite py_range1_items in Hi.
        apply in_map_iff in Hi. destruct Hi as [k [<- Hk]].
        apply in_seq in Hk.
        destruct (Hdims (Z.of_nat k) ltac:(lia)) as [w [h [Hd [Hw Hh]]]].
        destruct (resize_size img w h Hwi Hhi Hw Hh) as [level [Hresize _]].
        exists level. apply level_at_ok_iff; [assumption | assumption |].
        now exists w, h.
      * exists (resized ++ [img]). unfold get_scaled_images.
        now rewrite scale_loop_mapM, Hm.
  - intros levels Hok.
    pose proof (get_scaled_images_length img count increment levels Hok)
      as Hlen.
    apply get_scaled_images_ok_iff in Hok.
    destruct Hok as [resized [Hall ->]].
    pose proof (Forall2_length_eq _ _ _ Hall) as Hres.
    rewrite length_seq in Hres.
    split; [lia |]. split.
    + rewrite nth_error_app2 by lia.
      replace (Z.to_nat count - 1 - length resized)%nat with 0%nat by lia.
      reflexivity.
    + exists resized. split; [reflexivity |]. split; [lia |].
      clear Hlen Hres. induction Hall as [| i level l ls Hlevel _ IH];
        constructor; [| exact IH].
      apply level_at_ok_resize in Hlevel.
      destruct Hlevel as [dims [_ Hresize]]. now exists dims.
  - intros ->. reflexivity.
Qed.

(** C9: for a count of 0 or less, [get_scaled_images] raises nothing and
    returns the one-element list of the original: the loop body never
    runs and the original is still appended, so the length is 1, not
    [count]. *)
Theorem get_scaled_images_nonpositive_count (img : Image) (count : Z)
    (increment : F) :
  count <= 0 ->
  get_scaled_images img count increment = Ok [img] /\
  (forall levels, get_scaled_images img count increment = Ok levels ->
     length levels = 1%nat /\ Z.of_nat (length levels) <> count).
Proof.
  intros Hc.
  assert (Hok : get_scaled_images img count increment = Ok [img]).
  { apply get_scaled_images_ok_iff. exists [].
    replace (Z.to_nat (count - 1)) with 0%nat by lia.
    split; [constructor | reflexivity]. }
  split; [exact Hok |]. intros levels Hlevels.
  rewrite Hok in Hlevels. injection Hlevels as <-. simpl. lia.
Qed.

(** ** [get_image_chunks] *)

Lemma chunks_loop_spec (window_dim : Z * Z) (stride : Z)
    (scaled_images : list Image) (crops : list (list Image)) :
  stride <> 0 ->
  Forall (fun level => fst window_dim <= width level /\
                       snd window_dim <= height level) scaled_images ->
  chunks_loop window_dim stride scaled_images crops =
  Ok (crops ++ map (fun level => map fst (spec_pictures level window_dim stride))
                   scaled_images).
Proof.
  intros Hs Hfit. revert crops.
  induction Hfit as [| im rest [Hw Hh] _ IH]; intros crops; simpl.
  - now rewrite app_nil_r.
  - rewrite sliding_window_ok by assumption. simpl.
    rewrite IH, <- app_assoc. reflexivity.
Qed.

(** C5: for a stride and a number of rescales of at least 1, when the
    pyramid is returned and every level of it is at least as large as
    the window, [get_image_chunks] returns exactly [num_rescales] crop
    lists; the [i]-th is what [sliding_window] returns on the [i]-th
    image of [get_scaled_images], in the same order; the last is what
    [sliding_window] returns on the original image. *)
Theorem get_image_chunks_levels (img : Image) (window_dim : Z * Z)
    (stride : Z) (num_rescales : Z) (rescale_increment : F)
    (levels : list Image) :
  1 <= stride -> 1 <= num_rescales ->
  get_scaled_images img num_rescales rescale_increment = Ok levels ->
  Forall (fun level => fst window_dim <= width level /\
                       snd window_dim <= height level)
         levels ->
  exists chunks,
    get_image_chunks img window_dim stride num_rescales rescale_increment =
      Ok chunks /\
    length chunks = Z.to_nat num_rescales /\
    Forall2 (fun level c => sliding_window level window_dim stride = Ok c)
            levels chunks /\
    sliding_window img window_dim stride = Ok (last chunks []).
Proof.
  intros Hs Hn Hlevels Hfit. unfold get_image_chunks. rewrite Hlevels.
  cbn [bind]. rewrite chunks_loop_spec by (assumption || lia). simpl app.
  eexists. split; [reflexivity |].
  pose proof (get_scaled_images_length img num_rescales rescale_increment
                levels Hlevels) as Hlen.
  apply get_scaled_images_ok_iff in Hlevels.
  destruct Hlevels as [resized [_ ->]].
  split; [| split].
  - rewrite length_map. lia.
  - clear Hlen. induction Hfit as [| im rest [Hw Hh] _ IH]; simpl; constructor.
    + apply sliding_window_ok; lia.
    + exact IH.
  - rewrite map_app. cbn [map].
    rewrite last_last. apply Forall_app in Hfit. destruct Hfit as [_ Himg].
    inversion Himg as [| ? ? [Hw Hh] _]; subst.
    apply sliding_window_ok; lia.
Qed.

End ScaledFacts.

(** * Binary64 arithmetic *)

(** ** The shifts of [binary_round_aux] *)

Lemma iter_pos_nat {A : Type} (f : A -> A) (p : positive) (x : A) :
  iter_pos f p x = Nat.iter (Pos.to_nat p) f x.
Proof.
  revert x. induction p as [p IH | p IH |]; intros x; cbn [iter_pos].
  - rewrite !IH, Pos2Nat.inj_xI.
    change (S (2 * Pos.to_nat p)) with (S (Pos.to_nat p + (Pos.to_nat p + 0))).
    rewrite Nat.add_0_r, Nat.iter_succ_r, Nat.iter_add. reflexivity.
  - rewrite !IH, Pos2Nat.inj_xO.
    change (2 * Pos.to_nat p)%nat with (Pos.to_nat p + (Pos.to_nat p + 0))%nat.
    rewrite Nat.add_0_r, Nat.iter_add. reflexivity.
  - reflexivity.
Qed.

Lemma shr_1_nonneg (q : Z) (r s : bool) :
  0 <= q ->
  shr_1 (Build_shr_record q r s) =
  Build_shr_record (Z.div2 q) (Z.odd q) (r || s).
Proof.
  intros Hq. destruct q as [| [p | p |] |]; try reflexivity. lia.
Qed.

Lemma shr_iter (m : Z) (k : nat) :
  0 <= m ->
  exists q r s t,
    Nat.iter (S k) shr_1 (Build_shr_record m false false) =
      Build_shr_record q r s /\
    0 <= q /\ 0 <= t < 2 ^ Z.of_nat k /\
    m = q * 2 ^ (Z.of_nat k + 1) + (if r then 2 ^ Z.of_nat k else 0) + t /\
    (s = true <-> 0 < t).
Proof.
  intros Hm. induction k as [| k IH].
  - exists (Z.div2 m), (Z.odd m), false, 0.
    change (Nat.iter 1 shr_1 (Build_shr_record m false false))
      with (shr_1 (Build_shr_record m false false)).
    rewrite shr_1_nonneg by assumption. split; [reflexivity |].
    split; [apply Z.div2_nonneg; assumption |].
    split; [simpl; lia |]. split.
    + pose proof (Z.div2_odd m) as E. change (2 ^ (Z.of_nat 0 + 1)) with 2.
      change (2 ^ Z.of_nat 0) with 1. revert E.
      destruct (Z.odd m); cbn [Z.b2z]; lia.
    + split; [discriminate | lia].
  - destruct IH as (q & r & s & t & Hit & Hq & Ht & Hmq & Hs).
    exists (Z.div2 q), (Z.odd q), (r || s),
           ((if r then 2 ^ Z.of_nat k else 0) + t).
    change (Nat.iter (S (S k)) shr_1 (Build_shr_record m false false))
      with (shr_1 (Nat.iter (S k) shr_1 (Build_shr_record m false false))).
    rewrite Hit, shr_1_nonneg by assumption.
    split; [reflexivity |].
    split; [apply Z.div2_nonneg; assumption |].
    assert (Hp : 0 < 2 ^ Z.of_nat k) by (apply Z.pow_pos_nonneg; lia).
    assert (E1 : 2 ^ Z.of_nat (S k) = 2 * 2 ^ Z.of_nat k)
      by (rewrite Nat2Z.inj_succ, Z.pow_succ_r by lia; reflexivity).
    assert (E2 : 2 ^ (Z.of_nat k + 1) = 2 * 2 ^ Z.of_nat k)
      by (rewrite Z.pow_add_r by lia; lia).
    assert (E3 : 2 ^ (Z.of_nat (S k) + 1) = 4 * 2 ^ Z.of_nat k)
      by (rewrite Z.pow_add_r, E1 by lia; lia).
    rewrite E1, E3. rewrite E2 in Hmq.
    pose proof (Z.div2_odd q) as Eq.
    split; [destruct r; lia |]. split.
    + revert Eq. destruct (Z.odd q); cbn [Z.b2z]; destruct r; nia.
    + destruct r; simpl.
      * split; [lia | reflexivity].
      * rewrite Hs. lia.
Qed.

Lemma rnd_0 (m : Z) : rnd m 0 = m.
Proof.
  unfold rnd. change (2 ^ 0) with 1. rewrite Z.mod_1_r, Z.div_1_r. reflexivity.
Qed.

Lemma shr_round (m : Z) (p : positive) :
  0 <= m ->
  let mrs := iter_pos shr_1 p (Build_shr_record m false false) in
  round_nearest_even (shr_m mrs) (loc_of_shr_record mrs) = rnd m (Zpos p).
Proof.
  intros Hm mrs. subst mrs. rewrite iter_pos_nat.
  destruct (Pos2Nat.is_succ p) as [k Hk]. rewrite Hk.
  destruct (shr_iter m k Hm) as (q & r & s & t & Hit & Hq & Ht & Hmq & Hs).
  rewrite Hit. cbn [shr_m].
  assert (Ek : Zpos p = Z.of_nat k + 1) by lia.
  rewrite Ek. unfold rnd.
  assert (Hp : 0 < 2 ^ Z.of_nat k) by (apply Z.pow_pos_nonneg; lia).
  assert (E2 : 2 ^ (Z.of_nat k + 1) = 2 * 2 ^ Z.of_nat k)
    by (rewrite Z.pow_add_r by lia; lia).
  set (R := (if r then 2 ^ Z.of_nat k else 0) + t).
  assert (HR : 0 <= R < 2 ^ (Z.of_nat k + 1)) by (subst R; destruct r; lia).
  assert (Hdiv : m / 2 ^ (Z.of_nat k + 1) = q).
  { symmetry. apply (Z.div_unique_pos m _ q R); [exact HR | subst R; lia]. }
  assert (Hmod : m mod 2 ^ (Z.of_nat k + 1) = R).
  { symmetry. apply (Z.mod_unique_pos m _ q R); [exact HR | subst R; lia]. }
  rewrite Hdiv, Hmod. subst R.
  assert (Ht0 : s = false -> t = 0).
  { intros ->. destruct (Z.eq_dec t 0) as [| n]; [assumption |].
    assert (Hpos : 0 < t) by lia. apply Hs in Hpos. discriminate. }
  assert (Ht1 : s = true -> 0 < t) by (intros ->; apply Hs; reflexivity).
  destruct r, s; cbn [round_nearest_even loc_of_shr_record];
    try specialize (Ht0 eq_refl); try specialize (Ht1 eq_refl);
    match goal with
    | |- context [?a ?= ?b] => destruct (Z.compare_spec a b)
    end; try lia; try reflexivity.
Qed.

Lemma shr_m_iter (m : Z) (p : positive) :
  0 <= m ->
  shr_m (iter_pos shr_1 p (Build_shr_record m false false)) = m / 2 ^ Zpos p.
Proof.
  intros Hm. rewrite iter_pos_nat.
  destruct (Pos2Nat.is_succ p) as [k Hk]. rewrite Hk.
  destruct (shr_iter m k Hm) as (q & r & s & t & Hit & Hq & Ht & Hmq & Hs).
  rewrite Hit. cbn [shr_m].
  assert (Ek : Zpos p = Z.of_nat k + 1) by lia.
  rewrite Ek.
  assert (Hp : 0 < 2 ^ Z.of_nat k) by (apply Z.pow_pos_nonneg; lia).
  assert (E2 : 2 ^ (Z.of_nat k + 1) = 2 * 2 ^ Z.of_nat k)
    by (rewrite Z.pow_add_r by lia; lia).
  apply (Z.div_unique_pos m _ q ((if r then 2 ^ Z.of_nat k else 0) + t));
    [destruct r; lia | lia].
Qed.

Lemma shr_exact (m e n : Z) :
  0 <= m ->
  exists mrs,
    shr (Build_shr_record m false false) e n = (mrs, e + Z.max 0 n) /\
    shr_m mrs = m / 2 ^ Z.max 0 n /\
    round_nearest_even (shr_m mrs) (loc_of_shr_record mrs) =
      rnd m (Z.max 0 n).
Proof.
  intros Hm. destruct n as [| p | p].
  - exists (Build_shr_record m false false). cbn [shr Z.max Z.compare].
    rewrite Z.add_0_r, rnd_0. change (2 ^ 0) with 1. rewrite Z.div_1_r.
    repeat split.
  - exists (iter_pos shr_1 p (Build_shr_record m false false)).
    replace (Z.max 0 (Zpos p)) with (Zpos p) by lia.
    split; [reflexivity |]. split.
    + apply shr_m_iter; assumption.
    + apply shr_round; assumption.
  - exists (Build_shr_record m false false).
    replace (Z.max 0 (Zneg p)) with 0 by lia. cbn [shr].
    rewrite Z.add_0_r, rnd_0. change (2 ^ 0) with 1. rewrite Z.div_1_r.
    repeat split.
Qed.

Lemma float_fexp_eq (x : Z) : float_fexp x = Z.max (x - 53) (-1074).
Proof. reflexivity. Qed.

Lemma digits2_bounds (m : positive) :
  2 ^ (Zpos (digits2_pos m) - 1) <= Zpos m < 2 ^ Zpos (digits2_pos m).
Proof.
  induction m as [m IH | m IH |]; cbn [digits2_pos].
  - rewrite Pos2Z.inj_succ.
    replace (Z.succ (Zpos (digits2_pos m)) - 1)
      with (Z.succ (Zpos (digits2_pos m) - 1)) by lia.
    rewrite !Z.pow_succ_r by lia. lia.
  - rewrite Pos2Z.inj_succ.
    replace (Z.succ (Zpos (digits2_pos m)) - 1)
      with (Z.succ (Zpos (digits2_pos m) - 1)) by lia.
    rewrite !Z.pow_succ_r by lia. lia.
  - change (2 ^ (1 - 1)) with 1. change (2 ^ 1) with 2. lia.
Qed.

Lemma Zdigits2_bounds (m : Z) :
  0 < m -> 2 ^ (Zdigits2 m - 1) <= m < 2 ^ Zdigits2 m.
Proof.
  destruct m as [| p | p]; try lia. intros _. apply digits2_bounds.
Qed.

Lemma Zdigits2_pos (m : Z) : 0 < m -> 0 < Zdigits2 m.
Proof. destruct m; simpl; lia. Qed.

Lemma Zdigits2_le (m b : Z) :
  0 < m -> 0 <= b -> m < 2 ^ b -> Zdigits2 m <= b.
Proof.
  intros Hm Hb Hlt. pose proof (Zdigits2_bounds m Hm) as [Hlo _].
  pose proof (Zdigits2_pos m Hm).
  destruct (Z.le_gt_cases (Zdigits2 m) b) as [| Hgt]; [assumption |].
  assert (2 ^ b <= 2 ^ (Zdigits2 m - 1)) by (apply Z.pow_le_mono_r; lia).
  lia.
Qed.

Lemma Zdigits2_ge (m b : Z) :
  0 < m -> 2 ^ b <= m -> b < Zdigits2 m.
Proof.
  intros Hm Hle. pose proof (Zdigits2_bounds m Hm) as [_ Hhi].
  pose proof (Zdigits2_pos m Hm).
  destruct (Z.lt_ge_cases b (Zdigits2 m)) as [| Hge]; [assumption |].
  assert (2 ^ Zdigits2 m <= 2 ^ b) by (apply Z.pow_le_mono_r; lia).
  lia.
Qed.

Lemma rnd_bounds (m k : Z) :
  0 <= m -> 0 <= k -> m / 2 ^ k <= rnd m k <= m / 2 ^ k + 1.
Proof.
  intros Hm Hk. unfold rnd.
  destruct (2 * (m mod 2 ^ k) ?= 2 ^ k); [destruct (Z.even _) | |]; lia.
Qed.

Lemma rnd_le_pow (m k b : Z) :
  0 <= m -> 0 <= k -> 0 <= b -> m < 2 ^ (k + b) -> rnd m k <= 2 ^ b.
Proof.
  intros Hm Hk Hb Hlt. pose proof (rnd_bounds m k Hm Hk) as [_ Hhi].
  assert (Hp : 0 < 2 ^ k) by (apply Z.pow_pos_nonneg; lia).
  assert (m / 2 ^ k < 2 ^ b).
  { apply Z.div_lt_upper_bound; [assumption |].
    rewrite <- Z.pow_add_r by lia. assumption. }
  lia.
Qed.

Lemma rnd_ge_pow (m k b : Z) :
  0 <= m -> 0 <= k -> 0 <= b -> 2 ^ (k + b) <= m -> 2 ^ b <= rnd m k.
Proof.
  intros Hm Hk Hb Hle. pose proof (rnd_bounds m k Hm Hk) as [Hlo _].
  assert (Hp : 0 < 2 ^ k) by (apply Z.pow_pos_nonneg; lia).
  assert (2 ^ b <= m / 2 ^ k).
  { apply Z.div_le_lower_bound; [assumption |].
    rewrite <- Z.pow_add_r by lia. assumption. }
  lia.
Qed.

Lemma rnd_nonneg (m k : Z) : 0 <= m -> 0 <= k -> 0 <= rnd m k.
Proof.
  intros Hm Hk. pose proof (rnd_bounds m k Hm Hk).
  assert (0 <= m / 2 ^ k) by (apply Z.div_pos; [| apply Z.pow_pos_nonneg]; lia).
  lia.
Qed.

(** What [binary_round_aux] returns on an exact positive input. *)
Lemma binary_round_aux_exact (m : positive) (e : Z) :
  let G := Z.max e (float_fexp (Zpos (digits2_pos m) + e)) in
  let r := rnd (Zpos m) (G - e) in
  match binary_round_aux float_prec float_emax false (Zpos m) e loc_Exact with
  | S754_zero s => s = false /\ r = 0
  | S754_finite s m' e' =>
      s = false /\ G <= e' /\ Zpos m' * 2 ^ (e' - G) = r /\
      e' <= G + 1 /\ e' <= 971
  | S754_infinity s => s = false /\ 971 <= G
  | S754_nan => False
  end.
Proof.
  intros G r. unfold binary_round_aux, shr_fexp.
  cbn [shr_record_of_loc Zdigits2].
  change (fexp float_prec float_emax) with float_fexp.
  set (d := Zpos (digits2_pos m)) in *.
  set (n := float_fexp (d + e) - e).
  destruct (shr_exact (Zpos m) e n ltac:(lia)) as (mrs & Hshr & _ & Hround).
  rewrite Hshr, Hround.
  assert (HG : e + Z.max 0 n = G) by (subst G n; lia).
  assert (Hk : Z.max 0 n = G - e) by lia.
  rewrite HG, Hk. fold r.
  pose proof (digits2_bounds m) as [Hlo Hhi]. fold d in Hlo, Hhi.
  assert (Hd : 0 < d) by (subst d; lia).
  assert (Hr0 : 0 <= r) by (subst r; apply rnd_nonneg; lia).
  assert (HGmin : -1074 <= G).
  { unfold G. rewrite float_fexp_eq. lia. }
  (* r is at most 2^53 and, when it is 2^53, G is above emin *)
  assert (HGdef : G = Z.max e (Z.max (d + e - 53) (-1074))) by reflexivity.
  assert (Hr53 : r <= 2 ^ 53).
  { subst r. destruct (Z.le_gt_cases (G - e) 0) as [Hle | Hgt].
    - replace (G - e) with 0 by lia. rewrite rnd_0.
      assert (d <= 53) by lia.
      assert (2 ^ d <= 2 ^ 53) by (apply Z.pow_le_mono_r; lia). lia.
    - destruct (Z.le_gt_cases (-1074) (d + e - 53)) as [Hnormal | Hsub].
      + replace (G - e) with (d - 53) by lia.
        apply rnd_le_pow; try lia.
        replace (d - 53 + 53) with d by lia. assumption.
      + apply Z.le_trans with (2 ^ 52); [| apply Z.pow_le_mono_r; lia].
        apply rnd_le_pow; try lia.
        apply Z.lt_le_trans with (2 ^ d); [assumption |].
        apply Z.pow_le_mono_r; lia. }
  destruct (Z.eq_dec r 0) as [Hz | Hnz].
  - (* zero *)
    rewrite Hz. cbn [Zdigits2].
    destruct (shr_exact 0 G (float_fexp (0 + G) - G) ltac:(lia))
      as (mrs2 & Hshr2 & Hm2 & _).
    rewrite Hshr2. rewrite Hm2. rewrite Z.div_0_l.
    + split; reflexivity.
    + apply Z.pow_nonzero; lia.
  - assert (Hrpos : 0 < r) by lia.
    destruct (shr_exact r G (float_fexp (Zdigits2 r + G) - G) ltac:(lia))
      as (mrs2 & Hshr2 & Hm2 & _).
    rewrite Hshr2, Hm2.
    set (n2 := float_fexp (Zdigits2 r + G) - G).
    destruct (Z.eq_dec r (2 ^ 53)) as [Hmax | Hlt].
    + (* the rounding carried into a 54th bit *)
      assert (Hdr : Zdigits2 r = 54) by (rewrite Hmax; reflexivity).
      assert (Hn2 : Z.max 0 n2 = 1).
      { subst n2. rewrite Hdr, float_fexp_eq. lia. }
      rewrite Hn2. rewrite Hmax.
      change (2 ^ 53 / 2 ^ 1) with (Zpos 4503599627370496).
      cbv iota beta.
      change (float_emax - float_prec) with 971.
      destruct (Z.leb_spec (G + 1) 971); [| split; [reflexivity | lia]].
      split; [reflexivity |]. split; [lia |].
      replace (G + 1 - G) with 1 by lia. split; [reflexivity | lia].
    + assert (Hdr : Zdigits2 r <= 53).
      { apply Zdigits2_le; lia. }
      assert (Hn2 : Z.max 0 n2 = 0).
      { subst n2. rewrite float_fexp_eq. lia. }
      rewrite Hn2. change (2 ^ 0) with 1. rewrite Z.div_1_r, Z.add_0_r.
      destruct r as [| pr | pr]; try lia.
      change (float_emax - float_prec) with 971.
      destruct (Z.leb_spec G 971); [| split; [reflexivity | lia]].
      split; [reflexivity |]. split; [lia |].
      rewrite Z.sub_diag. change (2 ^ 0) with 1. lia.
Qed.

(** ** Rounding a rational *)

Lemma rneQ_comp (x y : Q) : (x == y)%Q -> rneQ x = rneQ y.
Proof.
  intros E. unfold rneQ. rewrite (Qfloor_comp x y E).
  assert (E' : (x - inject_Z (Qfloor y) == y - inject_Z (Qfloor y))%Q)
    by (rewrite E; reflexivity).
  rewrite (Qcompare_comp _ _ E' (1 # 2)%Q (1 # 2)%Q (Qeq_refl _)).
  reflexivity.
Qed.

Lemma rneQ_bounds (x : Q) : Qfloor x <= rneQ x <= Qfloor x + 1.
Proof.
  unfold rneQ. destruct (_ ?= _)%Q; [destruct (Z.even _) | |]; lia.
Qed.

Lemma rneQ_Z (n : Z) : rneQ (inject_Z n) = n.
Proof.
  unfold rneQ. rewrite Qfloor_Z.
  destruct (Qcompare_spec (inject_Z n - inject_Z n) (1 # 2)) as [E | E | E];
    [lra | reflexivity | lra].
Qed.

Lemma rneQ_mono (x y : Q) : (x <= y)%Q -> rneQ x <= rneQ y.
Proof.
  intros Hxy. pose proof (Qfloor_resp_le x y Hxy) as Hf.
  pose proof (rneQ_bounds x) as Bx. pose proof (rneQ_bounds y) as By.
  destruct (Z.eq_dec (Qfloor x) (Qfloor y)) as [E | NE]; [| lia].
  unfold rneQ in *. rewrite <- E in *.
  destruct (Qcompare_spec (x - inject_Z (Qfloor x)) (1 # 2)) as [Ex | Ex | Ex];
    destruct (Qcompare_spec (y - inject_Z (Qfloor x)) (1 # 2))
      as [Ey | Ey | Ey];
    try lia; try lra; destruct (Z.even (Qfloor x)); lia.
Qed.

Lemma rneQ_le_Z (x : Q) (n : Z) : (x <= inject_Z n)%Q -> rneQ x <= n.
Proof. intros Hx. rewrite <- (rneQ_Z n). apply rneQ_mono. assumption. Qed.

Lemma rneQ_ge_Z (x : Q) (n : Z) : (inject_Z n <= x)%Q -> n <= rneQ x.
Proof. intros Hx. rewrite <- (rneQ_Z n). apply rneQ_mono. assumption. Qed.

Lemma rneQ_small (x : Q) : (0 <= x)%Q -> (x < 1 # 2)%Q -> rneQ x = 0.
Proof.
  intros H0 H1. unfold rneQ.
  assert (Hf : Qfloor x = 0).
  { pose proof (Qfloor_le x) as Hle. pose proof (Qlt_floor x) as Hlt.
    assert (Ha : (inject_Z (Qfloor x) < inject_Z 1)%Q)
      by (change (inject_Z 1) with 1%Q; lra).
    assert (Hb : (inject_Z 0 < inject_Z (Qfloor x + 1))%Q)
      by (change (inject_Z 0) with 0%Q; lra).
    rewrite <- Zlt_Qlt in Ha, Hb. lia. }
  rewrite Hf.
  destruct (Qcompare_spec (x - inject_Z 0) (1 # 2)) as [E | E | E];
    change (inject_Z 0) with 0%Q in E; [lra | reflexivity | lra].
Qed.

(** Powers of two *)

Lemma two_pow_pos (e : Z) : (0 < 2 ^ e)%Q.
Proof. apply Qpower_0_lt. reflexivity. Qed.

Lemma two_pow_add (a b : Z) : (2 ^ (a + b) == 2 ^ a * 2 ^ b)%Q.
Proof. apply Qpower_plus. discriminate. Qed.

Lemma two_pow_Z (n : Z) : 0 <= n -> (2 ^ n == inject_Z (2 ^ n))%Q.
Proof. intros Hn. rewrite Zpower_Qpower by assumption. reflexivity. Qed.

Lemma two_pow_le (a b : Z) : a <= b -> (2 ^ a <= 2 ^ b)%Q.
Proof. intros Hab. apply Qpower_le_compat_l; [assumption | discriminate]. Qed.

Lemma two_pow_lt_inv (a b : Z) : (2 ^ a < 2 ^ b)%Q -> a < b.
Proof. intros H. apply (Qpower_lt_compat_l_inv 2); [assumption | reflexivity]. Qed.

Lemma two_pow_cancel (a : Z) : (2 ^ a * 2 ^ (- a) == 1)%Q.
Proof.
  rewrite <- two_pow_add. replace (a + - a) with 0 by lia. reflexivity.
Qed.

Lemma dyadic_shift (m e j : Z) :
  0 <= j -> (dyadic (m * 2 ^ j) (e - j) == dyadic m e)%Q.
Proof.
  intros Hj. unfold dyadic. rewrite inject_Z_mult, <- (two_pow_Z j Hj).
  rewrite <- Qmult_assoc, <- two_pow_add.
  replace (j + (e - j)) with e by lia. reflexivity.
Qed.

Lemma dyadic_mult (m1 e1 m2 e2 : Z) :
  (dyadic (m1 * m2) (e1 + e2) == dyadic m1 e1 * dyadic m2 e2)%Q.
Proof.
  unfold dyadic. rewrite inject_Z_mult, two_pow_add. ring.
Qed.

Lemma dyadic_bounds (m : positive) (e : Z) :
  (2 ^ (Zpos (digits2_pos m) + e - 1) <= dyadic (Zpos m) e
   < 2 ^ (Zpos (digits2_pos m) + e))%Q.
Proof.
  pose proof (digits2_bounds m) as [Hlo Hhi].
  set (d := Zpos (digits2_pos m)) in *.
  assert (Hd : 0 < d) by (subst d; lia).
  unfold dyadic. pose proof (two_pow_pos e) as He.
  rewrite Zle_Qle in Hlo. rewrite Zlt_Qlt in Hhi.
  rewrite <- two_pow_Z in Hlo, Hhi by lia.
  split.
  - replace (d + e - 1) with ((d - 1) + e) by lia. rewrite two_pow_add.
    apply Qmult_le_compat_r; [assumption | lra].
  - rewrite two_pow_add. apply Qmult_lt_compat_r; assumption.
Qed.

(** [rnd] is rounding to the nearest integer, ties to even. *)
Lemma rnd_rneQ (m k : Z) : 0 <= k -> rnd m k = rneQ (dyadic m (- k)).
Proof.
  intros Hk.
  assert (Hp : 0 < 2 ^ k) by (apply Z.pow_pos_nonneg; lia).
  destruct (2 ^ k) as [| p |] eqn:Ep; try lia.
  assert (Ex : (dyadic m (- k) == m # p)%Q).
  { unfold dyadic. rewrite Qpower_opp, two_pow_Z, Ep by assumption.
    rewrite Qmake_Qdiv. reflexivity. }
  rewrite (rneQ_comp _ _ Ex). unfold rneQ, rnd. rewrite Ep.
  change (Qfloor (m # p)) with (m / Zpos p).
  assert (Ec : ((m # p) - inject_Z (m / Zpos p) ?= 1 # 2)%Q =
               (2 * (m mod Zpos p) ?= Zpos p)).
  { unfold Qcompare, Qminus, Qplus, Qopp, inject_Z. cbn [Qnum Qden].
    rewrite Z.mod_eq by lia. f_equal; lia. }
  rewrite Ec. reflexivity.
Qed.

(** ** The value of a rounded float *)

Lemma round_float_rnd (m e mag : Z) :
  let G := Z.max e (float_fexp mag) in
  (dyadic (rnd m (G - e)) G == round_float (dyadic m e) mag)%Q.
Proof.
  intros G. unfold round_float. set (E := float_fexp mag) in *.
  destruct (Z.le_gt_cases e E) as [Hle | Hgt].
  - replace G with E by lia.
    rewrite rnd_rneQ by lia.
    assert (Ex : (dyadic m (- (E - e)) == dyadic m e * 2 ^ (- E))%Q).
    { unfold dyadic. replace (- (E - e)) with (e + - E) by lia.
      rewrite two_pow_add. ring. }
    rewrite (rneQ_comp _ _ Ex). reflexivity.
  - replace G with e by lia. rewrite Z.sub_diag, rnd_0.
    assert (Ex : (dyadic m e * 2 ^ (- E) == inject_Z (m * 2 ^ (e - E)))%Q).
    { unfold dyadic. rewrite inject_Z_mult, <- two_pow_Z by lia.
      replace (e - E) with (e + - E) by lia. rewrite two_pow_add. ring. }
    rewrite (rneQ_comp _ _ Ex), rneQ_Z.
    fold (dyadic (m * 2 ^ (e - E)) E).
    rewrite <- (dyadic_shift m e (e - E)) by lia.
    replace (e - (e - E)) with E by lia. reflexivity.
Qed.

Lemma float_value_finite (m : positive) (e : Z) :
  float_value (S754_finite false m e) = dyadic (Zpos m) e.
Proof. reflexivity. Qed.

(** The value of [binary_round_aux] on an exact positive input is the
    input rounded. *)
Lemma binary_round_aux_value (m : positive) (e : Z) (y : float) :
  binary_round_aux float_prec float_emax false (Zpos m) e loc_Exact = y ->
  (forall s, y <> S754_infinity s) ->
  float_finite_nonneg y /\
  (float_value y ==
   round_float (dyadic (Zpos m) e) (Zpos (digits2_pos m) + e))%Q.
Proof.
  intros Hy Hfin. pose proof (binary_round_aux_exact m e) as Hspec.
  rewrite Hy in Hspec. cbv zeta in Hspec.
  rewrite <- round_float_rnd.
  set (G := Z.max e (float_fexp (Zpos (digits2_pos m) + e))) in *.
  destruct y as [s | s | | s m' e'].
  - destruct Hspec as [-> Hr]. split; [exact I |].
    rewrite Hr. unfold dyadic. simpl float_value. ring.
  - exfalso. apply (Hfin s). reflexivity.
  - contradiction.
  - destruct Hspec as (-> & HG & Hr & _). split; [exact I |].
    rewrite <- Hr, float_value_finite.
    rewrite <- (dyadic_shift (Zpos m') e' (e' - G)) by lia.
    replace (e' - (e' - G)) with G by lia. reflexivity.
Qed.

(** *** Rounding is monotone *)

Lemma round_float_nonneg (v : Q) (mag : Z) :
  (0 <= v)%Q -> (0 <= round_float v mag)%Q.
Proof.
  intros Hv. unfold round_float.
  apply Qmult_le_0_compat; [| apply Qlt_le_weak, two_pow_pos].
  change 0%Q with (inject_Z 0). rewrite <- Zle_Qle.
  apply rneQ_ge_Z. change (inject_Z 0) with 0%Q.
  apply Qmult_le_0_compat; [assumption | apply Qlt_le_weak, two_pow_pos].
Qed.

Lemma round_float_mono_same (v1 v2 : Q) (mag1 mag2 : Z) :
  float_fexp mag1 = float_fexp mag2 -> (v1 <= v2)%Q ->
  (round_float v1 mag1 <= round_float v2 mag2)%Q.
Proof.
  intros E Hv. unfold round_float. rewrite E.
  apply Qmult_le_compat_r; [| apply Qlt_le_weak, two_pow_pos].
  rewrite <- Zle_Qle. apply rneQ_mono.
  apply Qmult_le_compat_r; [assumption | apply Qlt_le_weak, two_pow_pos].
Qed.

Lemma round_float_upper (v : Q) (mag : Z) :
  (0 <= v)%Q -> (v < 2 ^ mag)%Q -> (round_float v mag <= 2 ^ mag)%Q.
Proof.
  intros H0 Hv. unfold round_float. set (E := float_fexp mag).
  pose proof (two_pow_pos E) as HE. pose proof (two_pow_pos (- E)) as HE'.
  pose proof (two_pow_pos mag) as Hmag.
  assert (Hx : (v * 2 ^ (- E) < 2 ^ (mag - E))%Q).
  { replace (mag - E) with (mag + - E) by lia. rewrite two_pow_add.
    apply Qmult_lt_compat_r; assumption. }
  destruct (Z.le_gt_cases E mag) as [Hle | Hgt].
  - assert (Hr : rneQ (v * 2 ^ (- E)) <= 2 ^ (mag - E)).
    { apply rneQ_le_Z. rewrite <- two_pow_Z by lia.
      apply Qlt_le_weak. assumption. }
    rewrite Zle_Qle, <- two_pow_Z in Hr by lia.
    apply Qle_trans with (2 ^ (mag - E) * 2 ^ E)%Q.
    + apply Qmult_le_compat_r; [assumption | apply Qlt_le_weak; assumption].
    + rewrite <- two_pow_add. replace (mag - E + E) with mag by lia.
      apply Qle_refl.
  - assert (Hr : rneQ (v * 2 ^ (- E)) = 0).
    { apply rneQ_small.
      - apply Qmult_le_0_compat; [assumption | apply Qlt_le_weak; assumption].
      - apply Qlt_le_trans with (2 ^ (mag - E))%Q; [assumption |].
        change (1 # 2)%Q with (2 ^ (-1))%Q. apply two_pow_le. lia. }
    rewrite Hr. change (inject_Z 0) with 0%Q. lra.
Qed.

Lemma round_float_lower (v : Q) (mag : Z) :
  float_fexp mag <= mag - 1 -> (2 ^ (mag - 1) <= v)%Q ->
  (2 ^ (mag - 1) <= round_float v mag)%Q.
Proof.
  intros HE Hv. unfold round_float. set (E := float_fexp mag) in *.
  pose proof (two_pow_pos E) as HE0. pose proof (two_pow_pos (- E)) as HE'.
  assert (Hx : (2 ^ (mag - 1 - E) <= v * 2 ^ (- E))%Q).
  { replace (mag - 1 - E) with (mag - 1 + - E) by lia. rewrite two_pow_add.
    apply Qmult_le_compat_r; [assumption | apply Qlt_le_weak; assumption]. }
  assert (Hr : 2 ^ (mag - 1 - E) <= rneQ (v * 2 ^ (- E))).
  { apply rneQ_ge_Z. rewrite <- two_pow_Z by lia. assumption. }
  rewrite Zle_Qle, <- two_pow_Z in Hr by lia.
  apply Qle_trans with (2 ^ (mag - 1 - E) * 2 ^ E)%Q.
  - rewrite <- two_pow_add. replace (mag - 1 - E + E) with (mag - 1) by lia.
    apply Qle_refl.
  - apply Qmult_le_compat_r; [assumption | apply Qlt_le_weak; assumption].
Qed.

Lemma round_float_mono (v1 v2 : Q) (mag1 mag2 : Z) :
  (2 ^ (mag1 - 1) <= v1)%Q -> (v1 < 2 ^ mag1)%Q ->
  (2 ^ (mag2 - 1) <= v2)%Q -> (v2 < 2 ^ mag2)%Q ->
  (v1 <= v2)%Q ->
  (round_float v1 mag1 <= round_float v2 mag2)%Q.
Proof.
  intros Hlo1 Hhi1 Hlo2 Hhi2 Hv.
  assert (Hmag : mag1 <= mag2).
  { assert (Hlt : (2 ^ (mag1 - 1) < 2 ^ mag2)%Q) by lra.
    apply two_pow_lt_inv in Hlt. lia. }
  destruct (Z.eq_dec (float_fexp mag1) (float_fexp mag2)) as [E | NE].
  - apply round_float_mono_same; assumption.
  - rewrite !float_fexp_eq in NE.
    assert (Hv1 : (0 <= v1)%Q).
    { pose proof (two_pow_pos (mag1 - 1)). lra. }
    apply Qle_trans with (2 ^ mag1)%Q;
      [apply round_float_upper; assumption |].
    apply Qle_trans with (2 ^ (mag2 - 1))%Q; [apply two_pow_le; lia |].
    apply round_float_lower; [rewrite float_fexp_eq; lia | assumption].
Qed.

Lemma round_float_le_int (v : Q) (mag w : Z) :
  (2 ^ (mag - 1) <= v)%Q -> (v <= inject_Z w)%Q -> w < 2 ^ 53 ->
  (round_float v mag <= inject_Z w)%Q.
Proof.
  intros Hlo Hv Hw. unfold round_float.
  assert (Hmag : mag <= 53).
  { assert (Hlt : (2 ^ (mag - 1) < 2 ^ 53)%Q).
    { apply Qle_lt_trans with (inject_Z w); [lra |].
      rewrite (two_pow_Z 53) by lia. rewrite <- Zlt_Qlt. assumption. }
    apply two_pow_lt_inv in Hlt. lia. }
  set (E := float_fexp mag).
  assert (HE : E <= 0) by (subst E; rewrite float_fexp_eq; lia).
  pose proof (two_pow_pos E) as HE0. pose proof (two_pow_pos (- E)) as HE'.
  assert (Hr : rneQ (v * 2 ^ (- E)) <= w * 2 ^ (- E)).
  { apply rneQ_le_Z. rewrite inject_Z_mult, <- two_pow_Z by lia.
    apply Qmult_le_compat_r; [assumption | apply Qlt_le_weak; assumption]. }
  rewrite Zle_Qle, inject_Z_mult, <- two_pow_Z in Hr by lia.
  apply Qle_trans with (inject_Z w * 2 ^ (- E) * 2 ^ E)%Q.
  - apply Qmult_le_compat_r; [assumption | apply Qlt_le_weak; assumption].
  - rewrite <- Qmult_assoc, (Qmult_comm (2 ^ (- E))), two_pow_cancel.
    rewrite Qmult_1_r. apply Qle_refl.
Qed.

Lemma round_float_exact_int (mag w : Z) :
  (2 ^ (mag - 1) <= inject_Z w)%Q -> w < 2 ^ 53 ->
  (round_float (inject_Z w) mag == inject_Z w)%Q.
Proof.
  intros Hlo Hw. unfold round_float.
  assert (Hmag : mag <= 53).
  { assert (Hlt : (2 ^ (mag - 1) < 2 ^ 53)%Q).
    { apply Qle_lt_trans with (inject_Z w); [lra |].
      rewrite (two_pow_Z 53) by lia. rewrite <- Zlt_Qlt. assumption. }
    apply two_pow_lt_inv in Hlt. lia. }
  set (E := float_fexp mag).
  assert (HE : E <= 0) by (subst E; rewrite float_fexp_eq; lia).
  assert (Ex : (inject_Z w * 2 ^ (- E) == inject_Z (w * 2 ^ (- E)))%Q).
  { rewrite inject_Z_mult, <- two_pow_Z by lia. reflexivity. }
  rewrite (rneQ_comp _ _ Ex), rneQ_Z.
  rewrite inject_Z_mult, <- two_pow_Z by lia.
  rewrite <- Qmult_assoc, (Qmult_comm (2 ^ (- E))), two_pow_cancel.
  apply Qmult_1_r.
Qed.

(** ** The value of the operations *)

Lemma round_float_comp (v v' : Q) (mag : Z) :
  (v == v')%Q -> (round_float v mag == round_float v' mag)%Q.
Proof.
  intros E. unfold round_float.
  assert (Ex : (v * 2 ^ (- float_fexp mag) == v' * 2 ^ (- float_fexp mag))%Q)
    by (rewrite E; reflexivity).
  rewrite (rneQ_comp _ _ Ex). reflexivity.
Qed.

Lemma iter_xO (m d : positive) :
  Zpos (Pos.iter xO m d) = Zpos m * 2 ^ Zpos d.
Proof.
  induction d as [| d IH] using Pos.peano_ind.
  - cbn [Pos.iter]. change (2 ^ 1) with 2. lia.
  - rewrite Pos.iter_succ, Pos2Z.inj_succ, Z.pow_succ_r by lia.
    rewrite Pos2Z.inj_xO, IH. lia.
Qed.

Lemma shl_align_value (mx : positive) (ex ex' : Z) :
  (dyadic (Zpos (fst (shl_align mx ex ex'))) (snd (shl_align mx ex ex'))
   == dyadic (Zpos mx) ex)%Q.
Proof.
  unfold shl_align. destruct (ex' - ex) as [| d | d] eqn:Ed;
    cbn [fst snd]; try reflexivity.
  rewrite iter_xO. replace ex' with (ex - Zpos d) by lia.
  apply dyadic_shift. lia.
Qed.

(** The value of [binary_normalize] on a positive dyadic is that dyadic,
    rounded. *)
Lemma binary_normalize_value (n : positive) (e : Z) (y : float) :
  binary_normalize float_prec float_emax (Zpos n) e false = y ->
  (forall s, y <> S754_infinity s) ->
  float_finite_nonneg y /\
  exists mag,
    (2 ^ (mag - 1) <= dyadic (Zpos n) e)%Q /\
    (dyadic (Zpos n) e < 2 ^ mag)%Q /\
    (float_value y == round_float (dyadic (Zpos n) e) mag)%Q.
Proof.
  cbn [binary_normalize]. unfold binary_round.
  pose proof (shl_align_value n e
                (fexp float_prec float_emax (Zpos (digits2_pos n) + e)))
    as Hval.
  destruct (shl_align n e _) as [mz ez]. cbn [fst snd] in Hval.
  intros Hy Hfin.
  destruct (binary_round_aux_value mz ez y Hy Hfin) as [Hnn Hv].
  split; [assumption |].
  exists (Zpos (digits2_pos mz) + ez).
  pose proof (dyadic_bounds mz ez) as [Hlo Hhi].
  rewrite Hval in Hlo, Hhi. split; [assumption |]. split; [assumption |].
  rewrite Hv. apply round_float_comp. assumption.
Qed.

Lemma float_value_nonneg (y : float) :
  float_finite_nonneg y -> (0 <= float_value y)%Q.
Proof.
  destruct y as [[|] | | | [|] m e]; simpl; try contradiction; intros _.
  - apply Qle_refl.
  - apply Qmult_le_0_compat; [| apply Qlt_le_weak, two_pow_pos].
    change 0%Q with (inject_Z 0). rewrite <- Zle_Qle. lia.
Qed.

Lemma float_value_finite_pos (m : positive) (e : Z) :
  (0 < float_value (S754_finite false m e))%Q.
Proof.
  rewrite float_value_finite. unfold dyadic.
  apply Qmult_lt_0_compat; [| apply two_pow_pos].
  change 0%Q with (inject_Z 0). rewrite <- Zlt_Qlt. lia.
Qed.

(** A float of positive value is a positive finite number. *)
Lemma float_value_pos_inv (x : float) :
  (0 < float_value x)%Q -> exists m e, x = S754_finite false m e.
Proof.
  destruct x as [s | s | | [|] m e]; simpl; intros Hx;
    try (exfalso; apply (Qlt_irrefl 0); assumption).
  - exfalso.
    assert (Hneg : (inject_Z (Zneg m) * 2 ^ e < 0)%Q).
    { setoid_replace (inject_Z (Zneg m)) with (- inject_Z (Zpos m))%Q
        by reflexivity.
      pose proof (float_value_finite_pos m e) as Hp.
      rewrite float_value_finite in Hp. unfold dyadic in Hp. lra. }
    lra.
  - exists m, e. reflexivity.
Qed.

(** [int] of a non-negative float is the floor of its value. *)
Lemma float_int_floor (y : float) :
  float_finite_nonneg y -> float_int y = Ok (Qfloor (float_value y)).
Proof.
  destruct y as [[|] | | | [|] m e]; simpl float_finite_nonneg;
    try contradiction; intros _.
  - reflexivity.
  - cbn [float_int]. rewrite float_value_finite. f_equal.
    destruct (Z.leb_spec 0 e) as [He | He].
    + assert (Ex : (dyadic (Zpos m) e == inject_Z (Zpos m * 2 ^ e))%Q).
      { unfold dyadic. rewrite inject_Z_mult, <- two_pow_Z by lia.
        reflexivity. }
      rewrite (Qfloor_comp _ _ Ex), Qfloor_Z. reflexivity.
    + assert (Hp : 0 < 2 ^ (- e)) by (apply Z.pow_pos_nonneg; lia).
      destruct (2 ^ (- e)) as [| p |] eqn:Ep; try lia.
      assert (Ex : (dyadic (Zpos m) e == Zpos m # p)%Q).
      { unfold dyadic. replace e with (- - e) at 1 by lia.
        rewrite Qpower_opp, two_pow_Z, Ep by lia.
        rewrite Qmake_Qdiv. reflexivity. }
      rewrite (Qfloor_comp _ _ Ex). reflexivity.
Qed.

(** [float(w)] is exact for a positive [w] below 2^53. *)
Lemma float_of_int_value (w : Z) (y : float) :
  0 < w < 2 ^ 53 -> float_of_int w = Ok y ->
  exists m e, y = S754_finite false m e /\
              (dyadic (Zpos m) e == inject_Z w)%Q.
Proof.
  intros Hw. unfold float_of_int.
  destruct w as [| n |]; try lia.
  destruct (binary_normalize float_prec float_emax (Zpos n) 0 false)
    as [s | s | | s m e] eqn:Hn; intros [= <-].
  - destruct (binary_normalize_value n 0 _ Hn) as [Hnn (mag & Hlo & Hhi & Hv)];
      [intros s'; discriminate |].
    exfalso.
    assert (Ex : (dyadic (Zpos n) 0 == inject_Z (Zpos n))%Q)
      by (unfold dyadic; change (2 ^ 0)%Q with 1%Q; ring).
    rewrite (round_float_comp _ _ mag Ex) in Hv. rewrite Ex in Hlo.
    rewrite round_float_exact_int in Hv by (assumption || lia).
    simpl float_value in Hv.
    assert (Hpos : (inject_Z 0 < inject_Z (Zpos n))%Q)
      by (rewrite <- Zlt_Qlt; lia).
    change (inject_Z 0) with 0%Q in Hpos. lra.
  - destruct (binary_normalize_value n 0 _ Hn) as [Hnn (mag & Hlo & Hhi & Hv)];
      [intros s'; discriminate |].
    contradiction.
  - destruct (binary_normalize_value n 0 _ Hn) as [Hnn (mag & Hlo & Hhi & Hv)];
      [intros s'; discriminate |].
    assert (Ex : (dyadic (Zpos n) 0 == inject_Z (Zpos n))%Q)
      by (unfold dyadic; change (2 ^ 0)%Q with 1%Q; ring).
    rewrite (round_float_comp _ _ mag Ex) in Hv. rewrite Ex in Hlo.
    rewrite round_float_exact_int in Hv by (assumption || lia).
    destruct s; [contradiction |].
    exists m, e. split; [reflexivity |]. exact Hv.
Qed.

(** [x ** k], for a positive [x] and [k >= 1], is the exact power,
    rounded. *)
Lemma float_pow_value (m : positive) (e : Z) (k : Z) (y : float) :
  1 <= k ->
  float_pow (S754_finite false m e) k = Ok y ->
  float_finite_nonneg y /\
  exists mag,
    (2 ^ (mag - 1) <= float_value (S754_finite false m e) ^ k)%Q /\
    (float_value (S754_finite false m e) ^ k < 2 ^ mag)%Q /\
    (float_value y ==
     round_float (float_value (S754_finite false m e) ^ k) mag)%Q.
Proof.
  intros Hk. destruct k as [| p |]; try lia. cbn [float_pow andb].
  destruct (binary_normalize float_prec float_emax (Zpos (m ^ p))
              (e * Zpos p) false) as [s | s | | s m' e'] eqn:Hn;
    intros [= <-];
    (destruct (binary_normalize_value _ _ _ Hn)
       as [Hnn (mag & Hlo & Hhi & Hv)]; [intros s'; discriminate |]);
    (assert (Ex : (dyadic (Zpos (m ^ p)) (e * Zpos p) ==
                   float_value (S754_finite false m e) ^ Zpos p)%Q);
     [ rewrite float_value_finite; unfold dyadic;
       rewrite Pos2Z.inj_pow, Zpower_Qpower, Qpower_mult, Qmult_power by lia;
       reflexivity |]);
    (split; [assumption |]); exists mag;
    rewrite Ex in Hlo, Hhi; (split; [assumption |]);
    (split; [assumption |]);
    rewrite Hv; apply round_float_comp; assumption.
Qed.

Lemma Qpower_le_one (q : Q) (n : Z) :
  (0 <= q)%Q -> (q <= 1)%Q -> 0 <= n -> (q ^ n <= 1)%Q.
Proof.
  intros Hq0 Hq1 Hn. pattern n. apply natlike_ind; [| | assumption].
  - simpl. apply Qle_refl.
  - intros k Hk IH. unfold Z.succ. rewrite Qpower_plus' by lia.
    setoid_replace 1%Q with (1 * 1)%Q by ring.
    apply Qmult_le_compat_nonneg.
    + split; [now apply Qpower_0_le | assumption].
    + split; [| assumption]. simpl. assumption.
Qed.

Lemma Qpower_antitone (q : Q) (a b : Z) :
  (0 <= q)%Q -> (q <= 1)%Q -> 1 <= a <= b -> (q ^ b <= q ^ a)%Q.
Proof.
  intros Hq0 Hq1 Hab. replace b with (a + (b - a)) by lia.
  destruct (Z.eq_dec (b - a) 0) as [E | E].
  - rewrite E, Z.add_0_r. apply Qle_refl.
  - rewrite Qpower_plus' by lia.
    setoid_replace (q ^ a)%Q with (q ^ a * 1)%Q at 2 by ring.
    apply Qmult_le_compat_nonneg.
    + split; [now apply Qpower_0_le | apply Qle_refl].
    + split; [now apply Qpower_0_le | apply Qpower_le_one; lia || assumption].
Qed.

(** [increment ** k] does not grow with [k] for an increment in (0, 1],
    and is at most 1. *)
Lemma float_pow_antitone (x : float) (k1 k2 : Z) (a1 a2 : float) :
  (0 < float_value x)%Q -> (float_value x <= 1)%Q -> 1 <= k2 <= k1 ->
  float_pow x k1 = Ok a1 -> float_pow x k2 = Ok a2 ->
  float_finite_nonneg a1 /\ float_finite_nonneg a2 /\
  (float_value a1 <= float_value a2)%Q.
Proof.
  intros Hpos Hle Hk H1 H2.
  destruct (float_value_pos_inv x Hpos) as (m & e & ->).
  destruct (float_pow_value m e k1 a1 ltac:(lia) H1)
    as [Hn1 (mag1 & Hlo1 & Hhi1 & Hv1)].
  destruct (float_pow_value m e k2 a2 ltac:(lia) H2)
    as [Hn2 (mag2 & Hlo2 & Hhi2 & Hv2)].
  split; [assumption |]. split; [assumption |].
  rewrite Hv1, Hv2. apply round_float_mono; try assumption.
  apply Qpower_antitone; [apply Qlt_le_weak | |]; assumption.
Qed.

Lemma float_pow_le_one (x : float) (k : Z) (a : float) :
  (0 < float_value x)%Q -> (float_value x <= 1)%Q -> 1 <= k ->
  float_pow x k = Ok a ->
  float_finite_nonneg a /\ (float_value a <= 1)%Q.
Proof.
  intros Hpos Hle Hk Ha.
  destruct (float_value_pos_inv x Hpos) as (m & e & ->).
  destruct (float_pow_value m e k a Hk Ha) as [Hn (mag & Hlo & Hhi & Hv)].
  split; [assumption |]. rewrite Hv.
  change 1%Q with (inject_Z 1). apply round_float_le_int.
  - assumption.
  - change (inject_Z 1) with 1%Q.
    apply Qpower_le_one; [apply Qlt_le_weak; assumption | assumption | lia].
  - reflexivity.
Qed.

(** [int(w * a)] for an integer [w] below 2^53 and a non-negative
    float [a]. *)
Lemma float_times_int (w : Z) (a s : float) (n : Z) :
  0 <= w < 2 ^ 53 -> float_finite_nonneg a ->
  float_times w a = Ok s -> float_int s = Ok n ->
  n = Qfloor (float_value s) /\
  (((w = 0 \/ (float_value a == 0)%Q) /\ (float_value s == 0)%Q) \/
   (0 < w /\ (0 < float_value a)%Q /\
    exists mag,
      (2 ^ (mag - 1) <= inject_Z w * float_value a)%Q /\
      (inject_Z w * float_value a < 2 ^ mag)%Q /\
      (float_value s == round_float (inject_Z w * float_value a) mag)%Q)).
Proof.
  intros Hw Ha Htimes Hint. unfold float_times in Htimes.
  apply bind_ok_inv in Htimes. destruct Htimes as (y & Hy & [= Hs]).
  destruct (Z.eq_dec w 0) as [-> | Hw0].
  - change (float_of_int 0) with (Ok (S754_zero false)) in Hy.
    injection Hy as <-.
    assert (Hz : SFmul float_prec float_emax (S754_zero false) a =
                 S754_zero false).
    { destruct a as [[|] | | | [|] ma ea]; try contradiction; reflexivity. }
    rewrite Hz in Hs. subst s. cbn [float_int] in Hint.
    injection Hint as <-.
    split; [reflexivity |]. left. split; [left |]; reflexivity.
  - destruct (float_of_int_value w y ltac:(lia) Hy) as (mw & ew & -> & Hwv).
    destruct a as [[|] | | | [|] ma ea]; try contradiction.
    + cbn [SFmul xorb] in Hs. subst s. cbn [float_int] in Hint.
      injection Hint as <-.
      split; [reflexivity |]. left. split; [right |]; reflexivity.
    + cbn [SFmul xorb] in Hs.
      assert (Hfin : forall s', s <> S754_infinity s').
      { intros s' ->. discriminate Hint. }
      destruct (binary_round_aux_value _ _ _ Hs Hfin) as [Hn Hv].
      rewrite (float_int_floor s Hn) in Hint. injection Hint as <-.
      split; [reflexivity |]. right.
      split; [lia |]. split; [apply float_value_finite_pos |].
      assert (Ex : (dyadic (Zpos (mw * ma)) (ew + ea) ==
                    inject_Z w * float_value (S754_finite false ma ea))%Q).
      { rewrite Pos2Z.inj_mul, dyadic_mult, Hwv, float_value_finite.
        reflexivity. }
      exists (Zpos (digits2_pos (mw * ma)) + (ew + ea)).
      pose proof (dyadic_bounds (mw * ma) (ew + ea)) as [Hlo Hhi].
      rewrite Ex in Hlo, Hhi. split; [assumption |]. split; [assumption |].
      rewrite Hv. apply round_float_comp. assumption.
Qed.

Lemma float_times_int_mono (w : Z) (a b sa sb : float) (na nb : Z) :
  0 <= w < 2 ^ 53 -> float_finite_nonneg a -> float_finite_nonneg b ->
  (float_value a <= float_value b)%Q ->
  float_times w a = Ok sa -> float_int sa = Ok na ->
  float_times w b = Ok sb -> float_int sb = Ok nb ->
  na <= nb.
Proof.
  intros Hw Ha Hb Hab Hta Hia Htb Hib.
  destruct (float_times_int w a sa na Hw Ha Hta Hia) as [-> Hsa].
  destruct (float_times_int w b sb nb Hw Hb Htb Hib) as [-> Hsb].
  apply Qfloor_resp_le.
  assert (Hnn : (0 <= float_value sb)%Q).
  { destruct Hsb as [[_ E] | (_ & Hbpos & mag & Hlo & Hhi & Hv)].
    - rewrite E. apply Qle_refl.
    - rewrite Hv. apply round_float_nonneg.
      pose proof (two_pow_pos (mag - 1)). lra. }
  destruct Hsa as [[_ E] | (Hwpos & Hapos & mag1 & Hlo1 & Hhi1 & Hv1)].
  - rewrite E. assumption.
  - destruct Hsb as [[[Hw0 | Hb0] _] | (_ & Hbpos & mag2 & Hlo2 & Hhi2 & Hv2)].
    + lia.
    + lra.
    + rewrite Hv1, Hv2. apply round_float_mono; try assumption.
      apply Qmult_le_l; [| assumption].
      change 0%Q with (inject_Z 0). rewrite <- Zlt_Qlt. assumption.
Qed.

Lemma float_times_int_le (w : Z) (a s : float) (n : Z) :
  0 <= w < 2 ^ 53 -> float_finite_nonneg a -> (float_value a <= 1)%Q ->
  float_times w a = Ok s -> float_int s = Ok n ->
  n <= w.
Proof.
  intros Hw Ha Ha1 Ht Hi.
  destruct (float_times_int w a s n Hw Ha Ht Hi) as [-> Hs].
  apply Z.le_trans with (Qfloor (inject_Z w));
    [apply Qfloor_resp_le | rewrite Qfloor_Z; lia].
  destruct Hs as [[_ E] | (Hwpos & Hapos & mag & Hlo & Hhi & Hv)].
  - rewrite E. change 0%Q with (inject_Z 0). rewrite <- Zle_Qle. lia.
  - rewrite Hv. apply round_float_le_int; [assumption | | lia].
    assert (Hwq : (0 < inject_Z w)%Q)
      by (change 0%Q with (inject_Z 0); rewrite <- Zlt_Qlt; assumption).
    nra.
Qed.

(** ** The magnitude of a rational *)

(** Comparing [p / q] with [2^x * a / b], for integers. *)
Lemma Qmake_pow_le (p : Z) (q : positive) (x a b : Z) :
  0 <= a -> 0 <= b ->
  Zpos q * 2 ^ a <= p * 2 ^ b -> x = a - b -> (2 ^ x <= p # q)%Q.
Proof.
  intros Ha Hb Hle ->.
  rewrite Zle_Qle, !inject_Z_mult, <- !two_pow_Z in Hle by assumption.
  assert (HQq : (0 < inject_Z (Zpos q))%Q)
    by (change 0%Q with (inject_Z 0); rewrite <- Zlt_Qlt; lia).
  pose proof (Qmake_Qdiv p q) as Epq.
  assert (Ev : ((p # q) * inject_Z (Zpos q) == inject_Z p)%Q).
  { rewrite Epq. field. lra. }
  replace (a - b) with (a + - b) by lia. rewrite two_pow_add.
  pose proof (two_pow_pos a). pose proof (two_pow_pos b).
  pose proof (two_pow_pos (- b)). pose proof (two_pow_cancel b) as Ec.
  set (A := (2 ^ a)%Q) in *. set (B := (2 ^ b)%Q) in *.
  set (B' := (2 ^ (- b))%Q) in *. set (v := (p # q)%Q) in *.
  set (Q' := inject_Z (Zpos q)) in *. set (P := inject_Z p) in *.
  clearbody A B B' v Q' P.
  (* Q' * A <= P * B = v * Q' * B, so A <= v * B, so A * B' <= v *)
  assert (H3 : (A <= v * B)%Q) by nra.
  assert (H4 : (A * B' <= v * B * B')%Q) by nra.
  assert (H5 : (v * B * B' == v)%Q) by (rewrite <- Qmult_assoc, Ec; ring).
  lra.
Qed.

Lemma Qmake_pow_lt (p : Z) (q : positive) (x a b : Z) :
  0 <= a -> 0 <= b ->
  p * 2 ^ b < Zpos q * 2 ^ a -> x = a - b -> (p # q < 2 ^ x)%Q.
Proof.
  intros Ha Hb Hle ->.
  rewrite Zlt_Qlt, !inject_Z_mult, <- !two_pow_Z in Hle by assumption.
  assert (HQq : (0 < inject_Z (Zpos q))%Q)
    by (change 0%Q with (inject_Z 0); rewrite <- Zlt_Qlt; lia).
  pose proof (Qmake_Qdiv p q) as Epq.
  assert (Ev : ((p # q) * inject_Z (Zpos q) == inject_Z p)%Q).
  { rewrite Epq. field. lra. }
  replace (a - b) with (a + - b) by lia. rewrite two_pow_add.
  pose proof (two_pow_pos a). pose proof (two_pow_pos b).
  pose proof (two_pow_pos (- b)). pose proof (two_pow_cancel b) as Ec.
  set (A := (2 ^ a)%Q) in *. set (B := (2 ^ b)%Q) in *.
  set (B' := (2 ^ (- b))%Q) in *. set (v := (p # q)%Q) in *.
  set (Q' := inject_Z (Zpos q)) in *. set (P := inject_Z p) in *.
  clearbody A B B' v Q' P.
  assert (H3 : (v * B < A)%Q) by nra.
  assert (H4 : (v * B * B' < A * B')%Q) by nra.
  assert (H5 : (v * B * B' == v)%Q) by (rewrite <- Qmult_assoc, Ec; ring).
  lra.
Qed.

Lemma Qmag_bounds (v : Q) :
  (0 < v)%Q -> (2 ^ (Qmag v - 1) <= v)%Q /\ (v < 2 ^ Qmag v)%Q.
Proof.
  intros Hv. destruct v as [p q]. unfold Qmag. cbn [Qnum Qden].
  assert (Hp : 0 < p).
  { unfold Qlt in Hv. cbn [Qnum Qden] in Hv. lia. }
  pose proof (Z.log2_spec p Hp) as [Hp1 Hp2].
  pose proof (Z.log2_spec (Zpos q) ltac:(lia)) as [Hq1 Hq2].
  pose proof (Z.log2_nonneg p) as Hlp.
  pose proof (Z.log2_nonneg (Zpos q)) as Hlq.
  set (lp := Z.log2 p) in *. set (lq := Z.log2 (Zpos q)) in *.
  rewrite Z.pow_succ_r in Hp2, Hq2 by assumption.
  assert (Hpp : 0 < 2 ^ lp) by (apply Z.pow_pos_nonneg; lia).
  assert (Hpq : 0 < 2 ^ lq) by (apply Z.pow_pos_nonneg; lia).
  destruct (Z.leb_spec 0 (lp - lq)) as [Hd | Hd].
  - assert (E : 2 ^ lp = 2 ^ (lp - lq) * 2 ^ lq)
      by (rewrite <- Z.pow_add_r by lia; f_equal; lia).
    assert (Hpd : 0 < 2 ^ (lp - lq)) by (apply Z.pow_pos_nonneg; lia).
    destruct (Z.leb_spec (Zpos q * 2 ^ (lp - lq)) p) as [Hc | Hc].
    + split.
      * apply (Qmake_pow_le p q _ (lp - lq) 0); try lia.
      * apply (Qmake_pow_lt p q _ (lp - lq + 1) 0); try lia.
        rewrite Z.pow_add_r by lia. change (2 ^ 1) with 2.
        change (2 ^ 0) with 1. nia.
    + split.
      * destruct (Z.eq_dec (lp - lq) 0) as [E0 | NE0].
        -- apply (Qmake_pow_le p q _ 0 1); try lia.
           rewrite E0 in Hc. change (2 ^ 0) with 1 in *.
           change (2 ^ 1) with 2.
           assert (lp = lq) by lia. subst lp. nia.
        -- apply (Qmake_pow_le p q _ (lp - lq - 1) 0); try lia.
           change (2 ^ 0) with 1.
           assert (E1 : 2 ^ (lp - lq) = 2 * 2 ^ (lp - lq - 1)).
           { rewrite <- Z.pow_succ_r by lia. f_equal. lia. }
           assert (0 < 2 ^ (lp - lq - 1)) by (apply Z.pow_pos_nonneg; lia).
           nia.
      * apply (Qmake_pow_lt p q _ (lp - lq) 0); try lia.
  - assert (E : 2 ^ lq = 2 ^ (- (lp - lq)) * 2 ^ lp)
      by (rewrite <- Z.pow_add_r by lia; f_equal; lia).
    assert (Hpd : 0 < 2 ^ (- (lp - lq))) by (apply Z.pow_pos_nonneg; lia).
    destruct (Z.leb_spec (Zpos q) (p * 2 ^ (- (lp - lq)))) as [Hc | Hc].
    + split.
      * apply (Qmake_pow_le p q _ 0 (- (lp - lq))); try lia.
      * apply (Qmake_pow_lt p q _ 1 (- (lp - lq))); try lia.
        change (2 ^ 1) with 2. nia.
    + split.
      * apply (Qmake_pow_le p q _ 0 (- (lp - lq) + 1)); try lia.
        rewrite Z.pow_add_r by lia. change (2 ^ 1) with 2.
        change (2 ^ 0) with 1. nia.
      * apply (Qmake_pow_lt p q _ 0 (- (lp - lq))); try lia.
Qed.

Lemma Qmag_unique (v : Q) (mag : Z) :
  (2 ^ (mag - 1) <= v)%Q -> (v < 2 ^ mag)%Q -> mag = Qmag v.
Proof.
  intros Hlo Hhi.
  assert (Hv : (0 < v)%Q) by (pose proof (two_pow_pos (mag - 1)); lra).
  destruct (Qmag_bounds v Hv) as [Hlo' Hhi'].
  assert (H1 : (2 ^ (mag - 1) < 2 ^ Qmag v)%Q) by lra.
  assert (H2 : (2 ^ (Qmag v - 1) < 2 ^ mag)%Q) by lra.
  apply two_pow_lt_inv in H1, H2. lia.
Qed.

Lemma round_double_zero (v : Q) : (v == 0)%Q -> (round_double v == 0)%Q.
Proof.
  intros E. unfold round_double, round_float.
  assert (Ex : forall c, (v * c == inject_Z 0)%Q)
    by (intros c; rewrite E; change (inject_Z 0) with 0%Q; ring).
  rewrite (rneQ_comp _ _ (Ex _)), rneQ_Z. change (inject_Z 0) with 0%Q. ring.
Qed.

Lemma round_float_double (v v' : Q) (mag : Z) :
  (2 ^ (mag - 1) <= v)%Q -> (v < 2 ^ mag)%Q -> (v == v')%Q ->
  (round_float v mag == round_double v')%Q.
Proof.
  intros Hlo Hhi E. unfold round_double.
  rewrite E in Hlo, Hhi. rewrite <- (Qmag_unique v' mag Hlo Hhi).
  apply round_float_comp. assumption.
Qed.

(** [int(w * x ** k)] in binary64, for a positive [x], [k >= 1] and a
    side [w] below 2^53: the power is rounded, the product is rounded,
    the result is truncated. *)
Lemma float_side_value (x : float) (k w n : Z) (a s : float) :
  (0 < float_value x)%Q -> 1 <= k -> 0 <= w < 2 ^ 53 ->
  float_pow x k = Ok a -> float_times w a = Ok s -> float_int s = Ok n ->
  n = scaled_side w x k.
Proof.
  intros Hpos Hk Hw Ha Hs Hn. unfold scaled_side.
  destruct (float_value_pos_inv x Hpos) as (m & e & ->).
  destruct (float_pow_value m e k a Hk Ha) as [Hnn (mag & Hlo & Hhi & Hv)].
  rewrite (round_float_double _ _ _ Hlo Hhi (Qeq_refl _)) in Hv.
  destruct (float_times_int w a s n Hw Hnn Hs Hn)
    as [-> [[Hz E] | (Hwpos & Hapos & mag2 & Hlo2 & Hhi2 & Hv2)]].
  - apply Qfloor_comp. rewrite E. symmetry. apply round_double_zero.
    destruct Hz as [-> | Ha0].
    + change (inject_Z 0) with 0%Q. ring.
    + rewrite <- Hv, Ha0. ring.
  - apply Qfloor_comp. rewrite Hv2.
    apply round_float_double; try assumption.
    rewrite Hv. reflexivity.
Qed.

(** *** No overflow below 2^1023 *)

Lemma two_pow_le_inv (a b : Z) : (2 ^ a <= 2 ^ b)%Q -> a <= b.
Proof. intros Hle. apply (Qpower_le_compat_l_inv 2); [assumption | reflexivity]. Qed.

Lemma binary_round_aux_finite (m : positive) (e : Z) :
  e <= 970 -> (dyadic (Zpos m) e < 2 ^ 1023)%Q ->
  forall s, binary_round_aux float_prec float_emax false (Zpos m) e loc_Exact
            <> S754_infinity s.
Proof.
  intros He Hv s Hy. pose proof (binary_round_aux_exact m e) as Hspec.
  rewrite Hy in Hspec. cbv zeta in Hspec. destruct Hspec as [_ HG].
  rewrite float_fexp_eq in HG.
  pose proof (dyadic_bounds m e) as [Hlo _].
  assert (Hlt : (2 ^ (Zpos (digits2_pos m) + e - 1) < 2 ^ 1023)%Q)
    by (eapply Qle_lt_trans; eassumption).
  apply two_pow_lt_inv in Hlt. lia.
Qed.

Lemma shl_align_exp (mx : positive) (ex ex' : Z) :
  snd (shl_align mx ex ex') <= ex.
Proof.
  unfold shl_align. destruct (ex' - ex) as [| d | d] eqn:Ed; cbn [snd]; lia.
Qed.

Lemma binary_normalize_finite (n : positive) (e : Z) :
  e <= 970 -> (dyadic (Zpos n) e < 2 ^ 1023)%Q ->
  forall s, binary_normalize float_prec float_emax (Zpos n) e false
            <> S754_infinity s.
Proof.
  intros He Hv. cbn [binary_normalize]. unfold binary_round.
  pose proof (shl_align_value n e
                (fexp float_prec float_emax (Zpos (digits2_pos n) + e)))
    as Hval.
  pose proof (shl_align_exp n e
                (fexp float_prec float_emax (Zpos (digits2_pos n) + e)))
    as Hexp.
  destruct (shl_align n e _) as [mz ez]. cbn [fst snd] in Hval, Hexp.
  apply binary_round_aux_finite; [lia |]. rewrite Hval. assumption.
Qed.

(** The exponent of a rounded positive dyadic below 2^53 is at most 1. *)
Lemma binary_round_aux_small_exp (m : positive) (e : Z) (m' : positive)
    (e' : Z) :
  e <= 0 -> (dyadic (Zpos m) e < 2 ^ 53)%Q ->
  binary_round_aux float_prec float_emax false (Zpos m) e loc_Exact =
    S754_finite false m' e' ->
  e' <= 1.
Proof.
  intros He Hv Hy. pose proof (binary_round_aux_exact m e) as Hspec.
  rewrite Hy in Hspec. cbv zeta in Hspec.
  destruct Hspec as (_ & _ & _ & HG & _).
  rewrite float_fexp_eq in HG.
  pose proof (dyadic_bounds m e) as [Hlo _].
  assert (Hlt : (2 ^ (Zpos (digits2_pos m) + e - 1) < 2 ^ 53)%Q)
    by (eapply Qle_lt_trans; eassumption).
  apply two_pow_lt_inv in Hlt. lia.
Qed.

Lemma float_value_le_one_exp (m : positive) (e : Z) :
  (float_value (S754_finite false m e) <= 1)%Q -> e <= 0.
Proof.
  rewrite float_value_finite. unfold dyadic. intros Hle.
  apply two_pow_le_inv. change (2 ^ 0)%Q with 1%Q.
  assert (Hm : (1 <= inject_Z (Zpos m))%Q)
    by (change 1%Q with (inject_Z 1); rewrite <- Zle_Qle; lia).
  pose proof (two_pow_pos e). nra.
Qed.

(** *** The operations return *)

Lemma float_of_int_total (w : Z) :
  0 <= w < 2 ^ 53 ->
  exists y, float_of_int w = Ok y /\
            (w = 0 -> y = S754_zero false) /\
            (0 < w -> exists m e, y = S754_finite false m e /\ e <= 1 /\
                                  (dyadic (Zpos m) e == inject_Z w)%Q).
Proof.
  intros Hw. destruct (Z.eq_dec w 0) as [-> | Hw0].
  - exists (S754_zero false). split; [reflexivity |].
    split; [reflexivity | lia].
  - destruct w as [| n |]; try lia.
    assert (Hw' : 0 < Zpos n < 2 ^ 53) by lia.
    assert (Hv : (dyadic (Zpos n) 0 == inject_Z (Zpos n))%Q)
      by (unfold dyadic; change (2 ^ 0)%Q with 1%Q; ring).
    assert (Hlt : (dyadic (Zpos n) 0 < 2 ^ 53)%Q).
    { rewrite Hv, (two_pow_Z 53), <- Zlt_Qlt by lia. lia. }
    assert (Hfin : forall s, binary_normalize float_prec float_emax
                               (Zpos n) 0 false <> S754_infinity s).
    { apply binary_normalize_finite; [lia |].
      eapply Qlt_le_trans; [exact Hlt | apply two_pow_le; lia]. }
    destruct (binary_normalize float_prec float_emax (Zpos n) 0 false)
      as [s | s | | s m e] eqn:Hn.
    + assert (Hy : float_of_int (Zpos n) = Ok (S754_zero s))
        by (unfold float_of_int; rewrite Hn; reflexivity).
      destruct (float_of_int_value _ _ Hw' Hy) as (m & e & Habs & _).
      discriminate.
    + exfalso. apply (Hfin s). reflexivity.
    + assert (Hy : float_of_int (Zpos n) = Ok S754_nan)
        by (unfold float_of_int; rewrite Hn; reflexivity).
      destruct (float_of_int_value _ _ Hw' Hy) as (m' & e' & Habs & _).
      discriminate.
    + assert (Hy : float_of_int (Zpos n) = Ok (S754_finite s m e))
        by (unfold float_of_int; rewrite Hn; reflexivity).
      destruct (float_of_int_value _ _ Hw' Hy) as (m' & e' & [= -> -> ->] & Hd).
      exists (S754_finite false m' e'). split; [assumption |].
      split; [lia |]. intros _. exists m', e'.
      split; [reflexivity |]. split; [| assumption].
      (* the exponent *)
      cbn [binary_normalize] in Hn. unfold binary_round in Hn.
      pose proof (shl_align_value n 0
                    (fexp float_prec float_emax (Zpos (digits2_pos n) + 0)))
        as Hval.
      pose proof (shl_align_exp n 0
                    (fexp float_prec float_emax (Zpos (digits2_pos n) + 0)))
        as Hexp.
      destruct (shl_align n 0 _) as [mz ez]. cbn [fst snd] in Hval, Hexp.
      apply (binary_round_aux_small_exp mz ez m' e'); [lia | | assumption].
      rewrite Hval. assumption.
Qed.

Lemma float_pow_total (x : float) (k : Z) :
  (0 < float_value x)%Q -> (float_value x <= 1)%Q -> 1 <= k ->
  exists a, float_pow x k = Ok a.
Proof.
  intros Hpos Hle Hk.
  destruct (float_value_pos_inv x Hpos) as (m & e & ->).
  pose proof (float_value_le_one_exp m e Hle) as He.
  destruct k as [| p |]; try lia. cbn [float_pow andb].
  assert (Hfin : forall s, binary_normalize float_prec float_emax
                             (Zpos (m ^ p)) (e * Zpos p) false
                           <> S754_infinity s).
  { apply binary_normalize_finite; [nia |].
    assert (Ex : (dyadic (Zpos (m ^ p)) (e * Zpos p) ==
                  float_value (S754_finite false m e) ^ Zpos p)%Q).
    { rewrite float_value_finite. unfold dyadic.
      rewrite Pos2Z.inj_pow, Zpower_Qpower, Qpower_mult, Qmult_power by lia.
      reflexivity. }
    rewrite Ex. apply Qle_lt_trans with 1%Q.
    - apply Qpower_le_one; [apply Qlt_le_weak; assumption | assumption | lia].
    - reflexivity. }
  destruct (binary_normalize float_prec float_emax (Zpos (m ^ p))
              (e * Zpos p) false) as [s | s | | s m' e'] eqn:Hn;
    try (eexists; reflexivity).
  exfalso. apply (Hfin s). reflexivity.
Qed.

Lemma float_times_total (w : Z) (a : float) :
  0 <= w < 2 ^ 53 -> float_finite_nonneg a -> (float_value a <= 1)%Q ->
  exists s n, float_times w a = Ok s /\ float_int s = Ok n.
Proof.
  intros Hw Ha Ha1.
  destruct (float_of_int_total w Hw) as (y & Hy & Hzero & Hposw).
  unfold float_times. rewrite Hy. cbn [bind].
  destruct (Z.eq_dec w 0) as [Hw0 | Hw0].
  - rewrite (Hzero Hw0).
    destruct a as [[|] | | | [|] ma ea]; try contradiction;
      eexists; eexists; split; reflexivity.
  - destruct (Hposw ltac:(lia)) as (mw & ew & -> & Hew & Hwv).
    destruct a as [[|] | | | [|] ma ea]; try contradiction.
    + eexists; eexists; split; reflexivity.
    + pose proof (float_value_le_one_exp ma ea Ha1) as Hea.
      cbn [SFmul xorb].
      assert (Ex : (dyadic (Zpos (mw * ma)) (ew + ea) ==
                    inject_Z w * float_value (S754_finite false ma ea))%Q).
      { rewrite Pos2Z.inj_mul, dyadic_mult, Hwv, float_value_finite.
        reflexivity. }
      assert (Hlt : (dyadic (Zpos (mw * ma)) (ew + ea) < 2 ^ 1023)%Q).
      { rewrite Ex.
        assert (Hwq : (inject_Z w < 2 ^ 53)%Q)
          by (rewrite (two_pow_Z 53), <- Zlt_Qlt by lia; lia).
        assert (Hw0q : (0 < inject_Z w)%Q)
          by (change 0%Q with (inject_Z 0); rewrite <- Zlt_Qlt; lia).
        pose proof (float_value_finite_pos ma ea) as Hapos.
        assert (H53 : (2 ^ 53 <= 2 ^ 1023)%Q) by (apply two_pow_le; lia).
        nra. }
      pose proof (binary_round_aux_finite (mw * ma) (ew + ea) ltac:(lia) Hlt)
        as Hfin.
      destruct (binary_round_aux_value (mw * ma) (ew + ea) _ eq_refl Hfin)
        as [Hnn _].
      eexists; eexists. split; [reflexivity |].
      apply float_int_floor. assumption.
Qed.

(** *** Halving *)

Lemma round_float_exact (m e mag : Z) :
  float_fexp mag <= e -> (round_float (dyadic m e) mag == dyadic m e)%Q.
Proof.
  intros HE. unfold round_float. set (E := float_fexp mag) in *.
  assert (Ex : (dyadic m e * 2 ^ (- E) == inject_Z (m * 2 ^ (e - E)))%Q).
  { unfold dyadic. rewrite inject_Z_mult, <- two_pow_Z by lia.
    replace (e - E) with (e + - E) by lia. rewrite two_pow_add. ring. }
  rewrite (rneQ_comp _ _ Ex), rneQ_Z.
  fold (dyadic (m * 2 ^ (e - E)) E).
  rewrite <- (dyadic_shift m e (e - E)) by lia.
  replace (e - (e - E)) with E by lia. reflexivity.
Qed.

Lemma Qfloor_dyadic_neg (m k : Z) :
  0 <= k -> Qfloor (dyadic m (- k)) = m / 2 ^ k.
Proof.
  intros Hk.
  assert (Hp : 0 < 2 ^ k) by (apply Z.pow_pos_nonneg; lia).
  destruct (2 ^ k) as [| p |] eqn:Ep; try lia.
  assert (Ex : (dyadic m (- k) == m # p)%Q).
  { unfold dyadic. rewrite Qpower_opp, two_pow_Z, Ep by assumption.
    rewrite Qmake_Qdiv. reflexivity. }
  rewrite (Qfloor_comp _ _ Ex). reflexivity.
Qed.

Lemma half_pow (x : Q) (k : Z) : (x == 1 # 2)%Q -> (x ^ k == 2 ^ (- k))%Q.
Proof.
  intros E. rewrite E, Qpower_opp.
  change (1 # 2)%Q with (/ 2)%Q. apply Qinv_power.
Qed.

(** A power of one half, rounded: exact down to [2^-1074], then 0. *)
Lemma round_double_half_pow (v : Q) (k : Z) :
  1 <= k -> (v == 2 ^ (- k))%Q ->
  (round_double v == if k <=? 1074 then 2 ^ (- k) else 0)%Q.
Proof.
  intros Hk E.
  assert (Hlo : (2 ^ (1 - k - 1) <= 2 ^ (- k))%Q)
    by (apply two_pow_le; lia).
  assert (Hhi : (2 ^ (- k) < 2 ^ (1 - k))%Q)
    by (apply Qpower_lt_compat_l; [lia | reflexivity]).
  rewrite <- (round_float_double (2 ^ (- k)) v (1 - k) Hlo Hhi)
    by (symmetry; assumption).
  assert (Ed : (2 ^ (- k) == dyadic 1 (- k))%Q)
    by (unfold dyadic; change (inject_Z 1) with 1%Q; ring).
  destruct (Z.leb_spec k 1074) as [Hsmall | Hbig].
  - rewrite (round_float_comp _ _ _ Ed), round_float_exact.
    + symmetry. assumption.
    + rewrite float_fexp_eq. lia.
  - unfold round_float. rewrite float_fexp_eq.
    replace (Z.max (1 - k - 53) (-1074)) with (-1074) by lia.
    assert (Hx : (2 ^ (- k) * 2 ^ (- -1074) <= 1 # 2)%Q).
    { rewrite <- two_pow_add. change (1 # 2)%Q with (2 ^ (-1))%Q.
      apply two_pow_le. lia. }
    assert (Hx0 : (inject_Z 0 <= 2 ^ (- k) * 2 ^ (- -1074))%Q).
    { change (inject_Z 0) with 0%Q. rewrite <- two_pow_add.
      apply Qlt_le_weak, two_pow_pos. }
    pose proof (rneQ_mono _ _ Hx) as Hr1.
    pose proof (rneQ_ge_Z _ _ Hx0) as Hr0.
    change (rneQ (1 # 2)) with 0 in Hr1.
    assert (Hr : rneQ (2 ^ (- k) * 2 ^ (- -1074)) = 0) by lia.
    rewrite Hr. change (inject_Z 0) with 0%Q. ring.
Qed.

(** With the increment [.5] the sides are halved [k] times,
    exactly. *)
Lemma scaled_side_half (x : float) (w k : Z) :
  (float_value x == 1 # 2)%Q -> 0 <= w < 2 ^ 53 -> 1 <= k ->
  scaled_side w x k = w / 2 ^ k.
Proof.
  intros Ex Hw Hk. unfold scaled_side.
  pose proof (round_double_half_pow _ k Hk (half_pow _ k Ex)) as Hin.
  destruct (Z.leb_spec k 1074) as [Hsmall | Hbig].
  - destruct (Z.eq_dec w 0) as [-> | Hw0].
    + rewrite (Qfloor_comp _ 0%Q).
      * rewrite Z.div_0_l by (apply Z.pow_nonzero; lia). reflexivity.
      * apply round_double_zero. change (inject_Z 0) with 0%Q. ring.
    + assert (Ev : (inject_Z w *
                    round_double (float_value x ^ k) == dyadic w (- k))%Q)
        by (rewrite Hin; reflexivity).
      assert (Hwq : (0 < inject_Z w)%Q)
        by (change 0%Q with (inject_Z 0); rewrite <- Zlt_Qlt; lia).
      assert (Hpos : (0 < inject_Z w *
                          round_double (float_value x ^ k))%Q).
      { rewrite Hin. apply Qmult_lt_0_compat; [assumption | apply two_pow_pos]. }
      destruct (Qmag_bounds _ Hpos) as [Hlo Hhi].
      set (v := (inject_Z w * round_double (float_value x ^ k))%Q) in *.
      assert (Hmag : Qmag v <= 53 - k).
      { assert (Hlt : (2 ^ (Qmag v - 1) < 2 ^ (53 - k))%Q).
        { apply Qle_lt_trans with v; [assumption |].
          rewrite Ev. unfold dyadic.
          replace (53 - k) with (53 + - k) by lia. rewrite two_pow_add.
          apply Qmult_lt_compat_r; [apply two_pow_pos |].
          rewrite (two_pow_Z 53), <- Zlt_Qlt by lia. lia. }
        apply two_pow_lt_inv in Hlt. lia. }
      unfold round_double.
      rewrite (Qfloor_comp _ (dyadic w (- k))).
      * apply Qfloor_dyadic_neg. lia.
      * rewrite (round_float_comp _ _ _ Ev). apply round_float_exact.
        rewrite float_fexp_eq. lia.
  - rewrite (Qfloor_comp _ 0%Q).
    + symmetry. apply Z.div_small. split; [lia |].
      apply Z.lt_le_trans with (2 ^ 53); [lia |].
      apply Z.pow_le_mono_r; lia.
    + apply round_double_zero. rewrite Hin. ring.
Qed.

(** * The sizes of the levels *)

Section LevelInv.

Context {Image : Type} `{ImageLib Image} {F : Type} `{Arith F}.

(** The operations that gave a resized level its size. *)
Lemma get_scaled_images_level_inv (img : Image) (count : Z) (increment : F)
    (levels : list Image) (i : nat) (level : Image) :
  1 <= width img -> 1 <= height img ->
  get_scaled_images img count increment = Ok levels ->
  (i < Z.to_nat (count - 1))%nat ->
  nth_error levels i = Some level ->
  exists resize_amount scaled_width scaled_height,
    pow increment (count - 1 - Z.of_nat i) = Ok resize_amount /\
    times (width img) resize_amount = Ok scaled_width /\
    int_ scaled_width = Ok (width level) /\
    times (height img) resize_amount = Ok scaled_height /\
    int_ scaled_height = Ok (height level).
Proof.
  intros Hwi Hhi Hok Hi Hnth.
  destruct (get_scaled_images_nth img count increment levels i Hok Hi)
    as [level' [Hnth' Hlevel]].
  assert (level' = level) by congruence. subst level'.
  apply level_at_ok_iff in Hlevel; [| assumption | assumption].
  destruct Hlevel as [w [h [Hdims [Hw [Hh Hresize]]]]].
  destruct (resize_size img w h Hwi Hhi Hw Hh)
    as [level' [Hresize' [Ew Eh]]].
  assert (level' = level) by congruence. subst level'.
  apply new_dims_ok_inv in Hdims.
  destruct Hdims as [ra [sw [sh (Hra & Hsw & Hnw & Hsh & Hnh)]]].
  exists ra, sw, sh. rewrite Ew, Eh. auto.
Qed.

Lemma get_scaled_images_last (img : Image) (count : Z) (increment : F)
    (levels : list Image) (i : nat) (level : Image) :
  get_scaled_images img count increment = Ok levels ->
  (Z.to_nat (count - 1) <= i)%nat ->
  nth_error levels i = Some level ->
  i = Z.to_nat (count - 1) /\ level = img.
Proof.
  intros Hok Hi Hnth.
  pose proof (get_scaled_images_length img count increment levels Hok) as Hlen.
  assert (Hlt : (i < length levels)%nat)
    by (apply nth_error_Some; congruence).
  assert (Ei : i = Z.to_nat (count - 1)) by lia.
  split; [assumption |].
  apply get_scaled_images_ok_iff in Hok.
  destruct Hok as [resized [Hall ->]].
  apply Forall2_length_eq in Hall. rewrite length_seq in Hall.
  rewrite nth_error_app2 in Hnth by lia.
  replace (i - length resized)%nat with 0%nat in Hnth by lia.
  simpl in Hnth. congruence.
Qed.

End LevelInv.

Section LevelDims.

Context {Image : Type} `{ImageLib Image}.

(** C7: for a positive float increment and an image whose sides are at
    least 1 and below 2^53, the [i]-th level of a returned pyramid, for
    [i] from 0 to [count - 2], has the sides [int(width * f)] and
    [int(height * f)] with [f = increment ** (count - 1 - i)] as binary64
    computes them ([scaled_side]): the power rounded to the nearest
    double, then the product rounded to the nearest double, then the
    floor.  The level is the image resized to that size, and both sides
    are at least 1. *)
Theorem get_scaled_images_level_dims (img : Image) (count : Z)
    (increment : float) (levels : list Image) (i : Z) :
  (0 < float_value increment)%Q ->
  1 <= width img < 2 ^ 53 -> 1 <= height img < 2 ^ 53 ->
  get_scaled_images img count increment = Ok levels ->
  0 <= i <= count - 2 ->
  exists level,
    nth_error levels (Z.to_nat i) = Some level /\
    width level = scaled_side (width img) increment (count - 1 - i) /\
    height level = scaled_side (height img) increment (count - 1 - i) /\
    1 <= width level /\ 1 <= height level /\
    resize img (width level, height level) = Ok level.
Proof.
  intros Hpos [Hwi Hw] [Hhi Hh] Hok Hi.
  pose proof (width_nonneg img) as Hw0.
  pose proof (height_nonneg img) as Hh0.
  destruct (get_scaled_images_nth img count increment levels (Z.to_nat i)
              Hok ltac:(lia)) as [level [Hnth Hlevel]].
  rewrite Z2Nat.id in Hlevel by lia.
  apply level_at_ok_iff in Hlevel; [| assumption | assumption].
  destruct Hlevel as [w [h [Hdims [Hw1 [Hh1 Hresize]]]]].
  destruct (resize_size img w h Hwi Hhi Hw1 Hh1)
    as [level' [Hresize' [Ew Eh]]].
  assert (level' = level) by congruence. subst level'.
  apply new_dims_ok_inv in Hdims.
  destruct Hdims as [ra [sw [sh (Hra & Hsw & Hnw & Hsh & Hnh)]]].
  assert (Hk : 1 <= count - 1 - i) by lia.
  exists level. rewrite Ew, Eh.
  split; [assumption |].
  split; [exact (float_side_value increment _ (width img) w ra sw Hpos Hk
                   (conj Hw0 Hw) Hra Hsw Hnw) |].
  split; [exact (float_side_value increment _ (height img) h ra sh Hpos Hk
                   (conj Hh0 Hh) Hra Hsh Hnh) |].
  auto.
Qed.

End LevelDims.

Section Monotone.

Context {Image : Type} `{ImageLib Image}.

(** C8: for a float increment in (0, 1] and an image whose sides are at
    least 1 and below 2^53, the sizes of the levels of a returned
    pyramid do not decrease toward the original: for [i <= j], level [i]
    is no wider and no higher than level [j]. *)
Theorem get_scaled_images_sizes_monotone (img : Image) (count : Z)
    (increment : float) (levels : list Image) (i j : nat)
    (level_i level_j : Image) :
  (0 < float_value increment)%Q -> (float_value increment <= 1)%Q ->
  1 <= width img < 2 ^ 53 -> 1 <= height img < 2 ^ 53 ->
  get_scaled_images img count increment = Ok levels ->
  (i <= j)%nat ->
  nth_error levels i = Some level_i -> nth_error levels j = Some level_j ->
  width level_i <= width level_j /\ height level_i <= height level_j.
Proof.
  intros Hpos Hle [Hw1 Hw] [Hh1 Hh] Hok Hij Hi Hj.
  pose proof (width_nonneg img) as Hw0.
  pose proof (height_nonneg img) as Hh0.
  destruct (Nat.lt_ge_cases i (Z.to_nat (count - 1))) as [Hin | Hin].
  - destruct (get_scaled_images_level_inv img count increment levels i
                level_i Hw1 Hh1 Hok Hin Hi)
      as (ai & swi & shi & Hai & Hswi & Hnwi & Hshi & Hnhi).
    destruct (Nat.lt_ge_cases j (Z.to_nat (count - 1))) as [Hjn | Hjn].
    + destruct (get_scaled_images_level_inv img count increment levels j
                  level_j Hw1 Hh1 Hok Hjn Hj)
        as (aj & swj & shj & Haj & Hswj & Hnwj & Hshj & Hnhj).
      assert (Hk : 1 <= count - 1 - Z.of_nat j <= count - 1 - Z.of_nat i)
        by lia.
      destruct (float_pow_antitone increment _ _ ai aj Hpos Hle Hk Hai Haj)
        as (Hni & Hnj & Hv).
      split.
      * exact (float_times_int_mono (width img) ai aj swi swj _ _
                 (conj Hw0 Hw) Hni Hnj Hv Hswi Hnwi Hswj Hnwj).
      * exact (float_times_int_mono (height img) ai aj shi shj _ _
                 (conj Hh0 Hh) Hni Hnj Hv Hshi Hnhi Hshj Hnhj).
    + destruct (get_scaled_images_last img count increment levels j level_j
                  Hok Hjn Hj) as [_ ->].
      assert (Hk : 1 <= count - 1 - Z.of_nat i) by lia.
      destruct (float_pow_le_one increment _ ai Hpos Hle Hk Hai)
        as [Hni Hv].
      split.
      * exact (float_times_int_le (width img) ai swi _ (conj Hw0 Hw) Hni Hv
                 Hswi Hnwi).
      * exact (float_times_int_le (height img) ai shi _ (conj Hh0 Hh) Hni Hv
                 Hshi Hnhi).
  - destruct (get_scaled_images_last img count increment levels i level_i
                Hok Hin Hi) as [_ ->].
    destruct (get_scaled_images_last img count increment levels j level_j
                Hok ltac:(lia) Hj) as [_ ->].
    split; apply Z.le_refl.
Qed.

End Monotone.

(** [int(w * x ** k)] is computed without an exception for an increment
    in (0, 1] and a side below 2^53. *)
Lemma float_side_total (x : float) (k w : Z) :
  (0 < float_value x)%Q -> (float_value x <= 1)%Q -> 1 <= k ->
  0 <= w < 2 ^ 53 ->
  exists a s,
    float_pow x k = Ok a /\ float_finite_nonneg a /\
    (float_value a <= 1)%Q /\
    float_times w a = Ok s /\ float_int s = Ok (scaled_side w x k).
Proof.
  intros Hpos Hle Hk Hw.
  destruct (float_pow_total x k Hpos Hle Hk) as [a Ha].
  destruct (float_pow_le_one x k a Hpos Hle Hk Ha) as [Hnn Ha1].
  destruct (float_times_total w a Hw Hnn Ha1) as (s & n & Hs & Hn).
  exists a, s. repeat (split; [assumption |]).
  rewrite Hn. f_equal.
  exact (float_side_value x k w n a s Hpos Hk Hw Ha Hs Hn).
Qed.

Lemma scaled_side_antitone (x : float) (w k1 k2 : Z) :
  (0 < float_value x)%Q -> (float_value x <= 1)%Q -> 0 <= w < 2 ^ 53 ->
  1 <= k2 <= k1 ->
  scaled_side w x k1 <= scaled_side w x k2.
Proof.
  intros Hpos Hle Hw Hk.
  destruct (float_side_total x k1 w Hpos Hle ltac:(lia) Hw)
    as (a1 & s1 & Ha1 & Hn1 & _ & Hs1 & Hi1).
  destruct (float_side_total x k2 w Hpos Hle ltac:(lia) Hw)
    as (a2 & s2 & Ha2 & Hn2 & _ & Hs2 & Hi2).
  destruct (float_pow_antitone x k1 k2 a1 a2 Hpos Hle Hk Ha1 Ha2)
    as (_ & _ & Hv).
  exact (float_times_int_mono w a1 a2 s1 s2 _ _ Hw Hn1 Hn2 Hv
           Hs1 Hi1 Hs2 Hi2).
Qed.

Lemma scaled_side_le (x : float) (w k : Z) :
  (0 < float_value x)%Q -> (float_value x <= 1)%Q -> 0 <= w < 2 ^ 53 ->
  1 <= k ->
  0 <= scaled_side w x k <= w.
Proof.
  intros Hpos Hle Hw Hk.
  destruct (float_side_total x k w Hpos Hle Hk Hw)
    as (a & s & Ha & Hn & Ha1 & Hs & Hi).
  split.
  - destruct (float_times_int w a s _ Hw Hn Hs Hi)
      as [-> [[_ E] | (_ & _ & mag & Hlo & _ & Hv)]].
    + rewrite (Qfloor_comp _ _ E). reflexivity.
    + rewrite <- (Qfloor_Z 0). apply Qfloor_resp_le. rewrite Hv.
      change (inject_Z 0) with 0%Q. apply round_float_nonneg.
      pose proof (two_pow_pos (mag - 1)). lra.
  - exact (float_times_int_le w a s _ Hw Hn Ha1 Hs Hi).
Qed.

Section FloatPyramid.

Context {Image : Type} `{ImageLib Image}.

(** For an increment in (0, 1] the arithmetic of [new_dims] never
    raises. *)
Lemma new_dims_value (img : Image) (count : Z) (increment : float) (i : Z) :
  (0 < float_value increment)%Q -> (float_value increment <= 1)%Q ->
  width img < 2 ^ 53 -> height img < 2 ^ 53 ->
  1 <= count - 1 - i ->
  new_dims img count increment i =
  Ok (scaled_side (width img) increment (count - 1 - i),
      scaled_side (height img) increment (count - 1 - i)).
Proof.
  intros Hpos Hle Hw Hh Hk.
  pose proof (width_nonneg img) as Hw0.
  pose proof (height_nonneg img) as Hh0.
  destruct (float_side_total increment _ (width img) Hpos Hle Hk
              (conj Hw0 Hw)) as (a & sw & Ha & _ & _ & Hsw & Hnw).
  destruct (float_side_total increment _ (height img) Hpos Hle Hk
              (conj Hh0 Hh)) as (a' & sh & Ha' & _ & _ & Hsh & Hnh).
  assert (a' = a) by congruence. subst a'.
  unfold new_dims. cbn [pow times int_ Arith_float].
  rewrite Ha. cbn [bind]. rewrite Hsw. cbn [bind]. rewrite Hnw. cbn [bind].
  rewrite Hsh. cbn [bind]. rewrite Hnh. reflexivity.
Qed.

Lemma get_scaled_images_float_ok (img : Image) (count : Z)
    (increment : float) :
  (0 < float_value increment)%Q -> (float_value increment <= 1)%Q ->
  1 <= width img < 2 ^ 53 -> 1 <= height img < 2 ^ 53 ->
  2 <= count ->
  1 <= scaled_side (width img) increment (count - 1) ->
  1 <= scaled_side (height img) increment (count - 1) ->
  exists levels,
    get_scaled_images img count increment = Ok levels /\
    length levels = Z.to_nat count.
Proof.
  intros Hpos Hle [Hwi Hw] [Hhi Hh] Hc Hsw Hsh.
  pose proof (width_nonneg img) as Hw0.
  pose proof (height_nonneg img) as Hh0.
  destruct (mapM_ok_all (level_at img count increment)
              (py_range1 (count - 1))) as [resized Hm].
  - intros i Hi. rewrite py_range1_items in Hi.
    apply in_map_iff in Hi. destruct Hi as [k [<- Hk]].
    apply in_seq in Hk.
    pose proof (scaled_side_antitone increment (width img) (count - 1)
                  (count - 1 - Z.of_nat k) Hpos Hle (conj Hw0 Hw)
                  ltac:(lia)) as Mw.
    pose proof (scaled_side_antitone increment (height img) (count - 1)
                  (count - 1 - Z.of_nat k) Hpos Hle (conj Hh0 Hh)
                  ltac:(lia)) as Mh.
    assert (Hw1 : 1 <= scaled_side (width img) increment
                         (count - 1 - Z.of_nat k)) by lia.
    assert (Hh1 : 1 <= scaled_side (height img) increment
                         (count - 1 - Z.of_nat k)) by lia.
    destruct (resize_size img _ _ Hwi Hhi Hw1 Hh1) as [level [Hresize _]].
    exists level. unfold level_at.
    rewrite new_dims_value by (assumption || lia). exact Hresize.
  - exists (resized ++ [img]).
    assert (Hok : get_scaled_images img count increment =
                  Ok (resized ++ [img])).
    { unfold get_scaled_images. now rewrite scale_loop_mapM, Hm. }
    split; [exact Hok |].
    rewrite (get_scaled_images_length _ _ _ _ Hok). lia.
Qed.

Lemma get_scaled_images_float_raise (img : Image) (count : Z)
    (increment : float) :
  (0 < float_value increment)%Q -> (float_value increment <= 1)%Q ->
  1 <= width img < 2 ^ 53 -> 1 <= height img < 2 ^ 53 ->
  2 <= count ->
  scaled_side (width img) increment (count - 1) < 1 \/
  scaled_side (height img) increment (count - 1) < 1 ->
  get_scaled_images img count increment = Raise ValueError_resize.
Proof.
  intros Hpos Hle [Hwi Hw] [Hhi Hh] Hc Hsmall. unfold get_scaled_images.
  rewrite py_range1_items.
  destruct (Z.to_nat (count - 1)) as [| n] eqn:En; [lia |].
  cbn [seq map scale_loop].
  rewrite new_dims_value by (assumption || lia).
  cbn [bind]. rewrite Z.sub_0_r.
  rewrite resize_raises by assumption. reflexivity.
Qed.

(** The sides of the resized levels of a returned pyramid. *)
Lemma get_scaled_images_level_sides (img : Image) (count : Z)
    (increment : float) (levels : list Image) (i : nat) (level : Image) :
  (0 < float_value increment)%Q ->
  1 <= width img < 2 ^ 53 -> 1 <= height img < 2 ^ 53 ->
  get_scaled_images img count increment = Ok levels ->
  (i < Z.to_nat (count - 1))%nat ->
  nth_error levels i = Some level ->
  width level = scaled_side (width img) increment (count - 1 - Z.of_nat i) /\
  height level = scaled_side (height img) increment (count - 1 - Z.of_nat i).
Proof.
  intros Hpos [Hwi Hw] [Hhi Hh] Hok Hi Hnth.
  pose proof (width_nonneg img) as Hw0.
  pose proof (height_nonneg img) as Hh0.
  destruct (get_scaled_images_level_inv img count increment levels i level
              Hwi Hhi Hok Hi Hnth) as (a & sw & sh & Ha & Hsw & Hnw & Hsh & Hnh).
  assert (Hk : 1 <= count - 1 - Z.of_nat i) by lia.
  split.
  - exact (float_side_value increment _ (width img) _ a sw Hpos Hk
             (conj Hw0 Hw) Ha Hsw Hnw).
  - exact (float_side_value increment _ (height img) _ a sh Hpos Hk
             (conj Hh0 Hh) Ha Hsh Hnh).
Qed.

(** X10: for a float increment in (0, 1], an image whose sides are at
    least 1 and below 2^53, and at least two levels, the arithmetic of
    [get_scaled_images] never raises, and the function returns exactly
    when the smallest level, of sides [int(width * increment ** (count -
    1))] and [int(height * increment ** (count - 1))], has both sides at
    least 1; otherwise it raises the [ValueError] of [Image.resize], at
    the first level. *)
Theorem get_scaled_images_float_outcome (img : Image) (count : Z)
    (increment : float) :
  (0 < float_value increment)%Q -> (float_value increment <= 1)%Q ->
  1 <= width img < 2 ^ 53 -> 1 <= height img < 2 ^ 53 ->
  2 <= count ->
  (1 <= scaled_side (width img) increment (count - 1) /\
   1 <= scaled_side (height img) increment (count - 1) ->
   exists levels,
     get_scaled_images img count increment = Ok levels /\
     length levels = Z.to_nat count) /\
  (scaled_side (width img) increment (count - 1) < 1 \/
   scaled_side (height img) increment (count - 1) < 1 ->
   get_scaled_images img count increment = Raise ValueError_resize).
Proof.
  intros Hpos Hle Hw Hh Hc. split.
  - intros [Hsw Hsh]. now apply get_scaled_images_float_ok.
  - now apply get_scaled_images_float_raise.
Qed.

End FloatPyramid.

Section Halves.

Context {Image : Type} `{ImageLib Image}.

Lemma level_sides_half (img : Image) (count : Z) (increment : float)
    (levels : list Image) (i : nat) (level : Image) :
  (float_value increment == 1 # 2)%Q ->
  1 <= width img < 2 ^ 53 -> 1 <= height img < 2 ^ 53 ->
  get_scaled_images img count increment = Ok levels ->
  (i < Z.to_nat (count - 1))%nat ->
  nth_error levels i = Some level ->
  width level = width img / 2 ^ (count - 1 - Z.of_nat i) /\
  height level = height img / 2 ^ (count - 1 - Z.of_nat i).
Proof.
  intros Ehalf Hw Hh Hok Hi Hnth.
  assert (Hpos : (0 < float_value increment)%Q) by (rewrite Ehalf; reflexivity).
  destruct (get_scaled_images_level_sides img count increment levels i level
              Hpos Hw Hh Hok Hi Hnth) as [Ew Eh].
  rewrite Ew, Eh.
  split; apply scaled_side_half; (assumption || lia).
Qed.


End Halves.

(** * The grid of crops *)

Lemma ceil_div_bounds (a b : Z) :
  0 < b -> (ceil_div a b - 1) * b < a <= ceil_div a b * b.
Proof.
  intros Hb. unfold ceil_div.
  pose proof (Z.div_mod (- a) b ltac:(lia)) as Hdm.
  pose proof (Z.mod_pos_bound (- a) b Hb) as Hmod. nia.
Qed.

Lemma ceil_div_nonneg (a b : Z) : 0 <= a -> 0 < b -> 0 <= ceil_div a b.
Proof.
  intros Ha Hb. pose proof (ceil_div_bounds a b Hb). nia.
Qed.

Lemma ceil_div_unique (a b q : Z) :
  0 < b -> (q - 1) * b < a <= q * b -> ceil_div a b = q.
Proof.
  intros Hb Hq. pose proof (ceil_div_bounds a b Hb). nia.
Qed.

Lemma range_length_ceil (stop step : Z) :
  0 <= stop -> 0 < step -> range_length 0 stop step = ceil_div stop step.
Proof.
  intros Hstop Hstep. rewrite range_length_pos by assumption.
  symmetry. destruct (0 <? stop) eqn:E.
  - apply Z.ltb_lt in E. apply ceil_div_unique; [assumption |].
    pose proof (Z.div_mod (stop - 1) step ltac:(lia)).
    pose proof (Z.mod_pos_bound (stop - 1) step Hstep). nia.
  - apply Z.ltb_ge in E. apply ceil_div_unique; lia.
Qed.

Lemma range_items_grid (stop step : Z) :
  0 <= stop -> 0 < step ->
  range_items 0 stop step =
  map (fun j => Z.of_nat j * step) (seq 0 (Z.to_nat (ceil_div stop step))).
Proof.
  intros Hstop Hstep. unfold range_items.
  now rewrite range_length_ceil by assumption.
Qed.

Lemma take_through_first {A : Type} (p : A -> bool) (pre post : list A)
    (a : A) :
  (forall b, In b pre -> p b = false) -> p a = true ->
  take_through p (pre ++ a :: post) = pre ++ [a].
Proof.
  intros Hpre Ha. induction pre as [| b pre IH]; simpl.
  - now rewrite Ha.
  - rewrite (Hpre b) by now left. f_equal. apply IH.
    intros c Hc. apply Hpre. now right.
Qed.

Lemma take_through_none {A : Type} (p : A -> bool) (l : list A) :
  (forall b, In b l -> p b = false) -> take_through p l = l.
Proof.
  intros Hl. induction l as [| b l IH]; simpl; [reflexivity |].
  rewrite (Hl b) by now left. f_equal. apply IH.
  intros c Hc. apply Hl. now right.
Qed.

Section Grid.

Context {Image : Type} `{ImageLib Image}.

(** The two overflow adjustments amount to two minima. *)
Lemma crop_bounds_at_min (image : Image) (window_dim : Z * Z) (x y : Z) :
  crop_bounds_at image window_dim x y =
  (Z.min x (width image - fst window_dim),
   Z.min y (height image - snd window_dim),
   Z.min (x + fst window_dim) (width image),
   Z.min (y + snd window_dim) (height image)).
Proof.
  unfold crop_bounds_at.
  destruct (height image <? y + snd window_dim) eqn:Ev;
    destruct (width image <? x + fst window_dim) eqn:Eh;
    rewrite ?Z.ltb_lt, ?Z.ltb_ge in *;
    (f_equal; [f_equal; [f_equal |] |]); lia.
Qed.

Lemma at_right_edge_iff (image : Image) (window_dim : Z * Z) (x y : Z) :
  at_right_edge image (pict_at image window_dim y x) = true <->
  width image <= x + fst window_dim.
Proof.
  unfold at_right_edge, pict_at. cbn [snd].
  rewrite crop_bounds_at_min. cbn [box_right]. rewrite Z.eqb_eq. lia.
Qed.

(** A row is the crops of the first [col_count] left positions. *)
Lemma spec_row_grid (image : Image) (window_dim : Z * Z) (stride y : Z) :
  fst window_dim <= width image -> 1 <= stride ->
  spec_row image window_dim stride y =
  map (fun c => pict_at image window_dim y (Z.of_nat c * stride))
      (seq 0 (Z.to_nat (col_count image window_dim stride))).
Proof.
  intros Hw Hs. unfold spec_row, col_count.
  pose proof (width_nonneg image) as HW.
  rewrite range_items_grid, map_map by lia.
  pose proof (ceil_div_bounds (width image) stride ltac:(lia)) as Hn.
  pose proof (ceil_div_bounds (width image - fst window_dim) stride
                ltac:(lia)) as Hj.
  set (n := ceil_div (width image) stride) in *.
  set (j := ceil_div (width image - fst window_dim) stride) in *.
  assert (Hn0 : 0 <= n) by (apply ceil_div_nonneg; lia).
  assert (Hj0 : 0 <= j) by (apply ceil_div_nonneg; lia).
  destruct (Z_lt_le_dec j n) as [Hlt | Hge].
  - rewrite Z.min_r by lia.
    replace (Z.to_nat n) with (Z.to_nat j + S (Z.to_nat (n - j - 1)))%nat
      by lia.
    rewrite seq_app, map_app. cbn [seq map]. rewrite take_through_first.
    + replace (Z.to_nat (1 + j)) with (Z.to_nat j + 1)%nat by lia.
      rewrite seq_app, map_app. reflexivity.
    + intros p Hp. apply in_map_iff in Hp. destruct Hp as [c [<- Hc]].
      apply in_seq in Hc. apply not_true_is_false. rewrite at_right_edge_iff.
      nia.
    + apply at_right_edge_iff. nia.
  - rewrite Z.min_l by lia. apply take_through_none.
    intros p Hp. apply in_map_iff in Hp. destruct Hp as [c [<- Hc]].
    apply in_seq in Hc. apply not_true_is_false. rewrite at_right_edge_iff.
    nia.
Qed.

(** All the crops, row after row. *)
Lemma spec_pictures_grid (image : Image) (window_dim : Z * Z) (stride : Z) :
  fst window_dim <= width image -> 1 <= stride ->
  spec_pictures image window_dim stride =
  flat_map
    (fun r =>
       map (fun c => pict_at image window_dim (Z.of_nat r * stride)
                       (Z.of_nat c * stride))
           (seq 0 (Z.to_nat (col_count image window_dim stride))))
    (seq 0 (Z.to_nat (row_count image stride))).
Proof.
  intros Hw Hs. unfold spec_pictures, row_count.
  rewrite range_items_grid by (apply height_nonneg || lia).
  rewrite flat_map_concat_map, map_map, <- flat_map_concat_map.
  apply flat_map_ext. intros r. now apply spec_row_grid.
Qed.

End Grid.

(** Lists laid out as a grid, row after row. *)
Lemma grid_length {A : Type} (g : nat -> nat -> A) (R C : nat) :
  length (flat_map (fun r => map (g r) (seq 0 C)) (seq 0 R)) = (R * C)%nat.
Proof.
  induction R as [| R IH]; [reflexivity |].
  rewrite seq_S, flat_map_app, length_app, IH. simpl.
  rewrite app_nil_r, length_map, length_seq. lia.
Qed.

Lemma grid_nth {A : Type} (g : nat -> nat -> A) (R C r c : nat) :
  (r < R)%nat -> (c < C)%nat ->
  nth_error (flat_map (fun r => map (g r) (seq 0 C)) (seq 0 R)) (r * C + c) =
  Some (g r c).
Proof.
  intros Hr Hc. induction R as [| R IH]; [lia |].
  rewrite seq_S, flat_map_app. simpl. rewrite app_nil_r.
  destruct (Nat.eq_dec r R) as [-> | Hne].
  - rewrite nth_error_app2 by (rewrite grid_length; lia).
    rewrite grid_length.
    replace (R * C + c - R * C)%nat with c by lia.
    rewrite nth_error_map, nth_error_seq.
    destruct (Nat.ltb_spec c C); [reflexivity | lia].
  - rewrite nth_error_app1 by (rewrite grid_length; nia).
    apply IH. lia.
Qed.

Lemma grid_In {A : Type} (g : nat -> nat -> A) (R C : nat) (a : A) :
  In a (flat_map (fun r => map (g r) (seq 0 C)) (seq 0 R)) <->
  exists r c, (r < R)%nat /\ (c < C)%nat /\ a = g r c.
Proof.
  rewrite in_flat_map. split.
  - intros [r [Hr Ha]]. apply in_map_iff in Ha. destruct Ha as [c [Ha Hc]].
    apply in_seq in Hr, Hc. exists r, c. repeat split; [lia | lia | easy].
  - intros [r [c [Hr [Hc ->]]]]. exists r. split; [apply in_seq; lia |].
    apply in_map_iff. exists c. split; [reflexivity | apply in_seq; lia].
Qed.

Section GridClaims.

Context {Image : Type} `{ImageLib Image}.

Lemma counts_nonneg (image : Image) (window_dim : Z * Z) (stride : Z) :
  fst window_dim <= width image -> 1 <= stride ->
  0 <= row_count image stride /\ 0 <= col_count image window_dim stride.
Proof.
  intros Hw Hs. pose proof (width_nonneg image). pose proof (height_nonneg image).
  unfold row_count, col_count. split.
  - apply ceil_div_nonneg; lia.
  - pose proof (ceil_div_nonneg (width image) stride).
    pose proof (ceil_div_nonneg (width image - fst window_dim) stride). lia.
Qed.

Lemma spec_pictures_nth (image : Image) (window_dim : Z * Z)
    (stride r c : Z) :
  fst window_dim <= width image -> 1 <= stride ->
  0 <= r < row_count image stride ->
  0 <= c < col_count image window_dim stride ->
  nth_error (spec_pictures image window_dim stride)
            (Z.to_nat (r * col_count image window_dim stride + c)) =
  Some (pict_at image window_dim (r * stride) (c * stride)).
Proof.
  intros Hw Hs Hr Hc. rewrite spec_pictures_grid by assumption.
  replace (Z.to_nat (r * col_count image window_dim stride + c))
    with (Z.to_nat r * Z.to_nat (col_count image window_dim stride)
          + Z.to_nat c)%nat by nia.
  rewrite (grid_nth (fun r c => pict_at image window_dim
                                  (Z.of_nat r * stride) (Z.of_nat c * stride)))
    by lia.
  now rewrite !Z2Nat.id by lia.
Qed.

Lemma spec_pictures_length (image : Image) (window_dim : Z * Z) (stride : Z) :
  fst window_dim <= width image -> 1 <= stride ->
  Z.of_nat (length (spec_pictures image window_dim stride)) =
  row_count image stride * col_count image window_dim stride.
Proof.
  intros Hw Hs. rewrite spec_pictures_grid by assumption.
  rewrite (grid_length (fun r c => pict_at image window_dim
                                     (Z.of_nat r * stride)
                                     (Z.of_nat c * stride))).
  pose proof (counts_nonneg image window_dim stride Hw Hs). nia.
Qed.

(** X1: With a window that fits and a stride of at least 1, the number of
    crops is [ceil(height / stride)] rows times
    [min(ceil(width / stride), 1 + ceil((width - window width) / stride))]
    crops per row, and [tally] is that number. *)
Theorem sliding_window_crop_count (image : Image) (window_dim : Z * Z)
    (stride : Z) :
  fst window_dim <= width image -> snd window_dim <= height image ->
  1 <= stride ->
  exists st crops,
    sliding_window_state image window_dim stride = Ok st /\
    sliding_window image window_dim stride = Ok crops /\
    Z.of_nat (length crops) =
      ceil_div (height image) stride *
      Z.min (ceil_div (width image) stride)
            (1 + ceil_div (width image - fst window_dim) stride) /\
    tally st = Z.of_nat (length crops).
Proof.
  intros Hw Hh Hs. do 2 eexists.
  split; [apply sliding_window_state_ok; lia |].
  split; [apply sliding_window_ok; lia |].
  cbn [tally]. rewrite length_map. split; [| reflexivity].
  now apply spec_pictures_length.
Qed.

(** X2: Row-major order: the crop at row [r] and column [c] is at index
    [r * columns + c] and is cut at left [min(c * stride, width - window
    width)] and top [min(r * stride, height - window height)]. *)
Theorem sliding_window_crop_at (image : Image) (window_dim : Z * Z)
    (stride r c : Z) :
  fst window_dim <= width image -> snd window_dim <= height image ->
  1 <= stride ->
  0 <= r < row_count image stride ->
  0 <= c < col_count image window_dim stride ->
  exists crops,
    sliding_window image window_dim stride = Ok crops /\
    nth_error crops (Z.to_nat (r * col_count image window_dim stride + c)) =
    Some (crop image
            (Z.min (c * stride) (width image - fst window_dim),
             Z.min (r * stride) (height image - snd window_dim),
             Z.min (c * stride + fst window_dim) (width image),
             Z.min (r * stride + snd window_dim) (height image))).
Proof.
  intros Hw Hh Hs Hr Hc. eexists.
  split; [apply sliding_window_ok; lia |].
  rewrite nth_error_map, spec_pictures_nth by assumption.
  unfold pict_at. cbn [option_map fst]. now rewrite crop_bounds_at_min.
Qed.

(** X3: With a stride no larger than the window, the crops cover the image:
    every pixel lies in the box of some crop. *)
Theorem sliding_window_covers (image : Image) (window_dim : Z * Z)
    (stride : Z) :
  fst window_dim <= width image -> snd window_dim <= height image ->
  1 <= stride -> stride <= fst window_dim -> stride <= snd window_dim ->
  exists st,
    sliding_window_state image window_dim stride = Ok st /\
    forall px py, 0 <= px < width image -> 0 <= py < height image ->
      exists p, In p (pictures st) /\
                let '(l, u, r, b) := snd p in
                l <= px < r /\ u <= py < b.
Proof.
  intros Hw Hh Hs Hsw Hsh. eexists.
  split; [apply sliding_window_state_ok; lia |].
  cbn [pictures]. intros px py Hpx Hpy.
  pose proof (ceil_div_bounds (height image) stride ltac:(lia)) as HR.
  pose proof (ceil_div_bounds (width image) stride ltac:(lia)) as HN.
  pose proof (ceil_div_bounds (width image - fst window_dim) stride
                ltac:(lia)) as HJ.
  pose proof (Z.div_mod px stride ltac:(lia)) as Hdx.
  pose proof (Z.mod_pos_bound px stride ltac:(lia)) as Hmx.
  pose proof (Z.div_mod py stride ltac:(lia)) as Hdy.
  pose proof (Z.mod_pos_bound py stride ltac:(lia)) as Hmy.
  assert (Hqx : 0 <= px / stride) by (apply Z.div_pos; lia).
  assert (Hqy : 0 <= py / stride) by (apply Z.div_pos; lia).
  set (j := ceil_div (width image - fst window_dim) stride) in *.
  assert (Hj0 : 0 <= j) by (apply ceil_div_nonneg; lia).
  assert (Hcols : col_count image window_dim stride = 1 + j).
  { unfold col_count. fold j. apply Z.min_r. nia. }
  set (c := Z.min (px / stride) j).
  exists (pict_at image window_dim (py / stride * stride) (c * stride)).
  split.
  - rewrite spec_pictures_grid by assumption.
    apply (grid_In (fun r c => pict_at image window_dim
                                 (Z.of_nat r * stride) (Z.of_nat c * stride))).
    exists (Z.to_nat (py / stride)), (Z.to_nat c).
    split; [unfold row_count; nia |].
    split; [rewrite Hcols; lia |].
    now rewrite !Z2Nat.id by lia.
  - unfold pict_at. cbn [snd]. rewrite crop_bounds_at_min.
    destruct (Z_le_gt_dec (px / stride) j) as [Hle | Hgt].
    + replace c with (px / stride) by lia. nia.
    + replace c with j by lia. nia.
Qed.

End GridClaims.

Lemma flat_map_singleton {A B : Type} (f : A -> B) (l : list A) :
  flat_map (fun a => [f a]) l = map f l.
Proof.
  induction l as [| a l IH]; simpl; congruence.
Qed.

Section Repeats.

Context {Image : Type} `{ImageLib Image}.

(** X4: Which crops are cut at the same box.  Two grid positions carry the
    same box exactly when they are in the same column and their rows are
    the same or both at or below the first row that reaches the bottom
    edge, row [ceil((height - window height) / stride)]: no box comes
    twice within a row, and the bottom row is repeated. *)
Theorem sliding_window_same_box (image : Image) (window_dim : Z * Z)
    (stride r c r' c' : Z) :
  fst window_dim <= width image -> snd window_dim <= height image ->
  1 <= stride ->
  0 <= r < row_count image stride -> 0 <= r' < row_count image stride ->
  0 <= c < col_count image window_dim stride ->
  0 <= c' < col_count image window_dim stride ->
  exists st p p',
    sliding_window_state image window_dim stride = Ok st /\
    nth_error (pictures st)
      (Z.to_nat (r * col_count image window_dim stride + c)) = Some p /\
    nth_error (pictures st)
      (Z.to_nat (r' * col_count image window_dim stride + c')) = Some p' /\
    (snd p = snd p' <->
     c = c' /\
     Z.min r (ceil_div (height image - snd window_dim) stride) =
     Z.min r' (ceil_div (height image - snd window_dim) stride)).
Proof.
  intros Hw Hh Hs Hr Hr' Hc Hc'. do 3 eexists.
  split; [apply sliding_window_state_ok; lia |].
  cbn [pictures].
  split; [now apply spec_pictures_nth |].
  split; [now apply spec_pictures_nth |].
  unfold pict_at. cbn [snd].
  rewrite (crop_bounds_at_min image window_dim (c * stride) (r * stride)).
  rewrite (crop_bounds_at_min image window_dim (c' * stride) (r' * stride)).
  pose proof (ceil_div_bounds (height image - snd window_dim) stride
                ltac:(lia)) as HK.
  pose proof (ceil_div_bounds (width image - fst window_dim) stride
                ltac:(lia)) as HJ.
  set (k := ceil_div (height image - snd window_dim) stride) in *.
  assert (Hcj : c <= ceil_div (width image - fst window_dim) stride
                /\ c' <= ceil_div (width image - fst window_dim) stride)
    by (unfold col_count in Hc, Hc'; lia).
  set (j := ceil_div (width image - fst window_dim) stride) in *.
  split.
  - intros [= Hl Hu _ _]. split.
    + destruct (Z.lt_trichotomy c c') as [Hlt | [Heq | Hgt]];
        [exfalso; nia | assumption | exfalso; nia].
    + destruct (Z_lt_le_dec r k), (Z_lt_le_dec r' k); nia.
  - intros [<- Hmin].
    assert (Hu : Z.min (r * stride) (height image - snd window_dim) =
                 Z.min (r' * stride) (height image - snd window_dim))
      by (destruct (Z_lt_le_dec r k), (Z_lt_le_dec r' k); nia).
    assert (Hb : Z.min (r * stride + snd window_dim) (height image) =
                 Z.min (r' * stride + snd window_dim) (height image))
      by lia.
    now rewrite Hu, Hb.
Qed.

(** X5: A window of the size of the image: for every top value the one crop
    of the row is the whole image, so the result is [ceil(height /
    stride)] copies of the same crop. *)
Theorem sliding_window_whole_image (image : Image) (stride : Z) :
  1 <= width image -> 1 <= stride ->
  sliding_window image (size image) stride =
  Ok (repeat (crop image (0, 0, width image, height image))
             (Z.to_nat (ceil_div (height image) stride))).
Proof.
  intros HW Hs. unfold size.
  rewrite sliding_window_ok by (cbn [fst snd]; lia).
  rewrite spec_pictures_grid by (cbn [fst snd]; lia).
  assert (Hcols : col_count image (width image, height image) stride = 1).
  { unfold col_count. cbn [fst]. rewrite Z.sub_diag.
    replace (ceil_div 0 stride) with 0
      by (symmetry; apply ceil_div_unique; lia).
    pose proof (ceil_div_bounds (width image) stride ltac:(lia)). nia. }
  rewrite Hcols. change (Z.to_nat 1) with 1%nat. cbn [seq map].
  unfold row_count. f_equal.
  rewrite flat_map_singleton, map_map.
  rewrite <- (length_seq (Z.to_nat (ceil_div (height image) stride)) 0) at 2.
  rewrite <- map_const. apply map_ext. intros r.
  unfold pict_at. cbn [fst]. rewrite crop_bounds_at_min. cbn [fst snd].
  f_equal. f_equal; [f_equal; [f_equal |] |]; lia.
Qed.

(** X8: A zero stride raises the [ValueError] of [range], once the window
    check has passed; crops are returned exactly when the window fits and
    the stride is not zero. *)
Theorem sliding_window_zero_stride (image : Image) (window_dim : Z * Z)
    (stride : Z) :
  (fst window_dim <= width image -> snd window_dim <= height image ->
   stride = 0 ->
   sliding_window image window_dim stride = Raise ValueError_range_step) /\
  ((exists crops, sliding_window image window_dim stride = Ok crops) <->
   fst window_dim <= width image /\ snd window_dim <= height image /\
   stride <> 0).
Proof.
  assert (Hzero :
    fst window_dim <= width image -> snd window_dim <= height image ->
    stride = 0 ->
    sliding_window image window_dim stride = Raise ValueError_range_step).
  { intros Hw Hh ->. unfold sliding_window, sliding_window_state.
    now rewrite window_check_false by assumption. }
  split; [exact Hzero |]. split.
  - intros [crops Hok].
    destruct (Z_le_gt_dec (fst window_dim) (width image)) as [Hw | Hw].
    + destruct (Z_le_gt_dec (snd window_dim) (height image)) as [Hh | Hh].
      * destruct (Z.eq_dec stride 0) as [Hs | Hs]; [| tauto].
        rewrite Hzero in Hok by assumption. discriminate.
      * unfold sliding_window, sliding_window_state in Hok.
        rewrite window_check_true in Hok by lia. discriminate.
    + unfold sliding_window, sliding_window_state in Hok.
      rewrite window_check_true in Hok by lia. discriminate.
  - intros (Hw & Hh & Hs). eexists. now apply sliding_window_ok.
Qed.

(** X6: A stride at least as large as the image: the result is the single
    crop at the top left corner. *)
Theorem sliding_window_large_stride (image : Image) (window_dim : Z * Z)
    (stride : Z) :
  fst window_dim <= width image -> snd window_dim <= height image ->
  1 <= width image -> 1 <= height image ->
  width image <= stride -> height image <= stride ->
  sliding_window image window_dim stride =
  Ok [crop image (0, 0, fst window_dim, snd window_dim)].
Proof.
  intros Hw Hh HW HH Hsw Hsh.
  rewrite sliding_window_ok by lia.
  rewrite spec_pictures_grid by lia.
  assert (Hrows : row_count image stride = 1)
    by (unfold row_count; apply ceil_div_unique; lia).
  assert (Hcols : col_count image window_dim stride = 1).
  { unfold col_count.
    replace (ceil_div (width image) stride) with 1
      by (symmetry; apply ceil_div_unique; lia).
    pose proof (ceil_div_nonneg (width image - fst window_dim) stride). lia. }
  rewrite Hrows, Hcols. change (Z.to_nat 1) with 1%nat.
  cbn [seq map flat_map app Z.of_nat]. unfold pict_at. cbn [fst].
  rewrite crop_bounds_at_min. rewrite !Z.mul_0_l, !Z.add_0_l.
  do 3 f_equal. f_equal; [f_equal; [f_equal |] |]; lia.
Qed.

(** X7: A stride larger than the window leaves gaps: when the stride is also
    at most the room beside the window, no crop contains a pixel of the
    column [x = window width]. *)
Theorem sliding_window_gap (image : Image) (window_dim : Z * Z)
    (stride : Z) :
  snd window_dim <= height image ->
  0 <= fst window_dim -> fst window_dim < stride ->
  stride <= width image - fst window_dim ->
  exists st,
    sliding_window_state image window_dim stride = Ok st /\
    forall p, In p (pictures st) ->
      let '(l, u, r, b) := snd p in
      ~ (l <= fst window_dim < r).
Proof.
  intros Hh Hw0 Hsw Hroom. eexists.
  split; [apply sliding_window_state_ok; lia |].
  cbn [pictures]. intros p Hp.
  rewrite spec_pictures_grid in Hp by lia.
  apply (grid_In (fun r c => pict_at image window_dim
                               (Z.of_nat r * stride) (Z.of_nat c * stride)))
    in Hp.
  destruct Hp as [r [c [_ [_ ->]]]]. unfold pict_at. cbn [snd].
  rewrite crop_bounds_at_min.
  destruct c as [| c].
  - cbn [Z.of_nat]. lia.
  - assert (stride <= Z.of_nat (S c) * stride) by nia. lia.
Qed.

End Repeats.


(** * The traversal of [sliding_window] *)

Section TraversalClaim.

Context {Image : Type} `{ImageLib Image}.

(** C3: with a window that fits and a stride of at least 1, the crops
    are a sequence of rows, one for every top value [0, stride,
    2*stride, ...] below the image height and no other.  In the row of
    top value [y] the [k]-th crop starts from left position [k * stride],
    which is below the image width, and is cut at the box shifted back
    inside the image: left [min(k*stride, width - window width)], top
    [min(y, height - window height)], right [min(k*stride + window width,
    width)], bottom [min(y + window height, height)].  A crop that is not
    the last of its row has its right bound short of the image width; the
    last one has its right bound equal to the image width, or the next
    left position is not below the width.  Rows are not cut short in the
    same way: every top value below the height has its row, and two rows
    whose windows both overflow the bottom edge are the same row. *)
Theorem sliding_window_traversal (image : Image) (window_dim : Z * Z)
    (stride : Z) :
  fst window_dim <= width image -> snd window_dim <= height image ->
  1 <= stride ->
  exists st rows,
    sliding_window_state image window_dim stride = Ok st /\
    sliding_window image window_dim stride = Ok (map fst (pictures st)) /\
    pictures st = concat rows /\
    (forall r, (r < length rows)%nat <-> Z.of_nat r * stride < height image) /\
    (forall r row, nth_error rows r = Some row ->
       (forall k, (k < length row)%nat -> Z.of_nat k * stride < width image) /\
       (forall k p, nth_error row k = Some p ->
          snd p =
            (Z.min (Z.of_nat k * stride) (width image - fst window_dim),
             Z.min (Z.of_nat r * stride) (height image - snd window_dim),
             Z.min (Z.of_nat k * stride + fst window_dim) (width image),
             Z.min (Z.of_nat r * stride + snd window_dim) (height image)) /\
          fst p = crop image (snd p)) /\
       (forall k, (S k < length row)%nat ->
          Z.min (Z.of_nat k * stride + fst window_dim) (width image)
          <> width image) /\
       (forall k, length row = S k ->
          Z.min (Z.of_nat k * stride + fst window_dim) (width image)
          = width image \/
          width image <= Z.of_nat (S k) * stride) /\
       (row = [] -> width image <= 0)) /\
    (forall r r' row row',
       nth_error rows r = Some row -> nth_error rows r' = Some row' ->
       height image < Z.of_nat r * stride + snd window_dim ->
       height image < Z.of_nat r' * stride + snd window_dim ->
       row = row').
Proof.
  intros Hw Hh Hs.
  pose proof (width_nonneg image) as HW. pose proof (height_nonneg image) as HH.
  pose proof (ceil_div_bounds (height image) stride ltac:(lia)) as HR.
  pose proof (ceil_div_bounds (width image) stride ltac:(lia)) as HN.
  pose proof (ceil_div_bounds (width image - fst window_dim) stride
                ltac:(lia)) as HJ.
  pose proof (counts_nonneg image window_dim stride Hw Hs) as [HR0 HC0].
  assert (Hcols : col_count image window_dim stride =
                  Z.min (ceil_div (width image) stride)
                        (1 + ceil_div (width image - fst window_dim) stride))
    by reflexivity.
  unfold row_count in HR0.
  set (R := ceil_div (height image) stride) in *.
  set (N := ceil_div (width image) stride) in *.
  set (J := ceil_div (width image - fst window_dim) stride) in *.
  set (C := col_count image window_dim stride) in *.
  set (g := fun r : nat =>
              map (fun c : nat =>
                     pict_at image window_dim (Z.of_nat r * stride)
                       (Z.of_nat c * stride))
                  (seq 0 (Z.to_nat C))).
  assert (Hrow : forall r row, nth_error (map g (seq 0 (Z.to_nat R))) r
                               = Some row -> row = g r).
  { intros r row Hnth. rewrite nth_error_map, nth_error_seq in Hnth.
    destruct (Nat.ltb_spec r (Z.to_nat R)); [| discriminate].
    now injection Hnth as <-. }
  exists {| pictures := spec_pictures image window_dim stride;
            tally := Z.of_nat (length (spec_pictures image window_dim stride)) |},
         (map g (seq 0 (Z.to_nat R))).
  split; [apply sliding_window_state_ok; lia |].
  split; [apply sliding_window_ok; lia |].
  cbn [pictures].
  split; [rewrite spec_pictures_grid by assumption;
          apply flat_map_concat_map |].
  split; [| split].
  - intros r. rewrite length_map, length_seq. split; intros Hr; nia.
  - intros r row Hnth. apply Hrow in Hnth. subst row. unfold g.
    rewrite length_map, length_seq.
    split; [intros k Hk; nia |].
    split; [| split; [| split]].
    + intros k p Hk. rewrite nth_error_map, nth_error_seq in Hk.
      destruct (Nat.ltb_spec k (Z.to_nat C)); [| discriminate].
      injection Hk as <-. unfold pict_at. cbn [fst snd].
      now rewrite crop_bounds_at_min.
    + intros k Hk. assert (Z.of_nat k < J) by lia. nia.
    + intros k Hk.
      destruct (Z_le_gt_dec N (1 + J)) as [Hle | Hgt].
      * right. assert (C = N) by lia. nia.
      * left. assert (C = 1 + J) by lia.
        assert (Z.of_nat k = J) by lia. nia.
    + intros Hnil. apply (f_equal (@length (Image * Box))) in Hnil.
      rewrite length_map, length_seq in Hnil. simpl in Hnil.
      assert (J >= 0) by (pose proof (ceil_div_nonneg
                            (width image - fst window_dim) stride); lia).
      assert (N <= 0) by lia. nia.
  - intros r r' row row' Hnth Hnth' Hover Hover'.
    apply Hrow in Hnth, Hnth'. subst row row'. unfold g.
    apply map_ext. intros c. unfold pict_at, crop_bounds_at.
    apply Z.ltb_lt in Hover, Hover'. now rewrite Hover, Hover'.
Qed.

End TraversalClaim.

(** * Failures and levels of [get_image_chunks] *)

Section ChunkFailures.

Context {Image : Type} `{ImageLib Image} {F : Type} `{Arith F}.

Lemma sliding_window_ok_inv (image : Image) (window_dim : Z * Z)
    (stride : Z) (crops : list Image) :
  sliding_window image window_dim stride = Ok crops ->
  fst window_dim <= width image /\ snd window_dim <= height image.
Proof.
  intros Hok.
  destruct (Z_le_gt_dec (fst window_dim) (width image)) as [Hw | Hw];
    [destruct (Z_le_gt_dec (snd window_dim) (height image)) as [Hh | Hh] |];
    [tauto | |];
    unfold sliding_window, sliding_window_state in Hok;
    rewrite window_check_true in Hok by lia; discriminate.
Qed.

Lemma chunks_loop_failure (window_dim : Z * Z) (stride : Z)
    (pre post : list Image) (level : Image) (crops : list (list Image)) :
  stride <> 0 ->
  Forall (fun l => fst window_dim <= width l /\ snd window_dim <= height l)
         pre ->
  ~ (fst window_dim <= width level /\ snd window_dim <= height level) ->
  chunks_loop window_dim stride (pre ++ level :: post) crops =
  Raise (ValueError_window window_dim (size level)).
Proof.
  intros Hs Hpre Hlevel. revert crops.
  induction Hpre as [| im rest [Hw Hh] _ IH]; intros crops; simpl.
  - unfold sliding_window, sliding_window_state.
    now rewrite window_check_true by lia.
  - rewrite sliding_window_ok by assumption. simpl. apply IH.
Qed.

Lemma chunks_loop_ok_inv (window_dim : Z * Z) (stride : Z)
    (levels : list Image) (crops chunks : list (list Image)) :
  chunks_loop window_dim stride levels crops = Ok chunks ->
  Forall (fun l => fst window_dim <= width l /\ snd window_dim <= height l)
         levels.
Proof.
  revert crops. induction levels as [| im rest IH]; intros crops Hok.
  - constructor.
  - simpl in Hok.
    destruct (sliding_window im window_dim stride) as [c | e] eqn:E;
      [| discriminate].
    constructor; [eapply sliding_window_ok_inv; eassumption |].
    eapply IH. exact Hok.
Qed.

(** X9: an exception of [get_scaled_images] leaves [get_image_chunks]
    unchanged, before any window slides.  When the pyramid is returned
    (and the stride is not zero), [get_image_chunks] returns exactly
    when every level is at least as large as the window; otherwise it
    raises the size-mismatch error of the first level, in pyramid order,
    that is too small, carrying that level's size. *)
Theorem get_image_chunks_first_failure (img : Image) (window_dim : Z * Z)
    (stride : Z) (num_rescales : Z) (rescale_increment : F) :
  stride <> 0 ->
  (forall e,
     get_scaled_images img num_rescales rescale_increment = Raise e ->
     get_image_chunks img window_dim stride num_rescales rescale_increment =
     Raise e) /\
  (forall levels,
     get_scaled_images img num_rescales rescale_increment = Ok levels ->
     ((exists chunks,
         get_image_chunks img window_dim stride num_rescales
           rescale_increment = Ok chunks) <->
      Forall (fun l => fst window_dim <= width l /\ snd window_dim <= height l)
             levels) /\
     (forall pre level post,
        levels = pre ++ level :: post ->
        Forall (fun l => fst window_dim <= width l /\
                         snd window_dim <= height l) pre ->
        ~ (fst window_dim <= width level /\ snd window_dim <= height level) ->
        get_image_chunks img window_dim stride num_rescales
          rescale_increment =
        Raise (ValueError_window window_dim (size level)))).
Proof.
  intros Hs. unfold get_image_chunks. split.
  - intros e ->. reflexivity.
  - intros levels ->. cbn [bind]. split.
    + split.
      * intros [chunks Hok]. eapply chunks_loop_ok_inv. exact Hok.
      * intros Hfit. eexists. now apply chunks_loop_spec.
    + intros pre level post -> Hpre Hlevel. now apply chunks_loop_failure.
Qed.

(** X11: asking for one more level computes one smaller level first and
    then does what the call for [count] does: the result, and the
    exception if there is one, are those of resizing by [increment **
    count] followed by [get_scaled_images] for [count], with the new
    level in front. *)
Theorem get_scaled_images_one_more (img : Image) (count : Z)
    (increment : F) :
  1 <= count ->
  get_scaled_images img (count + 1) increment =
  (resize_amount <- pow increment count ;;
   scaled_width <- times (width img) resize_amount ;;
   new_width <- int_ scaled_width ;;
   scaled_height <- times (height img) resize_amount ;;
   new_height <- int_ scaled_height ;;
   level <- resize img (new_width, new_height) ;;
   rest <- get_scaled_images img count increment ;;
   Ok (level :: rest)).
Proof.
  intros Hc. unfold get_scaled_images.
  rewrite !scale_loop_mapM, !py_range1_items.
  replace (Z.to_nat (count + 1 - 1)) with (S (Z.to_nat (count - 1))) by lia.
  cbn [seq map mapM]. rewrite <- seq_shift, !map_map, !mapM_map.
  rewrite (mapM_ext (fun a => level_at img (count + 1) increment (Z.of_nat (S a)))
                    (fun a => level_at img count increment (Z.of_nat a))).
  - unfold level_at at 1. unfold new_dims at 1. cbn [Z.of_nat].
    replace (count + 1 - 1 - 0) with count by lia.
    destruct (pow increment count) as [ra | e]; simpl; [| reflexivity].
    destruct (times (width img) ra) as [sw | e]; simpl; [| reflexivity].
    destruct (int_ sw) as [nw | e]; simpl; [| reflexivity].
    destruct (times (height img) ra) as [sh | e]; simpl; [| reflexivity].
    destruct (int_ sh) as [nh | e]; simpl; [| reflexivity].
    destruct (resize img (nw, nh)) as [level | e]; simpl; [| reflexivity].
    destruct (mapM (fun a => level_at img count increment (Z.of_nat a))
                   (seq 0 (Z.to_nat (count - 1)))) as [ls | e]; simpl;
      reflexivity.
  - intros a. unfold level_at, new_dims.
    now replace (count + 1 - 1 - Z.of_nat (S a))
      with (count - 1 - Z.of_nat a) by lia.
Qed.

End ChunkFailures.

(** * [display_crops] *)

Lemma skipn_nth_cons {A : Type} (l : list A) (k : nat) (a : A) :
  nth_error l k = Some a -> skipn k l = a :: skipn (S k) l.
Proof.
  revert l. induction k as [| k IH]; intros [| b l] Hk; try discriminate.
  - now injection Hk as ->.
  - simpl in Hk. simpl. rewrite (IH l Hk). reflexivity.
Qed.

Lemma py_getitem_nat {A : Type} (l : list A) (k : nat) :
  py_getitem l (Z.of_nat k) = nth_error l k.
Proof.
  unfold py_getitem.
  destruct (0 <=? Z.of_nat k) eqn:E; [| apply Z.leb_gt in E; lia].
  now rewrite Nat2Z.id.
Qed.

Section DisplayFacts.

Context {Image : Type} `{ImageLib Image}.

Lemma shown_app (calls calls' : list (plt_call Image)) :
  shown (calls ++ calls') = shown calls ++ shown calls'.
Proof.
  unfold shown. apply flat_map_app.
Qed.

Lemma subplot_loop_spec (rows columns : Z) (crops : list Image) (m k : nat)
    (calls : list (plt_call Image)) :
  (k <= length crops)%nat ->
  shown (fst (subplot_loop rows columns crops (map Z.of_nat (seq k m)) calls))
    = shown calls ++ firstn m (skipn k crops) /\
  ((k + m <= length crops)%nat ->
   snd (subplot_loop rows columns crops (map Z.of_nat (seq k m)) calls)
     = None) /\
  ((length crops < k + m)%nat ->
   snd (subplot_loop rows columns crops (map Z.of_nat (seq k m)) calls)
     = Some IndexError).
Proof.
  revert k calls. induction m as [| m IH]; intros k calls Hk.
  - simpl. rewrite app_nil_r.
    split; [reflexivity |]. split; [reflexivity | lia].
  - cbn [seq map subplot_loop]. rewrite py_getitem_nat.
    destruct (nth_error crops k) as [c |] eqn:E.
    + assert (Hlt : (k < length crops)%nat)
        by (apply nth_error_Some; congruence).
      destruct (IH (S k)
                  ((calls ++ [fig_add_subplot rows columns (Z.of_nat k + 1)])
                   ++ [plt_imshow c; plt_axis_off]) Hlt)
        as (Hshown & Hnone & Herr).
      rewrite Hshown, (skipn_nth_cons crops k c E), !shown_app.
      cbn [shown flat_map firstn app]. rewrite app_nil_r, <- app_assoc.
      split; [reflexivity |].
      split; intros Hlen; [apply Hnone | apply Herr]; lia.
    + apply nth_error_None in E. cbn [fst snd].
      rewrite shown_app, skipn_all2 by assumption.
      cbn [shown flat_map firstn app].
      split; [reflexivity |]. split; [lia | reflexivity].
Qed.

Lemma display_crops_outcome_aux (img : Image) (crops : list Image)
    (window_dimensions : Z * Z) (stride : Z) :
  1 <= stride ->
  shown (fst (display_crops img crops window_dimensions stride)) =
    firstn (Z.to_nat
              ((1 + ceil_div (width img - fst window_dimensions) stride) *
               (1 + ceil_div (height img - snd window_dimensions) stride)))
           crops /\
  ((1 + ceil_div (width img - fst window_dimensions) stride) *
   (1 + ceil_div (height img - snd window_dimensions) stride)
   <= Z.of_nat (length crops) ->
   snd (display_crops img crops window_dimensions stride) = None) /\
  (Z.of_nat (length crops) <
   (1 + ceil_div (width img - fst window_dimensions) stride) *
   (1 + ceil_div (height img - snd window_dimensions) stride) ->
   snd (display_crops img crops window_dimensions stride) = Some IndexError).
Proof.
  intros Hs. unfold display_crops.
  destruct (stride =? 0) eqn:E; [apply Z.eqb_eq in E; lia |].
  set (rows := 1 + ceil_div (height img - snd window_dimensions) stride).
  set (columns := 1 + ceil_div (width img - fst window_dimensions) stride).
  change (range_items 0 (columns * rows) 1) with (py_range1 (columns * rows)).
  rewrite py_range1_items.
  destruct (subplot_loop_spec rows columns crops (Z.to_nat (columns * rows))
              0 [plt_figure (Some (10 * columns, 10 * rows))]
              (Nat.le_0_l _))
    as (Hshown & Hnone & Herr).
  destruct (subplot_loop rows columns crops
              (map Z.of_nat (seq 0 (Z.to_nat (columns * rows))))
              [plt_figure (Some (10 * columns, 10 * rows))])
    as [calls [e |]] eqn:Eloop; cbn [fst snd] in *.
  - split; [exact Hshown |].
    split; intros Hlen; [apply Hnone | apply Herr]; lia.
  - rewrite shown_app, Hshown. cbn [shown flat_map app].
    rewrite app_nil_r. split; [reflexivity |].
    split; intros Hlen; [apply Hnone | apply Herr]; lia.
Qed.

(** X12: With a stride of at least 1 and a window that fits, [display_crops]
    shows the first [columns * rows] crops of the list it is given, with
    [rows = 1 + ceil((height - window height) / stride)] and [columns = 1
    + ceil((width - window width) / stride)]; it ends without an
    exception exactly when the list has that many crops, and otherwise
    [crops[i]] raises [IndexError] once the list is used up. *)
Theorem display_crops_outcome (img : Image) (crops : list Image)
    (window_dimensions : Z * Z) (stride : Z) :
  1 <= stride ->
  fst window_dimensions <= width img -> snd window_dimensions <= height img ->
  let shown_count :=
    (1 + ceil_div (width img - fst window_dimensions) stride) *
    (1 + ceil_div (height img - snd window_dimensions) stride) in
  shown (fst (display_crops img crops window_dimensions stride)) =
    firstn (Z.to_nat shown_count) crops /\
  (snd (display_crops img crops window_dimensions stride) = None <->
   shown_count <= Z.of_nat (length crops)) /\
  (snd (display_crops img crops window_dimensions stride) <> None ->
   snd (display_crops img crops window_dimensions stride) = Some IndexError).
Proof.
  intros Hs Hw Hh shown_count. subst shown_count.
  destruct (display_crops_outcome_aux img crops window_dimensions stride Hs)
    as (Hshown & Hnone & Herr).
  split; [exact Hshown |].
  destruct (Z_le_gt_dec
              ((1 + ceil_div (width img - fst window_dimensions) stride) *
               (1 + ceil_div (height img - snd window_dimensions) stride))
              (Z.of_nat (length crops))) as [Hle | Hgt].
  - rewrite Hnone by assumption. split; [tauto | congruence].
  - rewrite Herr by lia. split; [| reflexivity].
    split; [discriminate | lia].
Qed.

Lemma display_crops_sliding_aux (image : Image) (window_dim : Z * Z)
    (stride : Z) :
  fst window_dim <= width image -> snd window_dim <= height image ->
  1 <= stride -> stride <= fst window_dim -> stride <= snd window_dim ->
  snd (display_crops image (map fst (spec_pictures image window_dim stride))
         window_dim stride) = None /\
  forall c, In c (map fst (spec_pictures image window_dim stride)) ->
            In c (shown (fst (display_crops image
                                (map fst (spec_pictures image window_dim stride))
                                window_dim stride))).
Proof.
  intros Hw Hh Hs Hsw Hsh.
  destruct (display_crops_outcome_aux image
              (map fst (spec_pictures image window_dim stride))
              window_dim stride Hs) as (Hshown & Hnone & _).
  pose proof (ceil_div_bounds (height image) stride ltac:(lia)) as HR.
  pose proof (ceil_div_bounds (width image) stride ltac:(lia)) as HN.
  pose proof (ceil_div_bounds (width image - fst window_dim) stride
                ltac:(lia)) as HJ.
  pose proof (ceil_div_bounds (height image - snd window_dim) stride
                ltac:(lia)) as HK.
  pose proof (spec_pictures_length image window_dim stride Hw Hs) as Hlen.
  pose proof (counts_nonneg image window_dim stride Hw Hs) as [HR0 HC0].
  set (j := ceil_div (width image - fst window_dim) stride) in *.
  set (k := ceil_div (height image - snd window_dim) stride) in *.
  assert (Hj0 : 0 <= j) by (apply ceil_div_nonneg; lia).
  assert (Hk0 : 0 <= k) by (apply ceil_div_nonneg; lia).
  assert (Hcols : col_count image window_dim stride = 1 + j).
  { unfold col_count. fold j. apply Z.min_r. nia. }
  assert (Hrows : 1 + k <= row_count image stride)
    by (unfold row_count; nia).
  rewrite Hcols in *.
  split; [apply Hnone; rewrite length_map; nia |].
  intros c Hc. rewrite Hshown.
  apply in_map_iff in Hc. destruct Hc as [p [<- Hp]].
  rewrite spec_pictures_grid in Hp by assumption.
  apply (grid_In (fun r c => pict_at image window_dim
                               (Z.of_nat r * stride) (Z.of_nat c * stride)))
    in Hp.
  destruct Hp as [r [c' [Hr [Hc' ->]]]]. rewrite Hcols in Hc'.
  apply nth_error_In
    with (n := Z.to_nat (Z.min (Z.of_nat r) k * (1 + j) + Z.of_nat c')).
  rewrite nth_error_firstn.
  destruct (Nat.ltb_spec
              (Z.to_nat (Z.min (Z.of_nat r) k * (1 + j) + Z.of_nat c'))
              (Z.to_nat ((1 + j) * (1 + k)))) as [_ | Hge]; [| nia].
  rewrite nth_error_map.
  rewrite <- Hcols at 1.
  rewrite spec_pictures_nth by (assumption || rewrite ?Hcols; lia).
  cbn [option_map]. do 2 f_equal. unfold pict_at.
  rewrite (crop_bounds_at_min image window_dim (Z.of_nat c' * stride)
             (Z.min (Z.of_nat r) k * stride)).
  rewrite (crop_bounds_at_min image window_dim (Z.of_nat c' * stride)
             (Z.of_nat r * stride)).
  destruct (Z_lt_le_dec (Z.of_nat r) k) as [Hlt | Hle].
  - now rewrite (Z.min_l (Z.of_nat r) k) by lia.
  - rewrite (Z.min_r (Z.of_nat r) k) by lia.
    assert (Hrk : k * stride <= Z.of_nat r * stride)
      by (apply Z.mul_le_mono_nonneg_r; lia).
    assert (Hu : Z.min (k * stride) (height image - snd window_dim) =
                 Z.min (Z.of_nat r * stride) (height image - snd window_dim))
      by lia.
    assert (Hb : Z.min (k * stride + snd window_dim) (height image) =
                 Z.min (Z.of_nat r * stride + snd window_dim) (height image))
      by lia.
    now rewrite Hu, Hb.
Qed.


(** X13: With a stride no larger than the window, [display_crops] on the crops
    of [sliding_window] raises nothing, and every crop of the list is
    among the crops it shows: the crops it leaves out are repetitions of
    the bottom row. *)
Theorem display_crops_of_sliding_window (image : Image)
    (window_dim : Z * Z) (stride : Z) :
  fst window_dim <= width image -> snd window_dim <= height image ->
  1 <= stride -> stride <= fst window_dim -> stride <= snd window_dim ->
  exists crops,
    sliding_window image window_dim stride = Ok crops /\
    snd (display_crops image crops window_dim stride) = None /\
    forall c, In c crops ->
              In c (shown (fst (display_crops image crops window_dim stride))).
Proof.
  intros Hw Hh Hs Hsw Hsh. eexists.
  split; [apply sliding_window_ok; lia |].
  now apply display_crops_sliding_aux.
Qed.

End DisplayFacts.

(** * [test] *)

Section TestFacts.

Context {Image : Type} `{ImageLib Image}.

Lemma test_loop_spec (levels : list Image) (window_dim : Z * Z)
    (stride : Z) :
  Forall (fun l => fst window_dim <= width l /\ snd window_dim <= height l)
         levels ->
  1 <= stride -> stride <= fst window_dim -> stride <= snd window_dim ->
  forall (m k : nat) (calls : list (plt_call Image)),
  (k + m <= length levels)%nat ->
  snd (test_loop levels
         (map (fun l => map fst (spec_pictures l window_dim stride)) levels)
         window_dim stride (map Z.of_nat (seq k m)) calls) = None /\
  (forall c, In c (shown calls) ->
     In c (shown (fst (test_loop levels
         (map (fun l => map fst (spec_pictures l window_dim stride)) levels)
         window_dim stride (map Z.of_nat (seq k m)) calls)))) /\
  (forall i l c, (k <= i < k + m)%nat -> nth_error levels i = Some l ->
     In c (map fst (spec_pictures l window_dim stride)) ->
     In c (shown (fst (test_loop levels
         (map (fun l => map fst (spec_pictures l window_dim stride)) levels)
         window_dim stride (map Z.of_nat (seq k m)) calls)))).
Proof.
  intros Hfit Hs Hsw Hsh. induction m as [| m IH]; intros k calls Hkm.
  - simpl. split; [reflexivity |]. split; [tauto | intros; lia].
  - cbn [seq map test_loop]. rewrite !py_getitem_nat, nth_error_map.
    destruct (nth_error levels k) as [l |] eqn:El;
      [| apply nth_error_None in El; lia].
    cbn [option_map].
    assert (Hl : fst window_dim <= width l /\ snd window_dim <= height l).
    { eapply Forall_forall in Hfit; [exact Hfit |].
      eapply nth_error_In. exact El. }
    destruct (display_crops_sliding_aux l window_dim stride
                (proj1 Hl) (proj2 Hl) Hs Hsw Hsh) as [Hnone Hall].
    destruct (display_crops l
                (map fst (spec_pictures l window_dim stride))
                window_dim stride) as [made e].
    cbn [fst snd] in Hnone, Hall. subst e.
    destruct (IH (S k) (calls ++ made) ltac:(lia)) as (IH1 & IH2 & IH3).
    split; [exact IH1 |]. split.
    + intros c Hc. apply IH2. rewrite shown_app. apply in_or_app. now left.
    + intros i l' c Hi Hnth Hc.
      destruct (Nat.eq_dec i k) as [-> | Hne].
      * rewrite El in Hnth. injection Hnth as <-.
        apply IH2. rewrite shown_app. apply in_or_app. right. now apply Hall.
      * apply (IH3 i l' c); [lia | assumption | assumption].
Qed.

(** [test] raises what [get_image_chunks] raises on the opened image,
    and then displays nothing; when [get_image_chunks] returns, [test]
    raises nothing, neither from indexing nor from [display_crops], and
    every crop of every level is shown. *)
Lemma test_follows_chunks (img : Image) :
  (forall e,
     get_image_chunks img (75, 100) 50 3 (float_literal 5 10) = Raise e ->
     test img = ([], Some (test_chunks_exn e))) /\
  (forall chunks,
     get_image_chunks img (75, 100) 50 3 (float_literal 5 10) = Ok chunks ->
     snd (test img) = None /\
     forall cs c, In cs chunks -> In c cs -> In c (shown (fst (test img)))).
Proof.
  split.
  - intros e He. unfold test. now rewrite He.
  - intros chunks Hchunks. pose proof Hchunks as Hloop.
    unfold get_image_chunks in Hloop. apply bind_ok_inv in Hloop.
    destruct Hloop as [levels [Hlevels Hloop]].
    pose proof (chunks_loop_ok_inv _ _ _ _ _ Hloop) as Hfit.
    rewrite chunks_loop_spec in Hloop by (lia || assumption).
    injection Hloop as <-. cbn [app] in *.
    pose proof (get_scaled_images_length img 3 (float_literal 5 10) levels
                  Hlevels) as Hlen.
    change (Z.to_nat (3 - 1)) with 2%nat in Hlen.
    destruct (test_loop_spec levels (75, 100) 50
                Hfit ltac:(lia) ltac:(cbn; lia) ltac:(cbn; lia)
                3%nat 0%nat (simple_display_image img) ltac:(lia))
      as (Hnone & _ & Hall).
    unfold test. rewrite Hchunks, Hlevels, py_range1_items.
    change (Z.to_nat 3) with 3%nat.
    destruct (test_loop levels
                (map (fun l => map fst (spec_pictures l (75, 100) 50)) levels)
                (75, 100) 50 (map Z.of_nat (seq 0 3))
                (simple_display_image img)) as [calls e].
    cbn [fst snd] in Hnone, Hall. subst e. cbn [fst snd].
    split; [reflexivity |].
    intros cs c Hcs Hc. apply in_map_iff in Hcs.
    destruct Hcs as [l [<- Hl]]. apply In_nth_error in Hl.
    destruct Hl as [i Hi].
    apply (Hall i l c); [| assumption | assumption].
    assert (i < length levels)%nat by (apply nth_error_Some; congruence).
    lia.
Qed.

End TestFacts.

Section TestBySize.

Context {Image : Type} `{ImageLib Image}.

Lemma float_half_value : (float_value (float_literal 5 10) == 1 # 2)%Q.
Proof. reflexivity. Qed.

(** The three levels that [test] asks for. *)
Lemma test_levels (img : Image) :
  1 <= width img < 2 ^ 53 -> 1 <= height img < 2 ^ 53 ->
  (width img < 4 \/ height img < 4 ->
   get_scaled_images img 3 (float_literal 5 10) = Raise ValueError_resize) /\
  (4 <= width img -> 4 <= height img ->
   exists l0 l1,
     get_scaled_images img 3 (float_literal 5 10) = Ok [l0; l1; img] /\
     size l0 = (width img / 4, height img / 4) /\
     size l1 = (width img / 2, height img / 2)).
Proof.
  intros Hw Hh.
  pose proof float_half_value as Ehalf.
  assert (Hpos : (0 < float_value (float_literal 5 10))%Q) by reflexivity.
  assert (Hle : (float_value (float_literal 5 10) <= 1)%Q)
    by (rewrite Ehalf; discriminate).
  assert (Esw : scaled_side (width img) (float_literal 5 10) (3 - 1) =
                width img / 4)
    by (rewrite scaled_side_half by (assumption || lia); reflexivity).
  assert (Esh : scaled_side (height img) (float_literal 5 10) (3 - 1) =
                height img / 4)
    by (rewrite scaled_side_half by (assumption || lia); reflexivity).
  split.
  - intros Hsmall.
    apply get_scaled_images_float_raise; try assumption; try lia.
    rewrite Esw, Esh.
    destruct Hsmall; [left | right];
      (apply Z.div_lt_upper_bound; lia).
  - intros Hw4 Hh4.
    destruct (get_scaled_images_float_ok img 3 (float_literal 5 10)
                Hpos Hle Hw Hh ltac:(lia)) as [levels [Hok Hlen]].
    + rewrite Esw. apply Z.div_le_lower_bound; lia.
    + rewrite Esh. apply Z.div_le_lower_bound; lia.
    + change (Z.to_nat 3) with 3%nat in Hlen.
      destruct levels as [| l0 [| l1 [| l2 [| l3 rest]]]]; try discriminate.
      destruct (get_scaled_images_last img 3 (float_literal 5 10) _ 2 l2
                  Hok ltac:(change (Z.to_nat (3 - 1)) with 2%nat; lia)
                  eq_refl) as [_ ->].
      exists l0, l1. split; [exact Hok |].
      destruct (level_sides_half img 3 (float_literal 5 10) _ 0 l0
                  Ehalf Hw Hh Hok
                  ltac:(change (Z.to_nat (3 - 1)) with 2%nat; lia) eq_refl)
        as [E0w E0h].
      destruct (level_sides_half img 3 (float_literal 5 10) _ 1 l1
                  Ehalf Hw Hh Hok
                  ltac:(change (Z.to_nat (3 - 1)) with 2%nat; lia) eq_refl)
        as [E1w E1h].
      unfold size. rewrite E0w, E0h, E1w, E1h. split; reflexivity.
Qed.

(** X14: what [test] does, by the size of the opened image (sides from
    1 to 2^53).  With a side below 4 the first level would have a side
    of 0: [Image.resize] raises and nothing is displayed.  Otherwise,
    with a width below 300 or a height below 400 the first level, of
    size [(width // 4, height // 4)], is smaller than the 75x100 window:
    [sliding_window] raises its [ValueError] and nothing is displayed.
    Otherwise [test] raises nothing and every crop of every level is
    shown. *)
Theorem test_outcome_by_size (img : Image) :
  1 <= width img < 2 ^ 53 -> 1 <= height img < 2 ^ 53 ->
  (width img < 4 \/ height img < 4 ->
   test img = ([], Some (test_chunks_exn ValueError_resize))) /\
  (4 <= width img -> 4 <= height img ->
   width img < 300 \/ height img < 400 ->
   test img =
   ([], Some (test_chunks_exn
                (ValueError_window (75, 100)
                   (width img / 4, height img / 4))))) /\
  (300 <= width img -> 400 <= height img ->
   snd (test img) = None /\
   exists chunks,
     get_image_chunks img (75, 100) 50 3 (float_literal 5 10) = Ok chunks /\
     length chunks = 3%nat /\
     forall cs c, In cs chunks -> In c cs -> In c (shown (fst (test img)))).
Proof.
  intros Hw Hh. destruct (test_levels img Hw Hh) as [Hraise Hlevels].
  split; [| split].
  - intros Hsmall. specialize (Hraise Hsmall).
    apply (proj1 (test_follows_chunks img)).
    unfold get_image_chunks. rewrite Hraise. reflexivity.
  - intros Hw4 Hh4 Hsmall.
    destruct (Hlevels Hw4 Hh4) as (l0 & l1 & Hok & Hs0 & _).
    apply (proj1 (test_follows_chunks img)).
    unfold get_image_chunks. rewrite Hok. cbn [bind].
    rewrite <- Hs0.
    apply (chunks_loop_failure (75, 100) 50 [] [l1; img] l0 []);
      [lia | constructor |].
    unfold size in Hs0. injection Hs0 as E0w E0h.
    rewrite E0w, E0h. cbn [fst snd]. intros [Hfw Hfh].
    destruct Hsmall as [Hs | Hs].
    + assert (width img / 4 < 75) by (apply Z.div_lt_upper_bound; lia). lia.
    + assert (height img / 4 < 100) by (apply Z.div_lt_upper_bound; lia). lia.
  - intros Hw300 Hh400.
    destruct (Hlevels ltac:(lia) ltac:(lia)) as (l0 & l1 & Hok & Hs0 & Hs1).
    unfold size in Hs0, Hs1.
    injection Hs0 as E0w E0h. injection Hs1 as E1w E1h.
    assert (Hfit : Forall (fun l => fst (75, 100) <= width l /\
                                    snd (75, 100) <= height l)
                          [l0; l1; img]).
    { cbn [fst snd]. repeat constructor.
      - rewrite E0w. apply Z.div_le_lower_bound; lia.
      - rewrite E0h. apply Z.div_le_lower_bound; lia.
      - rewrite E1w. apply Z.div_le_lower_bound; lia.
      - rewrite E1h. apply Z.div_le_lower_bound; lia.
      - lia.
      - lia. }
    assert (Hchunks :
      get_image_chunks img (75, 100) 50 3 (float_literal 5 10) =
      Ok (map (fun level => map fst (spec_pictures level (75, 100) 50))
              [l0; l1; img])).
    { unfold get_image_chunks. rewrite Hok. cbn [bind].
      rewrite chunks_loop_spec by (lia || assumption). reflexivity. }
    destruct (proj2 (test_follows_chunks img) _ Hchunks) as [Hnone Hshown].
    split; [exact Hnone |].
    eexists. split; [exact Hchunks |]. split; [reflexivity | exact Hshown].
Qed.

End TestBySize.

(** * The theorems at concrete inputs *)

(** The doubles that the literals [.5], [.7] and [2.] denote. *)
Example float_literals :
  float_literal 5 10 = S754_finite false 4503599627370496 (-53) /\
  float_literal 7 10 = S754_finite false 6305039478318694 (-53) /\
  float_literal 2 1 = S754_finite false 4503599627370496 (-51) /\
  (float_value (float_literal 5 10) == 1 # 2)%Q /\
  (float_value (float_literal 2 1) == 2)%Q /\
  (float_value (float_literal 7 10) < 7 # 10)%Q.
Proof. repeat split. Qed.

(** A 150x150 image, a 100x100 window, stride 100. *)
Lemma sliding_window_crops_inside_witness :
  (0 <= 100 <= 150 /\ 1 <= 100) /\
  exists st,
    sliding_window_state (Opened 150 150) (100, 100) 100 = Ok st /\
    sliding_window (Opened 150 150) (100, 100) 100 = Ok (map fst (pictures st)) /\
    Forall (fun p : SImage * Box =>
              let '(l, u, r, b) := snd p in
              fst p = crop (Opened 150 150) (l, u, r, b) /\
              size (fst p) = (100, 100) /\
              0 <= l /\ r = l + 100 /\ r <= 150 /\
              0 <= u /\ b = u + 100 /\ b <= 150)
           (pictures st).
Proof.
  split; [lia |].
  assert (Hw : 0 <= fst (100, 100) <= width (Opened 150 150)) by (cbn; lia).
  assert (Hh : 0 <= snd (100, 100) <= height (Opened 150 150)) by (cbn; lia).
  assert (Hs : 1 <= 100) by lia.
  exact (sliding_window_crops_inside (Opened 150 150) (100, 100) 100 Hw Hh Hs).
Defined.

(** A 150x150 image, a 100x100 window, stride 20: eight rows, and the
    rows whose windows overflow the bottom edge are the same row. *)
Lemma sliding_window_traversal_witness :
  exists st rows,
    sliding_window_state (Opened 150 150) (100, 100) 20 = Ok st /\
    pictures st = concat rows /\
    (forall r, (r < length rows)%nat <-> Z.of_nat r * 20 < 150) /\
    (forall r r' row row',
       nth_error rows r = Some row -> nth_error rows r' = Some row' ->
       150 < Z.of_nat r * 20 + 100 -> 150 < Z.of_nat r' * 20 + 100 ->
       row = row').
Proof.
  assert (Hw : fst (100, 100) <= width (Opened 150 150)) by (cbn; lia).
  assert (Hh : snd (100, 100) <= height (Opened 150 150)) by (cbn; lia).
  assert (Hs : 1 <= 20) by lia.
  destruct (sliding_window_traversal (Opened 150 150) (100, 100) 20 Hw Hh Hs)
    as (st & rows & Hst & _ & Hrows & Hlen & _ & Hsame).
  exists st, rows. split; [exact Hst |]. split; [exact Hrows |].
  split; [exact Hlen | exact Hsame].
Defined.

Lemma sliding_window_150_witness :
  sliding_window (Opened 150 150) (100, 100) 100 =
  Ok [ Cropped (Opened 150 150) (0, 0, 100, 100);
       Cropped (Opened 150 150) (50, 0, 150, 100);
       Cropped (Opened 150 150) (0, 50, 100, 150);
       Cropped (Opened 150 150) (50, 50, 150, 150) ].
Proof.
  exact (proj2 (sliding_window_150 (Opened 150 150) eq_refl eq_refl)).
Defined.

Lemma sliding_window_negative_stride_witness :
  (100 <= 150 /\ -3 < 0) /\
  sliding_window (Opened 150 150) (100, 100) (-3) = Ok [].
Proof.
  split; [lia |].
  assert (Hw : fst (100, 100) <= width (Opened 150 150)) by (cbn; lia).
  assert (Hh : snd (100, 100) <= height (Opened 150 150)) by (cbn; lia).
  assert (Hs : -3 < 0) by lia.
  exact (proj2 (sliding_window_negative_stride
                  (Opened 150 150) (100, 100) (-3) Hw Hh Hs)).
Defined.

(** A 1x1 image, two levels, increment [.5]: the resized level would be
    0x0, [resize] raises, and no list of two images is returned. *)
Lemma get_scaled_images_tiny_image :
  get_scaled_images (Opened 1 1) 2 (float_literal 5 10) =
    Raise ValueError_resize /\
  ~ (exists levels,
       get_scaled_images (Opened 1 1) 2 (float_literal 5 10) = Ok levels /\
       length levels = 2%nat).
Proof.
  split; [reflexivity |]. intros [levels [Hok _]]. discriminate Hok.
Qed.

Lemma get_scaled_images_original_last_witness :
  1 <= 3 /\
  forall levels,
    get_scaled_images (Opened 150 150) 3 (float_literal 5 10) = Ok levels ->
    length levels = 3%nat /\
    nth_error levels 2 = Some (Opened 150 150).
Proof.
  split; [lia |]. intros levels Hok.
  assert (Hc : 1 <= 3) by lia.
  destruct (proj1 (proj2 (get_scaled_images_original_last
                            (Opened 150 150) 3 (float_literal 5 10) Hc))
                  levels Hok) as (Hlen & Hlast & _).
  split; [exact Hlen | exact Hlast].
Defined.

Lemma get_scaled_images_nonpositive_count_witness :
  0 <= 0 /\
  get_scaled_images (Opened 150 150) 0 (float_literal 5 10) =
  Ok [Opened 150 150].
Proof.
  split; [lia |].
  assert (Hc : 0 <= 0) by lia.
  exact (proj1 (get_scaled_images_nonpositive_count
                  (Opened 150 150) 0 (float_literal 5 10) Hc)).
Defined.

(** A 400x400 image, three levels, increment [.5]: the levels are
    100x100, 200x200 and 400x400, all at least as large as the window. *)
Lemma get_image_chunks_levels_witness :
  exists chunks,
    get_image_chunks (Opened 400 400) (100, 100) 100 3 (float_literal 5 10)
      = Ok chunks /\
    length chunks = 3%nat /\
    Forall2 (fun level c => sliding_window level (100, 100) 100 = Ok c)
            [ Resized (Opened 400 400) (100, 100);
              Resized (Opened 400 400) (200, 200); Opened 400 400 ]
            chunks /\
    sliding_window (Opened 400 400) (100, 100) 100 = Ok (last chunks []).
Proof.
  assert (Hs : 1 <= 100) by lia.
  assert (Hn : 1 <= 3) by lia.
  assert (Hlevels :
    get_scaled_images (Opened 400 400) 3 (float_literal 5 10) =
    Ok [ Resized (Opened 400 400) (100, 100);
         Resized (Opened 400 400) (200, 200); Opened 400 400 ])
    by reflexivity.
  assert (Hfit : Forall (fun level : SImage =>
                           fst (100, 100) <= width level /\
                           snd (100, 100) <= height level)
                        [ Resized (Opened 400 400) (100, 100);
                          Resized (Opened 400 400) (200, 200);
                          Opened 400 400 ])
    by (repeat constructor; cbn; lia).
  exact (get_image_chunks_levels (Opened 400 400) (100, 100) 100 3
           (float_literal 5 10) _ Hs Hn Hlevels Hfit).
Defined.

(** C7 fails in floating point.  For a 10x10 image, two levels and the
    double that [.7] denotes, the product [10 * .7] rounds to 7.0 and the
    level is 7x7, while the floor of the exact product of 10 and that
    double is 6.  For a 100x100 image and three levels, [.7 ** 2] and its
    product with 100 round to just below 49 and the level is 48x48,
    while [floor(100 * (7/10)^2)] is 49. *)
Lemma get_scaled_images_level_dims_rounding :
  (get_scaled_images (Opened 10 10) 2 (float_literal 7 10) =
     Ok [Resized (Opened 10 10) (7, 7); Opened 10 10] /\
   (0 < float_value (float_literal 7 10))%Q /\
   (float_value (float_literal 7 10) < 1)%Q /\
   Qfloor (inject_Z 10 * float_value (float_literal 7 10) ^ (2 - 1 - 0)) = 6)
  /\
  (get_scaled_images (Opened 100 100) 3 (float_literal 7 10) =
     Ok [ Resized (Opened 100 100) (48, 48);
          Resized (Opened 100 100) (70, 70); Opened 100 100 ] /\
   Qfloor (inject_Z 100 * (7 # 10) ^ (3 - 1 - 0)) = 49).
Proof. repeat split. Qed.

(** The sides that binary64 gives, computed on the rationals: 7 for a
    side of 10 and the increment [.7], 48 for a side of 100 two levels
    down, 37 for a side of 150 and the increment [.5] two levels down. *)
Example scaled_side_values :
  scaled_side 10 (float_literal 7 10) 1 = 7 /\
  scaled_side 100 (float_literal 7 10) 2 = 48 /\
  scaled_side 150 (float_literal 5 10) 2 = 37.
Proof. repeat split; vm_compute; reflexivity. Qed.

Lemma get_scaled_images_level_dims_witness :
  exists level,
    nth_error [ Resized (Opened 150 150) (37, 37);
                Resized (Opened 150 150) (75, 75); Opened 150 150 ]
              (Z.to_nat 0) = Some level /\
    width level =
      scaled_side (width (Opened 150 150)) (float_literal 5 10) (3 - 1 - 0) /\
    height level =
      scaled_side (height (Opened 150 150)) (float_literal 5 10) (3 - 1 - 0) /\
    1 <= width level /\ 1 <= height level /\
    resize (Opened 150 150) (width level, height level) = Ok level.
Proof.
  assert (Hpos : (0 < float_value (float_literal 5 10))%Q) by reflexivity.
  assert (Hw : 1 <= width (Opened 150 150) < 2 ^ 53) by (cbn; lia).
  assert (Hh : 1 <= height (Opened 150 150) < 2 ^ 53) by (cbn; lia).
  assert (Hlevels :
    get_scaled_images (Opened 150 150) 3 (float_literal 5 10) =
    Ok [ Resized (Opened 150 150) (37, 37);
         Resized (Opened 150 150) (75, 75); Opened 150 150 ])
    by reflexivity.
  assert (Hi : 0 <= 0 <= 3 - 2) by lia.
  exact (get_scaled_images_level_dims (Opened 150 150) 3 (float_literal 5 10)
           _ 0 Hpos Hw Hh Hlevels Hi).
Defined.

(** With the increment [2.] the levels of a 10x10 image are 40x40, 20x20
    and the original, largest first: level 0 is wider and higher than
    level 1, and level 1 than level 2. *)
Lemma get_scaled_images_increment_2 :
  get_scaled_images (Opened 10 10) 3 (float_literal 2 1) =
    Ok [ Resized (Opened 10 10) (40, 40); Resized (Opened 10 10) (20, 20);
         Opened 10 10 ] /\
  width (Resized (Opened 10 10) (20, 20))
    < width (Resized (Opened 10 10) (40, 40)) /\
  height (Resized (Opened 10 10) (20, 20))
    < height (Resized (Opened 10 10) (40, 40)) /\
  width (Opened 10 10) < width (Resized (Opened 10 10) (20, 20)) /\
  height (Opened 10 10) < height (Resized (Opened 10 10) (20, 20)).
Proof. repeat split. Qed.

(** A 150x150 image, three levels, increment [.5]: the first level,
    37x37, against the original. *)
Lemma get_scaled_images_sizes_monotone_witness :
  width (Resized (Opened 150 150) (37, 37)) <= width (Opened 150 150) /\
  height (Resized (Opened 150 150) (37, 37)) <= height (Opened 150 150).
Proof.
  assert (Hpos : (0 < float_value (float_literal 5 10))%Q) by reflexivity.
  assert (Hle : (float_value (float_literal 5 10) <= 1)%Q)
    by (vm_compute; discriminate).
  assert (Hw : 1 <= width (Opened 150 150) < 2 ^ 53) by (cbn; lia).
  assert (Hh : 1 <= height (Opened 150 150) < 2 ^ 53) by (cbn; lia).
  assert (Hlevels :
    get_scaled_images (Opened 150 150) 3 (float_literal 5 10) =
    Ok [ Resized (Opened 150 150) (37, 37);
         Resized (Opened 150 150) (75, 75); Opened 150 150 ])
    by reflexivity.
  assert (Hij : (0 <= 2)%nat) by lia.
  exact (get_scaled_images_sizes_monotone (Opened 150 150) 3
           (float_literal 5 10) _ 0 2 _ _ Hpos Hle Hw Hh Hlevels Hij
           eq_refl eq_refl).
Defined.

(** * The further theorems at concrete inputs *)

(** A 150x150 image, a 100x100 window, stride 20: 8 rows of 4 crops. *)
Lemma sliding_window_crop_count_witness :
  exists st crops,
    sliding_window_state (Opened 150 150) (100, 100) 20 = Ok st /\
    sliding_window (Opened 150 150) (100, 100) 20 = Ok crops /\
    Z.of_nat (length crops) =
      ceil_div 150 20 * Z.min (ceil_div 150 20) (1 + ceil_div (150 - 100) 20) /\
    tally st = Z.of_nat (length crops).
Proof.
  assert (Hw : fst (100, 100) <= width (Opened 150 150)) by (cbn; lia).
  assert (Hh : snd (100, 100) <= height (Opened 150 150)) by (cbn; lia).
  assert (Hs : 1 <= 20) by lia.
  exact (sliding_window_crop_count (Opened 150 150) (100, 100) 20 Hw Hh Hs).
Defined.

(** The crop of row 1, column 3 of that grid is at index 7. *)
Lemma sliding_window_crop_at_witness :
  exists crops,
    sliding_window (Opened 150 150) (100, 100) 20 = Ok crops /\
    nth_error crops 7 = Some (Cropped (Opened 150 150) (50, 20, 150, 120)).
Proof.
  assert (Hw : fst (100, 100) <= width (Opened 150 150)) by (cbn; lia).
  assert (Hh : snd (100, 100) <= height (Opened 150 150)) by (cbn; lia).
  assert (Hs : 1 <= 20) by lia.
  assert (Hr : 0 <= 1 < row_count (Opened 150 150) 20) by (vm_compute; easy).
  assert (Hc : 0 <= 3 < col_count (Opened 150 150) (100, 100) 20)
    by (vm_compute; easy).
  exact (sliding_window_crop_at (Opened 150 150) (100, 100) 20 1 3
           Hw Hh Hs Hr Hc).
Defined.

Lemma sliding_window_covers_witness :
  exists st,
    sliding_window_state (Opened 150 150) (100, 100) 20 = Ok st /\
    forall px py, 0 <= px < 150 -> 0 <= py < 150 ->
      exists p, In p (pictures st) /\
                let '(l, u, r, b) := snd p in
                l <= px < r /\ u <= py < b.
Proof.
  assert (Hw : fst (100, 100) <= width (Opened 150 150)) by (cbn; lia).
  assert (Hh : snd (100, 100) <= height (Opened 150 150)) by (cbn; lia).
  assert (Hs : 1 <= 20) by lia.
  assert (Hsw : 20 <= fst (100, 100)) by (cbn; lia).
  assert (Hsh : 20 <= snd (100, 100)) by (cbn; lia).
  exact (sliding_window_covers (Opened 150 150) (100, 100) 20
           Hw Hh Hs Hsw Hsh).
Defined.

(** Rows 3 and 5 of that grid are both at or below the first row that
    reaches the bottom edge, row 3: their crops of column 2 have the same
    box. *)
Lemma sliding_window_same_box_witness :
  exists st p p',
    sliding_window_state (Opened 150 150) (100, 100) 20 = Ok st /\
    nth_error (pictures st) 14 = Some p /\
    nth_error (pictures st) 22 = Some p' /\
    (snd p = snd p' <->
     2 = 2 /\ Z.min 3 (ceil_div (150 - 100) 20) =
              Z.min 5 (ceil_div (150 - 100) 20)).
Proof.
  assert (Hw : fst (100, 100) <= width (Opened 150 150)) by (cbn; lia).
  assert (Hh : snd (100, 100) <= height (Opened 150 150)) by (cbn; lia).
  assert (Hs : 1 <= 20) by lia.
  assert (Hr : 0 <= 3 < row_count (Opened 150 150) 20) by (vm_compute; easy).
  assert (Hr' : 0 <= 5 < row_count (Opened 150 150) 20) by (vm_compute; easy).
  assert (Hc : 0 <= 2 < col_count (Opened 150 150) (100, 100) 20)
    by (vm_compute; easy).
  exact (sliding_window_same_box (Opened 150 150) (100, 100) 20 3 2 5 2
           Hw Hh Hs Hr Hr' Hc Hc).
Defined.

(** A 100x100 window on a 100x100 image with stride 50: the whole image,
    twice. *)
Lemma sliding_window_whole_image_witness :
  sliding_window (Opened 100 100) (100, 100) 50 =
  Ok [ Cropped (Opened 100 100) (0, 0, 100, 100);
       Cropped (Opened 100 100) (0, 0, 100, 100) ].
Proof.
  assert (HW : 1 <= width (Opened 100 100)) by (cbn; lia).
  assert (Hs : 1 <= 50) by lia.
  exact (sliding_window_whole_image (Opened 100 100) 50 HW Hs).
Defined.

Lemma sliding_window_large_stride_witness :
  sliding_window (Opened 150 150) (100, 100) 150 =
  Ok [Cropped (Opened 150 150) (0, 0, 100, 100)].
Proof.
  assert (Hw : fst (100, 100) <= width (Opened 150 150)) by (cbn; lia).
  assert (Hh : snd (100, 100) <= height (Opened 150 150)) by (cbn; lia).
  assert (HW : 1 <= width (Opened 150 150)) by (cbn; lia).
  assert (HH : 1 <= height (Opened 150 150)) by (cbn; lia).
  assert (Hsw : width (Opened 150 150) <= 150) by (cbn; lia).
  assert (Hsh : height (Opened 150 150) <= 150) by (cbn; lia).
  exact (sliding_window_large_stride (Opened 150 150) (100, 100) 150
           Hw Hh HW HH Hsw Hsh).
Defined.

(** A 10x10 image, a 2x2 window, stride 5: the pixels of column 2 are in
    no crop. *)
Lemma sliding_window_gap_witness :
  exists st,
    sliding_window_state (Opened 10 10) (2, 2) 5 = Ok st /\
    forall p, In p (pictures st) ->
      let '(l, u, r, b) := snd p in ~ (l <= 2 < r).
Proof.
  assert (Hh : snd (2, 2) <= height (Opened 10 10)) by (cbn; lia).
  assert (Hw0 : 0 <= fst (2, 2)) by (cbn; lia).
  assert (Hsw : fst (2, 2) < 5) by (cbn; lia).
  assert (Hroom : 5 <= width (Opened 10 10) - fst (2, 2)) by (cbn; lia).
  exact (sliding_window_gap (Opened 10 10) (2, 2) 5 Hh Hw0 Hsw Hroom).
Defined.

(** A 299x400 image, three levels, increment [.5]: the first level,
    74x100, is narrower than the 75x100 window.  A 3x3 image: the first
    level would be 0x0 and the error of [resize] comes through. *)
Lemma get_image_chunks_first_failure_witness :
  get_image_chunks (Opened 299 400) (75, 100) 50 3 (float_literal 5 10) =
    Raise (ValueError_window (75, 100) (74, 100)) /\
  get_image_chunks (Opened 3 3) (1, 1) 1 3 (float_literal 5 10) =
    Raise ValueError_resize.
Proof.
  assert (Hs : 50 <> 0) by lia.
  assert (Hs1 : 1 <> 0) by lia.
  assert (Hlevels :
    get_scaled_images (Opened 299 400) 3 (float_literal 5 10) =
    Ok ([] ++ Resized (Opened 299 400) (74, 100)
           :: [Resized (Opened 299 400) (149, 200); Opened 299 400]))
    by reflexivity.
  assert (Hpre : Forall (fun l : SImage => fst (75, 100) <= width l /\
                                           snd (75, 100) <= height l) [])
    by constructor.
  assert (Hsmall : ~ (fst (75, 100) <=
                        width (Resized (Opened 299 400) (74, 100)) /\
                      snd (75, 100) <=
                        height (Resized (Opened 299 400) (74, 100))))
    by (cbn; lia).
  assert (Hraise :
    get_scaled_images (Opened 3 3) 3 (float_literal 5 10) =
    Raise ValueError_resize) by reflexivity.
  split.
  - exact (proj2 (proj2 (get_image_chunks_first_failure
                    (Opened 299 400) (75, 100) 50 3 (float_literal 5 10) Hs)
                    _ Hlevels)
                 [] (Resized (Opened 299 400) (74, 100))
                 [Resized (Opened 299 400) (149, 200); Opened 299 400]
                 eq_refl Hpre Hsmall).
  - exact (proj1 (get_image_chunks_first_failure
                    (Opened 3 3) (1, 1) 1 3 (float_literal 5 10) Hs1)
                 _ Hraise).
Defined.

Lemma get_scaled_images_one_more_witness :
  get_scaled_images (Opened 150 150) (2 + 1) (float_literal 5 10) =
  Ok [ Resized (Opened 150 150) (37, 37);
       Resized (Opened 150 150) (75, 75); Opened 150 150 ].
Proof.
  assert (Hc : 1 <= 2) by lia.
  exact (eq_trans
           (get_scaled_images_one_more (Opened 150 150) 2
              (float_literal 5 10) Hc)
           eq_refl).
Defined.

(** The four crops of a 150x150 image with a 100x100 window and stride
    100 fill the 2x2 grid; three of them do not. *)
Lemma display_crops_outcome_witness :
  snd (display_crops (Opened 150 150)
         [ Cropped (Opened 150 150) (0, 0, 100, 100);
           Cropped (Opened 150 150) (50, 0, 150, 100);
           Cropped (Opened 150 150) (0, 50, 100, 150) ]
         (100, 100) 100) = Some IndexError.
Proof.
  assert (Hs : 1 <= 100) by lia.
  assert (Hw : fst (100, 100) <= width (Opened 150 150)) by (cbn; lia).
  assert (Hh : snd (100, 100) <= height (Opened 150 150)) by (cbn; lia).
  assert (Herr :
    snd (display_crops (Opened 150 150)
           [ Cropped (Opened 150 150) (0, 0, 100, 100);
             Cropped (Opened 150 150) (50, 0, 150, 100);
             Cropped (Opened 150 150) (0, 50, 100, 150) ]
           (100, 100) 100) <> None) by discriminate.
  exact (proj2 (proj2 (display_crops_outcome (Opened 150 150)
           [ Cropped (Opened 150 150) (0, 0, 100, 100);
             Cropped (Opened 150 150) (50, 0, 150, 100);
             Cropped (Opened 150 150) (0, 50, 100, 150) ]
           (100, 100) 100 Hs Hw Hh)) Herr).
Defined.

Lemma display_crops_of_sliding_window_witness :
  exists crops,
    sliding_window (Opened 150 150) (100, 100) 20 = Ok crops /\
    snd (display_crops (Opened 150 150) crops (100, 100) 20) = None /\
    forall c, In c crops ->
      In c (shown (fst (display_crops (Opened 150 150) crops (100, 100) 20))).
Proof.
  assert (Hw : fst (100, 100) <= width (Opened 150 150)) by (cbn; lia).
  assert (Hh : snd (100, 100) <= height (Opened 150 150)) by (cbn; lia).
  assert (Hs : 1 <= 20) by lia.
  assert (Hsw : 20 <= fst (100, 100)) by (cbn; lia).
  assert (Hsh : 20 <= snd (100, 100)) by (cbn; lia).
  exact (display_crops_of_sliding_window (Opened 150 150) (100, 100) 20
           Hw Hh Hs Hsw Hsh).
Defined.

(** [test] on a 3x400 and on a 299x400 image. *)
Example test_small_images :
  test (Opened 3 400) = ([], Some (test_chunks_exn ValueError_resize)) /\
  test (Opened 299 400) =
    ([], Some (test_chunks_exn (ValueError_window (75, 100) (74, 100)))) /\
  snd (test (Opened 300 400)) = None.
Proof. repeat split. Qed.

(** A 150x150 image, three levels, increment [.5]: the smallest level is
    37x37 and the pyramid is returned. *)
Lemma get_scaled_images_float_outcome_witness :
  exists levels,
    get_scaled_images (Opened 150 150) 3 (float_literal 5 10) = Ok levels /\
    length levels = Z.to_nat 3.
Proof.
  assert (Hpos : (0 < float_value (float_literal 5 10))%Q) by reflexivity.
  assert (Hle : (float_value (float_literal 5 10) <= 1)%Q)
    by (vm_compute; discriminate).
  assert (Hw : 1 <= width (Opened 150 150) < 2 ^ 53) by (cbn; lia).
  assert (Hh : 1 <= height (Opened 150 150) < 2 ^ 53) by (cbn; lia).
  assert (Hc : 2 <= 3) by lia.
  assert (Hs : 1 <= scaled_side (width (Opened 150 150))
                      (float_literal 5 10) (3 - 1) /\
               1 <= scaled_side (height (Opened 150 150))
                      (float_literal 5 10) (3 - 1))
    by (split; vm_compute; discriminate).
  exact (proj1 (get_scaled_images_float_outcome (Opened 150 150) 3
                  (float_literal 5 10) Hpos Hle Hw Hh Hc) Hs).
Defined.


(** [test] on a 299x400 image. *)
Lemma test_outcome_by_size_witness :
  test (Opened 299 400) =
  ([], Some (test_chunks_exn
               (ValueError_window (75, 100)
                  (width (Opened 299 400) / 4,
                   height (Opened 299 400) / 4)))).
Proof.
  assert (Hw : 1 <= width (Opened 299 400) < 2 ^ 53) by (cbn; lia).
  assert (Hh : 1 <= height (Opened 299 400) < 2 ^ 53) by (cbn; lia).
  assert (Hw4 : 4 <= width (Opened 299 400)) by (cbn; lia).
  assert (Hh4 : 4 <= height (Opened 299 400)) by (cbn; lia).
  assert (Hs : width (Opened 299 400) < 300 \/
               height (Opened 299 400) < 400) by (left; cbn; lia).
  exact (proj1 (proj2 (test_outcome_by_size (Opened 299 400) Hw Hh))
           Hw4 Hh4 Hs).
Defined.
